(** * Lab Manager: lifecycle orchestration of the [lab] command line tool

    A shallow embedding of the TypeScript sources of the lab manager
    ([state.ts], [commands/bootstrap.ts], [commands/up.ts],
    [commands/down.ts], the component modules and the polling helpers of
    [utils/aws.ts] and [utils/kubernetes.ts]) together with the properties
    of the orchestration engine.

    Conventions of the embedding.
    - The [LabState] object is a single JavaScript object shared by every
      function of one CLI invocation (all [update*State] functions mutate
      their argument and return it).  It lives in the field [mem] of the
      [World]; the file [.lab/state.json] is the field [disk].
    - External tools (terraform, helm, kubectl, aws, psql, the terminal
      prompt) are reached through [call]; what they answer is decided by an
      oracle [Env], except for the set of helm releases which the world
      tracks so that [helm status] agrees with earlier installs.
    - ISO timestamps ([new Date().toISOString()]) are readings of a logical
      clock, modelled as [Z].
    - [async] functions are sequential code in a state and error monad; a
      rejected promise or [throw] is [Throw]. *)

From Stdlib Require Import String List ZArith Bool Lia Ascii DecimalString.
Import ListNotations.
Open Scope string_scope.
Open Scope Z_scope.

(** ** Data model ([state.ts]) *)

Record BootstrapOutputs := mkBootstrapOutputs {
  state_bucket : string;
  state_lock_table : string
}.

Record FoundationOutputs := mkFoundationOutputs {
  vpc_id : string;
  private_subnet_ids : list string;
  public_subnet_ids : list string;
  aurora_cluster_endpoint : string;
  aurora_cluster_reader_endpoint : string;
  aurora_security_group_id : string;
  aurora_secret_arn : string;
  iam_policy_s3_arn : string;
  data_bucket : string;
  data_bucket_arn : string;
  logs_bucket : string;
  logs_bucket_arn : string
}.

Record EksOutputs := mkEksOutputs {
  cluster_name : string;
  cluster_endpoint : string;
  oidc_provider_arn : string
}.

(** [ComponentState]; its optional [version] field is [component_version]
    here, the name [version] being taken by [LabState]. *)
Record ComponentState := mkComponentState {
  deployed : bool;
  component_version : option string;
  namespace : option string;
  release_name : option string;
  deployed_at : option Z
}.

(** [keyof LabState["components"]] *)
Inductive ComponentName := Keycloak | Polaris | Trino | Spark | Opa.

Record Components := mkComponents {
  keycloak : option ComponentState;
  polaris : option ComponentState;
  trino : option ComponentState;
  spark : option ComponentState;
  opa : option ComponentState
}.

Record LabState := mkLabState {
  version : string;
  lab_name : string;
  created_at : Z;
  updated_at : Z;
  bootstrapped : bool;
  bootstrap_outputs : option BootstrapOutputs;
  foundation_deployed : bool;
  foundation_outputs : option FoundationOutputs;
  eks_deployed : bool;
  eks_outputs : option EksOutputs;
  cluster_ready : option bool;
  cluster_context : option string;
  essentials_deployed : option bool;
  components : Components
}.

Definition no_components : Components := mkComponents None None None None None.

Definition get_component (c : ComponentName) (cs : Components) : option ComponentState :=
  match c with
  | Keycloak => keycloak cs
  | Polaris => polaris cs
  | Trino => trino cs
  | Spark => spark cs
  | Opa => opa cs
  end.

(** [components[c] = v] ([v = None] is [delete components[c]]). *)
Definition set_component (c : ComponentName) (v : option ComponentState)
    (cs : Components) : Components :=
  match c with
  | Keycloak => mkComponents v (polaris cs) (trino cs) (spark cs) (opa cs)
  | Polaris => mkComponents (keycloak cs) v (trino cs) (spark cs) (opa cs)
  | Trino => mkComponents (keycloak cs) (polaris cs) v (spark cs) (opa cs)
  | Spark => mkComponents (keycloak cs) (polaris cs) (trino cs) v (opa cs)
  | Opa => mkComponents (keycloak cs) (polaris cs) (trino cs) (spark cs) v
  end.

(** JavaScript truthiness of an optional boolean ([undefined] is falsy). *)
Definition truthy (b : option bool) : bool :=
  match b with Some true => true | _ => false end.

Definition is_some {A} (o : option A) : bool :=
  match o with Some _ => true | None => false end.

(** [state.components?.c?.deployed] as a condition. *)
Definition component_deployed (s : LabState) (c : ComponentName) : bool :=
  match get_component c (components s) with
  | Some r => deployed r
  | None => false
  end.

(** Field updates of the state object. *)
Definition set_updated_at (t : Z) (s : LabState) : LabState :=
  mkLabState (version s) (lab_name s) (created_at s) t
    (bootstrapped s) (bootstrap_outputs s) (foundation_deployed s)
    (foundation_outputs s) (eks_deployed s) (eks_outputs s) (cluster_ready s)
    (cluster_context s) (essentials_deployed s) (components s).

Definition set_bootstrap (b : bool) (o : option BootstrapOutputs) (s : LabState) : LabState :=
  mkLabState (version s) (lab_name s) (created_at s) (updated_at s)
    b o (foundation_deployed s)
    (foundation_outputs s) (eks_deployed s) (eks_outputs s) (cluster_ready s)
    (cluster_context s) (essentials_deployed s) (components s).

Definition set_foundation (b : bool) (o : option FoundationOutputs) (s : LabState) : LabState :=
  mkLabState (version s) (lab_name s) (created_at s) (updated_at s)
    (bootstrapped s) (bootstrap_outputs s) b
    o (eks_deployed s) (eks_outputs s) (cluster_ready s)
    (cluster_context s) (essentials_deployed s) (components s).

Definition set_eks (b : bool) (o : option EksOutputs) (s : LabState) : LabState :=
  mkLabState (version s) (lab_name s) (created_at s) (updated_at s)
    (bootstrapped s) (bootstrap_outputs s) (foundation_deployed s)
    (foundation_outputs s) b o (cluster_ready s)
    (cluster_context s) (essentials_deployed s) (components s).

Definition set_cluster (r : option bool) (ctx : option string) (e : option bool)
    (s : LabState) : LabState :=
  mkLabState (version s) (lab_name s) (created_at s) (updated_at s)
    (bootstrapped s) (bootstrap_outputs s) (foundation_deployed s)
    (foundation_outputs s) (eks_deployed s) (eks_outputs s) r ctx e (components s).

Definition set_components (cs : Components) (s : LabState) : LabState :=
  mkLabState (version s) (lab_name s) (created_at s) (updated_at s)
    (bootstrapped s) (bootstrap_outputs s) (foundation_deployed s)
    (foundation_outputs s) (eks_deployed s) (eks_outputs s) (cluster_ready s)
    (cluster_context s) (essentials_deployed s) cs.

(** The record [loadState] returns when there is no state file. *)
Definition initial_state (labName : string) (t1 t2 : Z) : LabState :=
  mkLabState "1" labName t1 t2 false None false None false None None None None
    no_components.

(** [Config] ([config.ts]): the fields the orchestrator reads. *)
Record Config := mkConfig {
  config_lab_name : string;
  config_lab_environment : string;
  config_aws_region : string
}.

(** ** External collaborators *)

Inductive TfDir := BootstrapDir | FoundationDir | EphemeralDir.

(** One constructor per external command the sources run (through
    [execa], the functions of [terraform.ts], [readline] or [setTimeout]). *)
Inductive Call :=
  | TfWriteBackendConfig (d : TfDir)
  | TfInit (d : TfDir)
  | TfPlan (d : TfDir)
  | TfApply (d : TfDir)
  | TfOutput (d : TfDir)
  | TfDestroy (d : TfDir)
  | KubectlVersion
  | AwsVersion
  | HelmVersion
  | PsqlVersion
  | AwsWaitEksActive
  | AwsUpdateKubeconfig
  | AwsGetSecretValue
  | AwsGetAccountId
  | AwsHeadBucket
  | AwsDescribeDbClusters
  | KubectlWaitNodesReady
  | KubectlGetNodes
  | KubectlCreateNamespace (ns : string)
  | KubectlDeleteNamespace (ns : string)
  | KubectlGetSecret
  | KubectlCreateSecret
  | KubectlDeleteConfigMap (name : string)
  | KubectlCreateConfigMap (name : string)
  | KubectlDeleteSparkApplications
  | KubectlGetService (name : string)
  | KubectlWaitPods (c : ComponentName)
  | KubectlPortForwardTest
  | HelmStatus (release : string)
  | HelmRepoAdd (name : string)
  | HelmRepoUpdate
  | HelmInstall (release : string)
  | HelmUninstall (release : string)
  | PsqlCheckDatabase (db : string)
  | PsqlCreateDatabase (db : string)
  | WriteValuesFile (c : ComponentName)
  | WriteExampleManifest
  | PromptConfirm
  | PromptConfirmDestructive
  | Sleep (ms : Z).

(** Calls that change infrastructure, the cluster or the operator's
    kubeconfig.  Planning, reading outputs, status queries, prompts and the
    generation of local files ([backend.tf], helm values) are not. *)
Definition mutating (c : Call) : bool :=
  match c with
  | TfApply _ | TfDestroy _
  | AwsUpdateKubeconfig
  | KubectlCreateNamespace _ | KubectlDeleteNamespace _
  | KubectlCreateSecret
  | KubectlDeleteConfigMap _ | KubectlCreateConfigMap _
  | KubectlDeleteSparkApplications
  | HelmRepoAdd _ | HelmRepoUpdate | HelmInstall _ | HelmUninstall _
  | PsqlCreateDatabase _ => true
  | _ => false
  end.

(** What a command answers: success, the two benign failures the sources
    recognise in [stderr] ("AlreadyExists" / "already exists", "not found"),
    or any other failure. *)
Inductive Resp := Success | AlreadyExists | NotFound | Failure.

(** The oracle: the answer of each command, indexed by the logical time at
    which it is issued, and the data a successful command returns. *)
Record Env := mkEnv {
  respond : Z -> Call -> Resp;
  bootstrap_tf_outputs : Z -> option BootstrapOutputs;
  foundation_tf_outputs : Z -> option FoundationOutputs;
  eks_tf_outputs : Z -> option EksOutputs;
  typed : Z -> string
}.

Inductive Event :=
  | Called (c : Call)
  | Saved (s : LabState)
  | Logged (m : string).

Record World := mkWorld {
  mem : LabState;
  disk : option LabState;
  releases : list string;
  clock : Z;
  trace : list Event
}.

Fixpoint has_release (r : string) (rs : list string) : bool :=
  match rs with
  | [] => false
  | x :: rs' => if String.eqb r x then true else has_release r rs'
  end.

Fixpoint remove_release (r : string) (rs : list string) : list string :=
  match rs with
  | [] => []
  | x :: rs' => if String.eqb r x then remove_release r rs' else x :: remove_release r rs'
  end.

(** ** The state and error monad of one CLI invocation *)

Inductive Res (A : Type) :=
  | Ok (a : A)
  | Throw (e : string).
Arguments Ok {A} a.
Arguments Throw {A} e.

Definition M (A : Type) := World -> Res A * World.

Definition ret {A} (a : A) : M A := fun w => (Ok a, w).

Definition bind {A B} (m : M A) (f : A -> M B) : M B :=
  fun w => match m w with
           | (Ok a, w') => f a w'
           | (Throw e, w') => (Throw e, w')
           end.

Definition throw {A} (e : string) : M A := fun w => (Throw e, w).

(** [try { m } catch (error) { h error }] *)
Definition try_catch {A} (m : M A) (h : string -> M A) : M A :=
  fun w => match m w with
           | (Ok a, w') => (Ok a, w')
           | (Throw e, w') => h e w'
           end.

Notation "x <- m ;; k" := (bind m (fun x => k))
  (at level 61, m at next level, right associativity).
Notation "m ;; k" := (bind m (fun _ => k))
  (at level 61, right associativity).

Definition get_state : M LabState := fun w => (Ok (mem w), w).

Definition modify_state (f : LabState -> LabState) : M unit :=
  fun w => (Ok tt, mkWorld (f (mem w)) (disk w) (releases w) (clock w) (trace w)).

Definition emit (e : Event) : M unit :=
  fun w => (Ok tt, mkWorld (mem w) (disk w) (releases w) (clock w) (trace w ++ [e])).

Definition log (m : string) : M unit := emit (Logged m).

(** [new Date()]: a reading of the clock, which then moves on. *)
Definition date_now : M Z :=
  fun w => (Ok (clock w), mkWorld (mem w) (disk w) (releases w) (clock w + 1) (trace w)).

Section Gateway.

Variable env : Env.

(** The answer of a command and the helm releases it leaves.  [helm status]
    reports a release as found exactly when it was installed and not
    removed since; [helm upgrade --install] adds the release when it
    succeeds, [helm uninstall] removes it, and destroying the ephemeral
    cluster removes every release. *)
Definition gateway (t : Z) (rs : list string) (c : Call) : Resp * list string :=
  match c with
  | HelmStatus r =>
      match respond env t c with
      | Failure => (Failure, rs)
      | _ => if has_release r rs then (Success, rs) else (NotFound, rs)
      end
  | HelmInstall r =>
      match respond env t c with
      | Success => (Success, if has_release r rs then rs else r :: rs)
      | _ => (Failure, rs)
      end
  | HelmUninstall r =>
      match respond env t c with
      | Failure => (Failure, rs)
      | _ => if has_release r rs then (Success, remove_release r rs) else (NotFound, rs)
      end
  | TfDestroy EphemeralDir =>
      match respond env t c with
      | Success => (Success, [])
      | x => (x, rs)
      end
  | _ => (respond env t c, rs)
  end.

Definition call (c : Call) : M Resp :=
  fun w =>
    let '(r, rs) := gateway (clock w) (releases w) c in
    (Ok r, mkWorld (mem w) (disk w) rs (clock w + 1) (trace w ++ [Called c])).

(** A command whose every failure is thrown. *)
Definition call_or_throw (c : Call) (e : string) : M unit :=
  r <- call c ;;
  match r with
  | Success => ret tt
  | _ => throw e
  end.

(** A command wrapped in [try { } catch { }] with an empty handler. *)
Definition call_ignore (c : Call) : M unit :=
  _ <- call c ;; ret tt.

End Gateway.

(** ** [state.ts] *)

(** [saveState]: refresh [updated_at], then [writeFileSync] the record.

    The file system is taken to be sound: the write succeeds and the file
    then holds the record.  What a write that fails half way leaves behind
    is the subject of [StateFile] below; the commands are studied on runs
    whose writes succeed. *)
Definition writeFileSync : M unit :=
  fun w => (Ok tt, mkWorld (mem w) (Some (mem w)) (releases w) (clock w)
                     (trace w ++ [Saved (mem w)])).

Definition saveState : M unit :=
  t <- date_now ;;
  modify_state (set_updated_at t) ;;
  writeFileSync.

Definition updateBootstrapState (outputs : BootstrapOutputs) : M unit :=
  modify_state (set_bootstrap true (Some outputs)) ;;
  saveState.

Definition updateFoundationState (outputs : FoundationOutputs) : M unit :=
  modify_state (set_foundation true (Some outputs)) ;;
  saveState.

Definition updateEksState (outputs : EksOutputs) : M unit :=
  modify_state (set_eks true (Some outputs)) ;;
  saveState.

Definition updateClusterReadyState (contextName : option string)
    (essentialsDeployed : bool) : M unit :=
  modify_state (set_cluster (Some true) contextName (Some essentialsDeployed)) ;;
  saveState.

Definition clear_ephemeral (s : LabState) : LabState :=
  set_cluster (Some false) None (Some false) (set_eks false None s).

Definition clearEphemeralState : M unit :=
  modify_state clear_ephemeral ;;
  saveState.

Definition updateComponentState (component : ComponentName)
    (componentState : ComponentState) : M unit :=
  modify_state (fun s => set_components
                           (set_component component (Some componentState) (components s)) s) ;;
  saveState.

Definition clearComponentState (component : ComponentName) : M unit :=
  modify_state (fun s => set_components
                           (set_component component None (components s)) s) ;;
  saveState.

Section Orchestrator.

Variable env : Env.
Variable config : Config.

Local Abbreviation call := (call env).
Local Abbreviation call_or_throw := (call_or_throw env).
Local Abbreviation call_ignore := (call_ignore env).

(** ** [utils/helm.ts] *)

Definition checkHelmInstalled : M bool :=
  r <- call HelmVersion ;;
  ret (match r with Success => true | _ => false end).

Definition addHelmRepo (name : string) : M unit :=
  r <- call (HelmRepoAdd name) ;;
  match r with
  | Success | AlreadyExists => ret tt
  | _ => throw "Helm command failed: repo add"
  end.

Definition updateHelmRepos : M unit :=
  call_or_throw HelmRepoUpdate "Helm command failed: repo update".

Definition installChart (releaseName : string) : M unit :=
  call_or_throw (HelmInstall releaseName) "Helm command failed: upgrade --install".

Definition uninstallChart (releaseName : string) : M unit :=
  r <- call (HelmUninstall releaseName) ;;
  match r with
  | Success | NotFound => ret tt
  | _ => throw "Helm command failed: uninstall"
  end.

(** [getRelease(...) !== null] *)
Definition releaseExists (releaseName : string) : M bool :=
  r <- call (HelmStatus releaseName) ;;
  match r with
  | Success => ret true
  | NotFound => ret false
  | _ => throw "Helm command failed: status"
  end.

(** ** [utils/kubernetes.ts], [utils/aws.ts], [utils/database.ts] *)

Definition checkKubectlInstalled : M bool :=
  r <- call KubectlVersion ;;
  ret (match r with Success => true | _ => false end).

Definition checkAwsCliInstalled : M bool :=
  r <- call AwsVersion ;;
  ret (match r with Success => true | _ => false end).

Definition checkPsqlInstalled : M bool :=
  r <- call PsqlVersion ;;
  ret (match r with Success => true | _ => false end).

Definition createNamespace (name : string) : M unit :=
  r <- call (KubectlCreateNamespace name) ;;
  match r with
  | Success | AlreadyExists => ret tt
  | _ => throw "kubectl command failed: create namespace"
  end.

Definition deleteNamespace (name : string) : M unit :=
  call_ignore (KubectlDeleteNamespace name).

Definition getSecretValue : M unit :=
  call_or_throw AwsGetSecretValue "AWS CLI command failed: secretsmanager get-secret-value".

Definition createSecretFromAWS : M unit :=
  try_catch
    (r <- call KubectlGetSecret ;;
     match r with
     | Success => ret tt
     | _ =>
         getSecretValue ;;
         call_or_throw KubectlCreateSecret "create secret"
     end)
    (fun _ => throw "kubectl command failed: create secret").

Definition configureKubeconfig : M unit :=
  call_or_throw AwsUpdateKubeconfig "kubectl command failed: aws eks update-kubeconfig".

Definition getNodeStatus : M unit :=
  call_or_throw KubectlGetNodes "kubectl command failed: get nodes".

(** The two polling loops of cluster readiness are single oracle calls
    here; the loops themselves are embedded in [Module Polling] below. *)
Definition aws_waitForEksClusterActive : M unit :=
  call_or_throw AwsWaitEksActive "Timeout waiting for EKS cluster to become ACTIVE".

Definition k8s_waitForClusterReady : M unit :=
  call_or_throw KubectlWaitNodesReady "Timeout waiting for cluster nodes to be ready".

Definition checkS3BucketExists : M bool :=
  r <- call AwsHeadBucket ;;
  ret (match r with Success => true | _ => false end).

Definition checkAuroraClusterStatus : M bool :=
  r <- call AwsDescribeDbClusters ;;
  ret (match r with Success => true | _ => false end).

Definition createDatabaseIfNotExists (dbName : string) : M unit :=
  r <- call (PsqlCheckDatabase dbName) ;;
  match r with
  | Success => ret tt
  | _ => call_or_throw (PsqlCreateDatabase dbName) "Database operation failed: CREATE DATABASE"
  end.

(** [kubectl get svc ... -o jsonpath=...hostname]: a URL, or [null]. *)
Definition getServiceUrl (name : string) : M bool :=
  r <- call (KubectlGetService name) ;;
  ret (match r with Success => true | _ => false end).

Definition getAccountId : M unit :=
  call_or_throw AwsGetAccountId "Failed to get AWS account ID".

Definition waitForPods (c : ComponentName) (e : string) : M unit :=
  call_or_throw (KubectlWaitPods c) e.

(** The record a deploy function returns. *)
Definition deployed_record (ok : bool) (ns release : string) (t : option Z) : ComponentState :=
  mkComponentState ok None (Some ns) (Some release) t.

Definition require_foundation_outputs (e : string) : M unit :=
  s <- get_state ;;
  if is_some (foundation_outputs s) then ret tt else throw e.

Definition require_foundation_and_eks_outputs : M unit :=
  s <- get_state ;;
  if is_some (foundation_outputs s) && is_some (eks_outputs s) then ret tt
  else throw "Foundation and EKS outputs not available".

(** ** [components/keycloak.ts] *)

Definition createKeycloakDatabase : M unit :=
  require_foundation_outputs "Foundation outputs not available" ;;
  getSecretValue ;;
  createDatabaseIfNotExists "keycloak".

Definition deployRealmConfigMap : M unit :=
  try_catch
    (createNamespace "keycloak" ;;
     call_ignore (KubectlDeleteConfigMap "keycloak-realm") ;;
     call_or_throw (KubectlCreateConfigMap "keycloak-realm") "create configmap")
    (fun _ => throw "kubectl command failed: create configmap").

Definition generateKeycloakValues : M unit :=
  require_foundation_outputs "Foundation outputs not available" ;;
  getSecretValue ;;
  call_or_throw (WriteValuesFile Keycloak) "keycloak-values.yaml".

Definition deployKeycloak (force : bool) : M ComponentState :=
  exists_ <- releaseExists "keycloak" ;;
  if exists_ && negb force then
    ret (deployed_record true "keycloak" "keycloak" None)
  else
    createKeycloakDatabase ;;
    deployRealmConfigMap ;;
    addHelmRepo "bitnami" ;;
    updateHelmRepos ;;
    generateKeycloakValues ;;
    installChart "keycloak" ;;
    waitForPods Keycloak "Timeout waiting for Keycloak to be ready" ;;
    _ <- getServiceUrl "keycloak" ;;
    t <- date_now ;;
    ret (deployed_record true "keycloak" "keycloak" (Some t)).

Definition undeployKeycloak : M unit := uninstallChart "keycloak".

(** ** [components/polaris.ts] *)

Definition createPolarisDatabase : M unit :=
  require_foundation_outputs "Foundation outputs not available" ;;
  getSecretValue ;;
  createDatabaseIfNotExists "polaris".

Definition generatePolarisValues : M unit :=
  require_foundation_and_eks_outputs ;;
  getSecretValue ;;
  url <- getServiceUrl "keycloak" ;;
  if negb url then throw "Keycloak URL not available. Deploy Keycloak first."
  else
    getAccountId ;;
    call_or_throw (WriteValuesFile Polaris) "polaris-values.yaml".

Definition deployPolaris (force : bool) : M ComponentState :=
  s <- get_state ;;
  if negb (component_deployed s Keycloak) then
    throw "Keycloak must be deployed before Polaris"
  else
    exists_ <- releaseExists "polaris" ;;
    if exists_ && negb force then
      ret (deployed_record true "polaris" "polaris" None)
    else
      createPolarisDatabase ;;
      createNamespace "polaris" ;;
      generatePolarisValues ;;
      installed <- try_catch
                     (addHelmRepo "polaris" ;;
                      updateHelmRepos ;;
                      installChart "polaris" ;;
                      ret true)
                     (fun _ =>
                        log "Polaris Helm chart not found. Skipping Polaris deployment." ;;
                        ret false) ;;
      if negb installed then
        ret (deployed_record false "polaris" "polaris" None)
      else
        waitForPods Polaris "Timeout waiting for Polaris to be ready" ;;
        _ <- getServiceUrl "polaris" ;;
        t <- date_now ;;
        ret (deployed_record true "polaris" "polaris" (Some t)).

Definition undeployPolaris : M unit := uninstallChart "polaris".

(** ** [components/trino.ts] *)

Definition generateTrinoValues : M unit :=
  require_foundation_and_eks_outputs ;;
  url <- getServiceUrl "polaris" ;;
  if negb url then throw "Polaris URL not available. Deploy Polaris first."
  else
    getAccountId ;;
    call_or_throw (WriteValuesFile Trino) "trino-values.yaml".

Definition deployTrino (force : bool) : M ComponentState :=
  s <- get_state ;;
  if negb (component_deployed s Polaris) then
    throw "Polaris must be deployed before Trino"
  else
    exists_ <- releaseExists "trino" ;;
    if exists_ && negb force then
      ret (deployed_record true "trino" "trino" None)
    else
      createNamespace "trino" ;;
      addHelmRepo "trino" ;;
      updateHelmRepos ;;
      generateTrinoValues ;;
      installChart "trino" ;;
      waitForPods Trino "Timeout waiting for Trino to be ready" ;;
      _ <- getServiceUrl "trino" ;;
      t <- date_now ;;
      ret (deployed_record true "trino" "trino" (Some t)).

Definition undeployTrino : M unit := uninstallChart "trino".

(** ** [components/spark.ts] *)

Definition generateSparkValues : M unit :=
  getAccountId ;;
  call_or_throw (WriteValuesFile Spark) "spark-values.yaml".

Definition createExampleManifest : M unit :=
  require_foundation_outputs "Foundation outputs not available" ;;
  _ <- getServiceUrl "polaris" ;;
  call_or_throw WriteExampleManifest "spark-iceberg-example.yaml".

Definition deploySpark (force : bool) : M ComponentState :=
  s <- get_state ;;
  (if negb (component_deployed s Polaris)
   then log "Warning: Polaris is not deployed."
   else ret tt) ;;
  exists_ <- releaseExists "spark-operator" ;;
  if exists_ && negb force then
    ret (deployed_record true "spark" "spark-operator" None)
  else
    createNamespace "spark" ;;
    addHelmRepo "spark-operator" ;;
    updateHelmRepos ;;
    generateSparkValues ;;
    installChart "spark-operator" ;;
    waitForPods Spark "Timeout waiting for Spark Operator to be ready" ;;
    createExampleManifest ;;
    t <- date_now ;;
    ret (deployed_record true "spark" "spark-operator" (Some t)).

Definition undeploySpark : M unit :=
  call_ignore KubectlDeleteSparkApplications ;;
  uninstallChart "spark-operator".

(** ** [components/opa.ts] *)

Definition createPolicyConfigMaps : M unit :=
  call_ignore (KubectlDeleteConfigMap "opa-policies") ;;
  call_or_throw (KubectlCreateConfigMap "opa-policies") "Failed to create policy ConfigMap".

Definition generateOpaValues : M unit :=
  call_or_throw (WriteValuesFile Opa) "opa-values.yaml".

Definition deployOpa (force : bool) : M ComponentState :=
  s <- get_state ;;
  (if negb (component_deployed s Keycloak)
   then log "Warning: Keycloak is not deployed."
   else ret tt) ;;
  exists_ <- releaseExists "opa" ;;
  if exists_ && negb force then
    ret (deployed_record true "opa" "opa" None)
  else
    createNamespace "opa" ;;
    createPolicyConfigMaps ;;
    generateOpaValues ;;
    addHelmRepo "opa" ;;
    updateHelmRepos ;;
    installChart "opa" ;;
    waitForPods Opa "Timeout waiting for OPA to be ready" ;;
    call_ignore KubectlPortForwardTest ;;
    t <- date_now ;;
    ret (deployed_record true "opa" "opa" (Some t)).

Definition undeployOpa : M unit :=
  call_ignore (KubectlDeleteConfigMap "opa-policies") ;;
  uninstallChart "opa".

(** ** [terraform.ts]

    The module is not among the sources at hand; each of its functions is an
    external command that either succeeds or throws a [TerraformError].
    [terraform output] yields the typed outputs of the oracle, or nothing
    when an expected key is absent (the [update*State] function then fails
    on [outputs.key.value]). *)

Definition terraform (c : Call) : M unit := call_or_throw c "Terraform error".

Definition read_clock : M Z := fun w => (Ok (clock w), w).

Definition terraform_output {A} (d : TfDir) (data : Env -> Z -> option A) : M A :=
  t <- read_clock ;;
  terraform (TfOutput d) ;;
  match data env t with
  | Some o => ret o
  | None => throw "TypeError: Cannot read properties of undefined (reading 'value')"
  end.

(** ** [commands/bootstrap.ts] *)

Record BootstrapOptions := mkBootstrapOptions {
  bootstrap_dryRun : bool;
  bootstrap_skipFoundation : bool;
  bootstrap_force : bool
}.

Definition bootstrapStateBackend (dryRun : bool) : M unit :=
  log "Step 1: Creating Terraform State Backend" ;;
  terraform (TfInit BootstrapDir) ;;
  if dryRun then
    terraform (TfPlan BootstrapDir) ;;
    log "Dry run - skipping apply"
  else
    terraform (TfApply BootstrapDir) ;;
    outputs <- terraform_output BootstrapDir bootstrap_tf_outputs ;;
    updateBootstrapState outputs.

Definition deployFoundation (dryRun : bool) : M unit :=
  s <- get_state ;;
  if negb (is_some (bootstrap_outputs s)) then
    throw "Bootstrap not complete. Run bootstrap first."
  else
    log "Step 2: Deploying Foundation Infrastructure" ;;
    terraform (TfWriteBackendConfig FoundationDir) ;;
    terraform (TfInit FoundationDir) ;;
    if dryRun then
      terraform (TfPlan FoundationDir) ;;
      log "Dry run - skipping apply"
    else
      terraform (TfApply FoundationDir) ;;
      outputs <- terraform_output FoundationDir foundation_tf_outputs ;;
      updateFoundationState outputs.

(** The part of [bootstrap] after the "already bootstrapped" test. *)
Definition bootstrap_rest (o : BootstrapOptions) : M unit :=
  (if negb (bootstrap_skipFoundation o) then
     s <- get_state ;;
     if foundation_deployed s && negb (bootstrap_force o) then
       log "Foundation already deployed."
     else
       deployFoundation (bootstrap_dryRun o)
   else ret tt) ;;
  (if negb (bootstrap_dryRun o) then saveState else ret tt) ;;
  log "Bootstrap complete!".

Definition bootstrap (o : BootstrapOptions) : M unit :=
  s <- get_state ;;
  if bootstrapped s && negb (bootstrap_force o) then
    log "State backend already exists." ;;
    if negb (foundation_deployed s) && negb (bootstrap_skipFoundation o) then
      log "Continuing with foundation deployment..." ;;
      bootstrap_rest o
    else if foundation_deployed s then
      log "Foundation already deployed. Use --force to re-run."
    else
      bootstrap_rest o
  else
    bootstrapStateBackend (bootstrap_dryRun o) ;;
    bootstrap_rest o.

(** ** [commands/up.ts] *)

Record UpOptions := mkUpOptions {
  up_dryRun : bool;
  up_all : bool;
  up_force : bool;
  up_skipEssentials : bool;
  up_skipComponents : bool
}.

(** The line feed that separates the two lines of an error message. *)
Definition line_feed : string := String (ascii_of_nat 10) EmptyString.

Definition kubectl_missing : string :=
  "kubectl is not installed." ++ line_feed ++
  "Install kubectl: https://kubernetes.io/docs/tasks/tools/".

Definition aws_cli_missing : string :=
  "AWS CLI is not installed." ++ line_feed ++
  "Install AWS CLI: https://aws.amazon.com/cli/".

Definition helm_missing : string :=
  "Helm is not installed." ++ line_feed ++
  "Install Helm: https://helm.sh/docs/intro/install/".

Definition preFlightChecks (skipComponents : bool) : M unit :=
  log "Pre-flight Checks" ;;
  s <- get_state ;;
  if negb (foundation_deployed s) || negb (is_some (bootstrap_outputs s)) then
    throw "Foundation not deployed. Run 'lab bootstrap' first."
  else
    hasKubectl <- checkKubectlInstalled ;;
    if negb hasKubectl then throw kubectl_missing
    else
      hasAwsCli <- checkAwsCliInstalled ;;
      if negb hasAwsCli then throw aws_cli_missing
      else if negb skipComponents then
        hasHelm <- checkHelmInstalled ;;
        if negb hasHelm then throw helm_missing
        else
          hasPsql <- checkPsqlInstalled ;;
          if negb hasPsql then log "psql (PostgreSQL client) is not installed."
          else log "psql installed"
      else ret tt.

Definition deployEks (dryRun : bool) : M unit :=
  log "Step 1: Provisioning EKS Cluster" ;;
  terraform (TfWriteBackendConfig EphemeralDir) ;;
  terraform (TfInit EphemeralDir) ;;
  if dryRun then
    terraform (TfPlan EphemeralDir) ;;
    log "Dry run - skipping apply"
  else
    terraform (TfApply EphemeralDir) ;;
    outputs <- terraform_output EphemeralDir eks_tf_outputs ;;
    updateEksState outputs.

Definition waitForClusterReady : M unit :=
  s <- get_state ;;
  if negb (is_some (eks_outputs s)) then throw "EKS outputs not available"
  else
    log "Step 2: Waiting for Cluster Readiness" ;;
    aws_waitForEksClusterActive ;;
    configureKubeconfig ;;
    k8s_waitForClusterReady ;;
    log "Cluster ready".

Definition deployEssentials : M unit :=
  s <- get_state ;;
  if negb (is_some (foundation_outputs s)) then throw "Foundation outputs not available"
  else
    log "Step 3: Deploying Essentials" ;;
    createNamespace "spark" ;;
    createNamespace "trino" ;;
    createNamespace "polaris" ;;
    createNamespace "keycloak" ;;
    createSecretFromAWS ;;
    log "Essentials deployed".

(** Strings are the UTF-8 encodings of JavaScript's strings. *)
Definition code (a : ascii) : N := N_of_ascii a.

Definition lower_ascii (a : ascii) : ascii :=
  let n := nat_of_ascii a in
  if (65 <=? n)%nat && (n <=? 90)%nat then ascii_of_nat (n + 32) else a.

(** The bytes of U+212A, the Kelvin sign. *)
Definition is_kelvin (a b c : ascii) : bool :=
  ((code a =? 226) && (code b =? 132) && (code c =? 170))%N.

(** [String.prototype.toLowerCase]: the ASCII capitals, and the Kelvin
    sign, which is the only other code point whose lower case is an ASCII
    letter.  The other letters are left as they are: the program only
    compares the result with ASCII literals, and neither those letters nor
    their lower case are ASCII. *)
Fixpoint toLowerCase (s : string) : string :=
  match s with
  | EmptyString => EmptyString
  | String a s1 =>
      match s1 with
      | String b (String c s3) =>
          if is_kelvin a b c then String "k" (toLowerCase s3)
          else String (lower_ascii a) (toLowerCase s1)
      | _ => String (lower_ascii a) (toLowerCase s1)
      end
  end.

(** [Array.prototype.includes] on strings. *)
Fixpoint includes (l : list string) (x : string) : bool :=
  match l with
  | [] => false
  | y :: l' => if String.eqb y x then true else includes l' x
  end.

Definition availableComponents : list string :=
  ["keycloak"; "polaris"; "trino"; "spark"; "opa"].

(** The [componentsToDeploy] array of [deployComponents]. *)
Definition componentsToDeploy (componentArgs : list string) (all : bool) : list string :=
  if all then availableComponents
  else if (0 <? length componentArgs)%nat then
    filter (fun c => includes availableComponents (toLowerCase c)) componentArgs
  else ["keycloak"; "polaris"].

(** One numbered stage of [deployComponents]: deploy, record the result;
    [fatal] tells whether the [catch] block rethrows. *)
Definition deploy_stage (name : string) (c : ComponentName)
    (deploy : bool -> M ComponentState) (force fatal : bool) : M unit :=
  try_catch
    (componentState <- deploy force ;;
     updateComponentState c componentState)
    (fun e =>
       log ("Failed to deploy " ++ name ++ ": " ++ e) ;;
       if fatal then throw e
       else log ("Continuing without " ++ name ++ "...")).

Definition deployComponents (componentArgs : list string) (all force : bool) : M unit :=
  let toDeploy := componentsToDeploy componentArgs all in
  (if negb all && (0 <? length componentArgs)%nat
      && (0 <? length (filter (fun c => negb (includes availableComponents (toLowerCase c)))
                         componentArgs))%nat
   then log "Warning: Unknown components will be skipped"
   else ret tt) ;;
  if (length toDeploy =? 0)%nat then log "No components to deploy."
  else
    log "Step 5: Deploying Components" ;;
    (if includes toDeploy "keycloak"
     then deploy_stage "Keycloak" Keycloak deployKeycloak force true else ret tt) ;;
    (if includes toDeploy "polaris"
     then deploy_stage "Polaris" Polaris deployPolaris force false else ret tt) ;;
    (if includes toDeploy "trino"
     then deploy_stage "Trino" Trino deployTrino force false else ret tt) ;;
    (if includes toDeploy "spark"
     then deploy_stage "Spark" Spark deploySpark force false else ret tt) ;;
    (if includes toDeploy "opa"
     then deploy_stage "OPA" Opa deployOpa force false else ret tt) ;;
    log "Component deployment complete".

(** Steps 3 to 5 of [up], the final save and the summary. *)
Definition up_after_provisioning (needsProvisioning : bool)
    (components_ : list string) (o : UpOptions) : M unit :=
  s <- get_state ;;
  (if needsProvisioning || negb (truthy (cluster_ready s)) then
     waitForClusterReady ;;
     updateClusterReadyState (Some (config_lab_name config ++ "-context")) false
   else log "Cluster already configured and ready.") ;;
  s <- get_state ;;
  (if negb (up_skipEssentials o)
      && (negb (truthy (essentials_deployed s)) || up_force o) then
     deployEssentials ;;
     s' <- get_state ;;
     updateClusterReadyState (cluster_context s') true
   else if up_skipEssentials o then log "Skipping essentials deployment."
   else log "Essentials already deployed.") ;;
  (if negb (up_skipComponents o) && negb (up_dryRun o) then
     deployComponents components_ (up_all o) (up_force o)
   else if up_skipComponents o then log "Skipping component deployment."
   else ret tt) ;;
  saveState ;;
  log "Lab UP Complete" ;;
  s <- get_state ;;
  if is_some (eks_outputs s) then getNodeStatus else ret tt.

(** The [try] block of [up]. *)
Definition up_body (components_ : list string) (o : UpOptions) : M unit :=
  preFlightChecks (up_skipComponents o) ;;
  s <- get_state ;;
  let needsProvisioning := negb (eks_deployed s) || up_force o in
  if needsProvisioning then
    deployEks (up_dryRun o) ;;
    if up_dryRun o then ret tt
    else up_after_provisioning needsProvisioning components_ o
  else
    log "EKS Cluster already deployed." ;;
    up_after_provisioning needsProvisioning components_ o.

(** [up]; the result is the exit code of the process: [process.exit(1)] in
    the [catch] block, [0] when the function returns. *)
Definition up (components_ : list string) (o : UpOptions) : M Z :=
  try_catch
    (up_body components_ o ;; ret 0)
    (fun e => log ("Error during 'lab up': " ++ e) ;; ret 1).

(** ** [utils/prompts.ts] *)

(** The one-byte white space: U+0020 and U+0009 to U+000D. *)
Definition is_space (a : ascii) : bool :=
  ((code a =? 32) || ((9 <=? code a) && (code a <=? 13)))%N.

(** The white space of three bytes: U+1680, U+2000 to U+200A, U+2028,
    U+2029, U+202F, U+205F, U+3000 and U+FEFF. *)
Definition is_space3 (a b c : ascii) : bool :=
  ((code a =? 225) && (code b =? 154) && (code c =? 128)
   || (code a =? 226) && (code b =? 128)
      && ((128 <=? code c) && (code c <=? 138)
          || (code c =? 168) || (code c =? 169) || (code c =? 175))
   || (code a =? 226) && (code b =? 129) && (code c =? 159)
   || (code a =? 227) && (code b =? 128) && (code c =? 128)
   || (code a =? 239) && (code b =? 187) && (code c =? 191))%N.

(** The white space of two bytes: U+00A0. *)
Definition is_space2 (a b : ascii) : bool :=
  ((code a =? 194) && (code b =? 160))%N.

(** What follows the white space code point at the start of [s], if there
    is one. *)
Definition skip_white_space (s : string) : option string :=
  match s with
  | String a s1 =>
      if is_space a then Some s1
      else match s1 with
           | String b s2 =>
               if is_space2 a b then Some s2
               else match s2 with
                    | String c s3 => if is_space3 a b c then Some s3 else None
                    | EmptyString => None
                    end
           | EmptyString => None
           end
  | EmptyString => None
  end.

(** The same on the reversed string: what precedes the white space code
    point at the end.  A lead byte of UTF-8 always starts a code point, so
    the bytes found are the code point. *)
Definition skip_white_space_rev (s : string) : option string :=
  match s with
  | String c s1 =>
      if is_space c then Some s1
      else match s1 with
           | String b s2 =>
               if is_space2 b c then Some s2
               else match s2 with
                    | String a s3 => if is_space3 a b c then Some s3 else None
                    | EmptyString => None
                    end
           | EmptyString => None
           end
  | EmptyString => None
  end.

(** Skip as long as there is white space; every step takes a byte at
    least, so the length of the string is fuel enough. *)
Fixpoint skip_all (skip : string -> option string) (fuel : nat) (s : string) : string :=
  match fuel with
  | O => s
  | S fuel' =>
      match skip s with
      | Some rest => skip_all skip fuel' rest
      | None => s
      end
  end.

Definition reverse (s : string) : string :=
  string_of_list_ascii (rev (list_ascii_of_string s)).

Definition trim_start (s : string) : string :=
  skip_all skip_white_space (String.length s) s.

Definition trim_end (s : string) : string :=
  reverse (skip_all skip_white_space_rev (String.length s) (reverse s)).

(** [String.prototype.trim]: the WhiteSpace and LineTerminator code points
    are removed from both ends. *)
Definition trim (s : string) : string := trim_end (trim_start s).

Definition read_answer (c : Call) : M string :=
  t <- read_clock ;;
  _ <- call c ;;
  ret (typed env t).

Definition confirm (defaultValue : bool) : M bool :=
  answer <- read_answer PromptConfirm ;;
  let normalized := toLowerCase (trim answer) in
  if String.eqb normalized "" then ret defaultValue
  else if String.eqb normalized "y" || String.eqb normalized "yes" then ret true
  else ret false.

Definition confirmDestructive (confirmationValue : string) : M bool :=
  answer <- read_answer PromptConfirmDestructive ;;
  ret (String.eqb (trim answer) confirmationValue).

(** ** [commands/down.ts] *)

Record DownOptions := mkDownOptions {
  down_force : bool;
  down_destroyFoundation : bool
}.

(** A branch of the concurrent batch: an [async] function whose body is a
    [try] block made of steps separated by [await], and the [catch]
    handler that ends the branch when a step throws. *)
Record Branch := mkBranch {
  steps : list (M unit);
  handler : string -> M unit
}.

(** Run the next step of a branch; [None] when the branch has finished. *)
Definition step_branch (b : Branch) : M (option Branch) :=
  match steps b with
  | [] => ret None
  | m :: rest =>
      fun w => match m w with
               | (Ok _, w') =>
                   (Ok (match rest with
                        | [] => None
                        | _ => Some (mkBranch rest (handler b))
                        end), w')
               | (Throw e, w') =>
                   match handler b e w' with
                   | (Ok _, w'') => (Ok None, w'')
                   | (Throw e', w'') => (Throw e', w'')
                   end
               end
  end.

Fixpoint run_branch_steps (l : list (M unit)) (h : string -> M unit) : M unit :=
  match l with
  | [] => ret tt
  | m :: rest =>
      fun w => match m w with
               | (Ok _, w') => run_branch_steps rest h w'
               | (Throw e, w') => h e w'
               end
  end.

Fixpoint run_sequential (bs : list Branch) : M unit :=
  match bs with
  | [] => ret tt
  | b :: bs' => run_branch_steps (steps b) (handler b) ;; run_sequential bs'
  end.

(** Replace the [i]-th pending branch by what is left of it after one
    step ([i] counted modulo the number of pending branches). *)
Fixpoint advance (i : nat) (bs : list Branch) {struct bs} : M (list Branch) :=
  match bs with
  | [] => ret []
  | b :: bs' =>
      match i with
      | O => r <- step_branch b ;;
             ret (match r with Some b' => b' :: bs' | None => bs' end)
      | S i' => rest <- advance i' bs' ;; ret (b :: rest)
      end
  end.

(** [await Promise.all(branches)]: the branches advance one step at a time
    in the order the scheduler [sched] picks; when the schedule is used up
    the branches still pending run to completion. *)
Fixpoint promise_all (sched : list nat) (bs : list Branch) : M unit :=
  match sched with
  | [] => run_sequential bs
  | i :: sched' =>
      match bs with
      | [] => ret tt
      | _ => bs' <- advance (i mod length bs) bs ;; promise_all sched' bs'
      end
  end.

Definition undeploy_warning (name : string) (e : string) : M unit :=
  log ("Warning: Failed to undeploy " ++ name ++ ": " ++ e).

Definition opa_branch : Branch :=
  mkBranch [call_ignore (KubectlDeleteConfigMap "opa-policies");
            (uninstallChart "opa" ;; clearComponentState Opa)]
           (undeploy_warning "OPA").

Definition spark_branch : Branch :=
  mkBranch [call_ignore KubectlDeleteSparkApplications;
            (uninstallChart "spark-operator" ;; clearComponentState Spark)]
           (undeploy_warning "Spark").

Definition trino_branch : Branch :=
  mkBranch [(uninstallChart "trino" ;; clearComponentState Trino)]
           (undeploy_warning "Trino").

(** The [undeployPromises] array. *)
Definition undeployPromises (s : LabState) : list Branch :=
  (if component_deployed s Opa then [opa_branch] else []) ++
  (if component_deployed s Spark then [spark_branch] else []) ++
  (if component_deployed s Trino then [trino_branch] else []).

Definition undeployComponents (sched : list nat) : M unit :=
  log "Step 1: Undeploying Components" ;;
  s <- get_state ;;
  promise_all sched (undeployPromises s) ;;
  s <- get_state ;;
  (if component_deployed s Polaris then
     try_catch (undeployPolaris ;; clearComponentState Polaris)
               (undeploy_warning "Polaris")
   else ret tt) ;;
  s <- get_state ;;
  (if component_deployed s Keycloak then
     try_catch (undeployKeycloak ;; clearComponentState Keycloak)
               (undeploy_warning "Keycloak")
   else ret tt) ;;
  log "Components undeployed".

Definition gracefulShutdown : M unit :=
  deleteNamespace "spark" ;;
  deleteNamespace "trino" ;;
  call_ignore (Sleep 30000) ;;
  log "Workloads shutdown complete".

Definition destroyEks : M unit :=
  s <- get_state ;;
  (if is_some (bootstrap_outputs s)
   then terraform (TfWriteBackendConfig EphemeralDir) else ret tt) ;;
  terraform (TfInit EphemeralDir) ;;
  terraform (TfDestroy EphemeralDir) ;;
  log "EKS cluster destroyed".

Definition verifyFoundationIntact : M unit :=
  log "Step 3: Verifying Foundation" ;;
  s <- get_state ;;
  if negb (is_some (foundation_outputs s)) then
    log "No foundation deployed, skipping verification"
  else
    s3Exists <- checkS3BucketExists ;;
    (if s3Exists then log "S3 bucket intact" else log "S3 bucket not found") ;;
    auroraStatus <- checkAuroraClusterStatus ;;
    (if auroraStatus then log "Aurora cluster intact" else log "Aurora cluster not found").

Definition destroyAll : M unit :=
  log "DANGER: Destroying ALL infrastructure including foundation" ;;
  s <- get_state ;;
  (if eks_deployed s then destroyEks else ret tt) ;;
  s <- get_state ;;
  (if foundation_deployed s then
     (if is_some (bootstrap_outputs s)
      then terraform (TfWriteBackendConfig FoundationDir) else ret tt) ;;
     terraform (TfInit FoundationDir) ;;
     terraform (TfDestroy FoundationDir) ;;
     log "Foundation destroyed"
   else ret tt) ;;
  s <- get_state ;;
  (if bootstrapped s then
     terraform (TfInit BootstrapDir) ;;
     terraform (TfDestroy BootstrapDir) ;;
     log "Bootstrap destroyed"
   else ret tt) ;;
  modify_state (fun s => set_foundation false None (set_bootstrap false None s)) ;;
  clearEphemeralState ;;
  saveState.

(** Steps 4 to 8 of [down]. *)
Definition down_teardown (sched : list nat) : M unit :=
  hasKubectl <- checkKubectlInstalled ;;
  s <- get_state ;;
  (if hasKubectl && truthy (cluster_ready s) then
     try_catch
       (undeployComponents sched ;; gracefulShutdown)
       (fun e => log ("Warning: Could not gracefully shutdown workloads: " ++ e))
   else log "Cluster not accessible via kubectl, skipping graceful shutdown") ;;
  log "Step 2: Destroying EKS Cluster" ;;
  destroyEks ;;
  verifyFoundationIntact ;;
  clearEphemeralState ;;
  saveState ;;
  log "Teardown Complete".

(** The [try] block of [down]. *)
Definition down_body (sched : list nat) (o : DownOptions) : M unit :=
  s <- get_state ;;
  if negb (eks_deployed s) then
    log "No EKS cluster deployed. Nothing to tear down."
  else if down_destroyFoundation o then
    log "WARNING: You are about to destroy ALL infrastructure" ;;
    confirmed <- confirmDestructive (config_lab_name config) ;;
    if negb confirmed then log "Aborted by user."
    else
      destroyAll ;;
      log "Complete Teardown Successful"
  else if negb (down_force o) then
    log "Teardown Plan" ;;
    confirmed <- confirm false ;;
    if negb confirmed then log "Aborted by user."
    else down_teardown sched
  else down_teardown sched.

(** [down]; the result is the exit code of the process. *)
Definition down (sched : list nat) (o : DownOptions) : M Z :=
  try_catch
    (down_body sched o ;; ret 0)
    (fun e => log ("Error during 'lab down': " ++ e) ;; ret 1).

(** ** [cli.ts] *)

(** [loadState]: the parsed state file, or a fresh record. *)
Definition loadState (d : option LabState) (t : Z) : LabState * Z :=
  match d with
  | Some s => (s, t)
  | None => (initial_state (config_lab_name config) t (t + 1), t + 2)
  end.

(** What persists between two invocations of the CLI: the state file, the
    helm releases in the cluster and the time. *)
Record Persistent := mkPersistent {
  p_disk : option LabState;
  p_releases : list string;
  p_clock : Z
}.

Definition start (p : Persistent) : World :=
  let '(s, t) := loadState (p_disk p) (p_clock p) in
  mkWorld s (p_disk p) (p_releases p) t [].

Definition persist (w : World) : Persistent :=
  mkPersistent (disk w) (releases w) (clock w).

Inductive Command :=
  | CmdBootstrap (o : BootstrapOptions)
  | CmdUp (components_ : list string) (o : UpOptions)
  | CmdDown (sched : list nat) (o : DownOptions).

(** A command as [cli.ts] runs it: load the state, run the action, exit
    with code [1] on any error that reaches the top. *)
Definition run_command (c : Command) : M Z :=
  match c with
  | CmdBootstrap o =>
      try_catch (bootstrap o ;; ret 0) (fun e => log e ;; ret 1)
  | CmdUp cs o =>
      try_catch (up cs o) (fun e => log e ;; ret 1)
  | CmdDown sched o =>
      try_catch (down sched o) (fun e => log e ;; ret 1)
  end.

Definition lab (c : Command) (p : Persistent) : Res Z * World :=
  run_command c (start p).

End Orchestrator.

(** * Reasoning about commands *)

(** ** Hoare triples for the monad

    [hoare P m Q E]: from a world satisfying [P], [m] ends in a world
    satisfying [Q a] when it returns [a] and [E e] when it throws [e]. *)

Definition hoare {A} (P : World -> Prop) (m : M A)
    (Q : A -> World -> Prop) (E : string -> World -> Prop) : Prop :=
  forall w, P w ->
    match m w with
    | (Ok a, w') => Q a w'
    | (Throw e, w') => E e w'
    end.

Lemma hoare_ret {A} (P : World -> Prop) (a : A) (Q : A -> World -> Prop) E :
  (forall w, P w -> Q a w) -> hoare P (ret a) Q E.
Proof. intros H w Hw. simpl. auto. Qed.

Lemma hoare_throw {A} (P : World -> Prop) e (Q : A -> World -> Prop) E :
  (forall w, P w -> E e w) -> hoare P (throw e) Q E.
Proof. intros H w Hw. simpl. auto. Qed.

Lemma hoare_bind {A B} P (m : M A) (f : A -> M B) Q' Q E :
  hoare P m Q' E ->
  (forall a, hoare (Q' a) (f a) Q E) ->
  hoare P (bind m f) Q E.
Proof.
  intros Hm Hf w Hw. unfold bind. specialize (Hm w Hw).
  destruct (m w) as [[a|e] w']; auto. apply Hf; auto.
Qed.

Lemma hoare_try_catch {A} P (m : M A) h Q E' E :
  hoare P m Q E' ->
  (forall e, hoare (E' e) (h e) Q E) ->
  hoare P (try_catch m h) Q E.
Proof.
  intros Hm Hh w Hw. unfold try_catch. specialize (Hm w Hw).
  destruct (m w) as [[a|e] w']; auto. apply Hh; auto.
Qed.

Lemma hoare_conseq {A} (P P' : World -> Prop) (m : M A) (Q Q' : A -> World -> Prop)
    (E E' : string -> World -> Prop) :
  hoare P' m Q' E' ->
  (forall w, P w -> P' w) ->
  (forall a w, Q' a w -> Q a w) ->
  (forall e w, E' e w -> E e w) ->
  hoare P m Q E.
Proof.
  intros H HP HQ HE w Hw. specialize (H w (HP w Hw)).
  destruct (m w) as [[a|e] w']; auto.
Qed.

Lemma hoare_get_state P (Q : LabState -> World -> Prop) E :
  (forall w, P w -> Q (mem w) w) -> hoare P get_state Q E.
Proof. intros H w Hw. simpl. auto. Qed.

Lemma hoare_read_clock P (Q : Z -> World -> Prop) E :
  (forall w, P w -> Q (clock w) w) -> hoare P read_clock Q E.
Proof. intros H w Hw. simpl. auto. Qed.

(** [stable I m]: [m] keeps [I], whether it returns or throws. *)
Definition stable {A} (I : World -> Prop) (m : M A) : Prop :=
  hoare I m (fun _ => I) (fun _ => I).

Lemma stable_ret {A} I (a : A) : stable I (ret a).
Proof. apply hoare_ret; auto. Qed.

Lemma stable_throw {A} I e : stable I (@throw A e).
Proof. apply hoare_throw; auto. Qed.

Lemma stable_bind {A B} I (m : M A) (f : A -> M B) :
  stable I m -> (forall a, stable I (f a)) -> stable I (bind m f).
Proof. intros; eapply hoare_bind; eauto. Qed.

Lemma stable_try_catch {A} I (m : M A) h :
  stable I m -> (forall e, stable I (h e)) -> stable I (try_catch m h).
Proof. intros; eapply hoare_try_catch; eauto. Qed.

Lemma stable_get_state I : stable I get_state.
Proof. apply hoare_get_state; auto. Qed.

Lemma stable_read_clock I : stable I read_clock.
Proof. apply hoare_read_clock; auto. Qed.

Lemma stable_snd {A} I (m : M A) w : stable I m -> I w -> I (snd (m w)).
Proof. intros H Hw. specialize (H w Hw). destruct (m w) as [[a|e] w']; auto. Qed.

(** Stability through the concurrent batch. *)
Definition branch_stable (I : World -> Prop) (b : Branch) : Prop :=
  Forall (stable I) (steps b) /\ forall e, stable I (handler b e).

Lemma stable_step_branch I b : branch_stable I b -> stable I (step_branch b).
Proof.
  intros [Hs Hh]. unfold step_branch. destruct (steps b) as [|m rest].
  - apply stable_ret.
  - inversion Hs as [|? ? Hm Hrest]; subst. intros w Hw.
    specialize (Hm w Hw). destruct (m w) as [[a|e] w']; auto.
    specialize (Hh e w' Hm). destruct (handler b e w') as [[a|e'] w'']; auto.
Qed.

Lemma step_branch_stable I b :
  branch_stable I b ->
  hoare I (step_branch b)
    (fun r w => I w /\ match r with Some b' => branch_stable I b' | None => True end)
    (fun _ => I).
Proof.
  intros [Hs Hh]. unfold step_branch. destruct (steps b) as [|m rest].
  - apply hoare_ret; auto.
  - inversion Hs as [|? ? Hm Hrest]; subst. intros w Hw.
    specialize (Hm w Hw). destruct (m w) as [[a|e] w'].
    + split; auto. destruct rest; auto. split; auto.
    + specialize (Hh e w' Hm). destruct (handler b e w') as [[a|e'] w'']; auto.
Qed.

Lemma stable_run_branch_steps I l h :
  Forall (stable I) l -> (forall e, stable I (h e)) -> stable I (run_branch_steps l h).
Proof.
  induction l as [|m rest IH]; intros Hs Hh.
  - apply stable_ret.
  - inversion Hs as [|? ? Hm Hrest]; subst. intros w Hw. simpl.
    specialize (Hm w Hw). destruct (m w) as [[a|e] w'].
    + apply IH; auto.
    + apply Hh; auto.
Qed.

Lemma stable_run_sequential I bs :
  Forall (branch_stable I) bs -> stable I (run_sequential bs).
Proof.
  induction bs as [|b bs IH]; intros H; simpl.
  - apply stable_ret.
  - inversion H as [|? ? [Hb1 Hb2] Hbs]; subst.
    apply stable_bind; auto using stable_run_branch_steps.
Qed.

Lemma advance_stable I i bs :
  Forall (branch_stable I) bs ->
  hoare I (advance i bs) (fun bs' w => I w /\ Forall (branch_stable I) bs') (fun _ => I).
Proof.
  revert i. induction bs as [|b bs IH]; intros i H; simpl.
  - apply hoare_ret; auto.
  - inversion H as [|? ? Hb Hbs]; subst. destruct i as [|i].
    + eapply hoare_bind; [apply step_branch_stable; auto|].
      intros r. apply hoare_ret. intros w [Hw Hr]. split; auto.
      destruct r; auto.
    + eapply hoare_bind; [apply IH; auto|].
      intros rest. apply hoare_ret. intros w [Hw Hr]. auto.
Qed.

Lemma stable_promise_all I sched bs :
  Forall (branch_stable I) bs -> stable I (promise_all sched bs).
Proof.
  revert bs. induction sched as [|i sched IH]; intros bs H; simpl.
  - apply stable_run_sequential; auto.
  - destruct bs as [|b bs']; [apply stable_ret|].
    eapply hoare_bind; [apply advance_stable; auto|].
    intros bs2 w [Hw Hbs2]. apply IH; auto.
Qed.

(** The definitions a stability proof looks through. *)
Create HintDb lab.

#[export] Hint Unfold
  call_or_throw call_ignore saveState
  updateBootstrapState updateFoundationState updateEksState
  updateClusterReadyState clearEphemeralState updateComponentState
  clearComponentState
  checkHelmInstalled addHelmRepo updateHelmRepos installChart uninstallChart
  releaseExists checkKubectlInstalled checkAwsCliInstalled checkPsqlInstalled
  createNamespace deleteNamespace getSecretValue createSecretFromAWS
  configureKubeconfig getNodeStatus aws_waitForEksClusterActive
  k8s_waitForClusterReady checkS3BucketExists checkAuroraClusterStatus
  createDatabaseIfNotExists getServiceUrl getAccountId waitForPods
  require_foundation_outputs require_foundation_and_eks_outputs
  createKeycloakDatabase deployRealmConfigMap generateKeycloakValues
  deployKeycloak undeployKeycloak createPolarisDatabase generatePolarisValues
  deployPolaris undeployPolaris generateTrinoValues deployTrino undeployTrino
  generateSparkValues createExampleManifest deploySpark undeploySpark
  createPolicyConfigMaps generateOpaValues deployOpa undeployOpa
  terraform terraform_output bootstrapStateBackend deployFoundation
  bootstrap_rest bootstrap preFlightChecks deployEks waitForClusterReady
  deployEssentials deploy_stage deployComponents up_after_provisioning
  up_body up read_answer confirm confirmDestructive undeploy_warning
  undeployComponents gracefulShutdown destroyEks verifyFoundationIntact
  destroyAll down_teardown down_body down run_command : lab.

Create HintDb stable_prims.

Ltac stable_step :=
  lazymatch goal with
  | |- stable _ (ret _) => apply stable_ret
  | |- stable _ (throw _) => apply stable_throw
  | |- stable _ get_state => apply stable_get_state
  | |- stable _ read_clock => apply stable_read_clock
  | |- stable _ (bind _ _) => apply stable_bind; [ | intros ]
  | |- stable _ (try_catch _ _) => apply stable_try_catch; [ | intros ]
  | |- stable ?I (if ?b then ?x else ?y) =>
      let b' := eval cbn [negb andb orb
                          bootstrap_dryRun bootstrap_skipFoundation bootstrap_force
                          up_dryRun up_all up_force up_skipEssentials up_skipComponents
                          down_force down_destroyFoundation] in b in
      lazymatch b' with
      | true => change (stable I x)
      | false => change (stable I y)
      | _ => destruct b
      end
  | |- stable _ (match ?x with _ => _ end) => destruct x
  | |- stable _ (let _ := _ in _) => cbv zeta
  | |- stable _ _ =>
      first [ solve [ auto with stable_prims nocore ]
            | progress autounfold with lab ]
  end.

Ltac stable_auto := repeat stable_step.

(** ** Component deployment leaves the state object and the state file alone *)

Definition same_state (s : LabState) (d : option LabState) (w : World) : Prop :=
  mem w = s /\ disk w = d.

Lemma same_state_call env s d c : stable (same_state s d) (call env c).
Proof.
  intros w [H1 H2]. unfold call. destruct (gateway env (clock w) (releases w) c).
  split; auto.
Qed.

Lemma same_state_log s d m : stable (same_state s d) (log m).
Proof. intros w [H1 H2]. split; auto. Qed.

Lemma same_state_date_now s d : stable (same_state s d) date_now.
Proof. intros w [H1 H2]. split; auto. Qed.

#[export] Hint Resolve same_state_call same_state_log same_state_date_now : stable_prims.

Lemma deployKeycloak_same_state env s d force :
  stable (same_state s d) (deployKeycloak env force).
Proof. stable_auto. Qed.

Lemma deployPolaris_same_state env s d force :
  stable (same_state s d) (deployPolaris env force).
Proof. stable_auto. Qed.

Lemma deployTrino_same_state env s d force :
  stable (same_state s d) (deployTrino env force).
Proof. stable_auto. Qed.

Lemma deploySpark_same_state env s d force :
  stable (same_state s d) (deploySpark env force).
Proof. stable_auto. Qed.

Lemma deployOpa_same_state env s d force :
  stable (same_state s d) (deployOpa env force).
Proof. stable_auto. Qed.

(** ** Sample inputs *)

Definition sample_bootstrap_outputs : BootstrapOutputs :=
  mkBootstrapOutputs "lab-tf-state" "lab-tf-locks".

Definition sample_foundation_outputs : FoundationOutputs :=
  mkFoundationOutputs "vpc-1" ["subnet-a"] ["subnet-b"]
    "lab-aurora.cluster-x.us-east-1.rds.amazonaws.com" "lab-aurora-ro" "sg-1"
    "arn:aws:secretsmanager:aurora" "arn:aws:iam::policy/s3"
    "lab-lakehouse-data" "arn:aws:s3:::lab-lakehouse-data"
    "lab-logs" "arn:aws:s3:::lab-logs".

Definition sample_eks_outputs : EksOutputs :=
  mkEksOutputs "lab-eks" "https://eks.example" "arn:aws:iam::oidc".

Definition sample_config : Config := mkConfig "lab" "dev" "us-east-1".

(** An environment whose commands answer as [respond] says, with the sample
    terraform outputs and an operator who types [answer]. *)
Definition sample_env (respond : Z -> Call -> Resp) (answer : string) : Env :=
  mkEnv respond
    (fun _ => Some sample_bootstrap_outputs)
    (fun _ => Some sample_foundation_outputs)
    (fun _ => Some sample_eks_outputs)
    (fun _ => answer).

Definition all_succeed : Env := sample_env (fun _ _ => Success) "y".

(** Foundation deployed, no cluster. *)
Definition bootstrapped_state : LabState :=
  mkLabState "1" "lab" 0 10 true (Some sample_bootstrap_outputs)
    true (Some sample_foundation_outputs) false None None None None no_components.

(** Cluster up, ready and with essentials, no component yet. *)
Definition cluster_state : LabState :=
  mkLabState "1" "lab" 0 20 true (Some sample_bootstrap_outputs)
    true (Some sample_foundation_outputs) true (Some sample_eks_outputs)
    (Some true) (Some "lab-context") (Some true) no_components.

Definition world_of (s : LabState) (rs : list string) : World :=
  mkWorld s (Some s) rs 100 [].

Definition plain_up : UpOptions := mkUpOptions false false false false false.
Definition up_all_components : UpOptions := mkUpOptions false true false false false.

(** The external commands and the persisted records of a trace. *)
Fixpoint calls (t : list Event) : list Call :=
  match t with
  | [] => []
  | Called c :: t' => c :: calls t'
  | _ :: t' => calls t'
  end.

Fixpoint saves (t : list Event) : list LabState :=
  match t with
  | [] => []
  | Saved s :: t' => s :: saves t'
  | _ :: t' => saves t'
  end.

Lemma calls_app t1 t2 : calls (t1 ++ t2) = (calls t1 ++ calls t2)%list.
Proof.
  induction t1 as [|e t1 IH]; simpl; auto. destruct e; simpl; rewrite IH; auto.
Qed.

Lemma saves_app t1 t2 : saves (t1 ++ t2) = (saves t1 ++ saves t2)%list.
Proof.
  induction t1 as [|e t1 IH]; simpl; auto. destruct e; simpl; rewrite IH; auto.
Qed.

(** * [down] when no cluster is recorded *)

(** C10. In every world whose state has [eks_deployed = false], [down], with
    any options ([--destroy-foundation] included), returns at once with exit
    code 0: the state object, the state file and the cluster are untouched
    and the only event is the message that there is nothing to tear down.
    In particular no prompt is shown and no destroy or uninstall command is
    run, so the foundation and bootstrap layers cannot be destroyed through
    [down] once the cluster record has been cleared. *)
Theorem down_without_cluster_is_noop env config sched o w :
  eks_deployed (mem w) = false ->
  down env config sched o w =
    (Ok 0, mkWorld (mem w) (disk w) (releases w) (clock w)
             (trace w ++ [Logged "No EKS cluster deployed. Nothing to tear down."])).
Proof.
  intros H. unfold down, down_body, try_catch, bind, get_state.
  rewrite H. reflexivity.
Qed.

Lemma down_without_cluster_is_noop_witness :
  eks_deployed (mem (world_of bootstrapped_state [])) = false /\
  down all_succeed sample_config [] (mkDownOptions true true)
       (world_of bootstrapped_state []) =
    (Ok 0, mkWorld bootstrapped_state (Some bootstrapped_state) [] 100
             [Logged "No EKS cluster deployed. Nothing to tear down."]).
Proof.
  split; [reflexivity|].
  apply (down_without_cluster_is_noop all_succeed sample_config []
           (mkDownOptions true true) (world_of bootstrapped_state [])).
  reflexivity.
Defined.

(** * Requesting a component whose hard dependency is missing *)

Lemma deployTrino_requires_polaris env force w :
  component_deployed (mem w) Polaris = false ->
  deployTrino env force w = (Throw "Polaris must be deployed before Trino", w).
Proof.
  intros H. unfold deployTrino, bind, get_state. rewrite H. reflexivity.
Qed.

(** C5, as the code has it. When only [trino] is requested and Polaris is
    not recorded as deployed, [deployTrino] throws the error "Polaris must
    be deployed before Trino" before it runs any command and without
    touching the world; [deployComponents] catches it, logs the failure and
    "Continuing without Trino...", and returns normally: no command is run,
    nothing is saved, and [up] is not aborted by the rejection. *)
Theorem trino_without_polaris_is_rejected_and_skipped env force w :
  component_deployed (mem w) Polaris = false ->
  deployTrino env force w = (Throw "Polaris must be deployed before Trino", w) /\
  deployComponents env ["trino"] false force w =
    (Ok tt, mkWorld (mem w) (disk w) (releases w) (clock w)
              (trace w ++
               [Logged "Step 5: Deploying Components";
                Logged "Failed to deploy Trino: Polaris must be deployed before Trino";
                Logged "Continuing without Trino...";
                Logged "Component deployment complete"])).
Proof.
  intros H. split; [apply deployTrino_requires_polaris; auto|].
  assert (E : deployComponents env ["trino"] false force =
              (log "Step 5: Deploying Components" ;;
               deploy_stage "Trino" Trino (deployTrino env) force false ;;
               log "Component deployment complete")) by reflexivity.
  rewrite E. unfold deploy_stage, try_catch, bind, ret, log, emit.
  rewrite deployTrino_requires_polaris by exact H.
  cbn [mem disk releases clock trace]. repeat rewrite <- app_assoc. reflexivity.
Qed.

Lemma trino_without_polaris_is_rejected_and_skipped_witness :
  component_deployed (mem (world_of cluster_state [])) Polaris = false /\
  deployComponents all_succeed ["trino"] false false (world_of cluster_state []) =
    (Ok tt, mkWorld cluster_state (Some cluster_state) [] 100
              [Logged "Step 5: Deploying Components";
               Logged "Failed to deploy Trino: Polaris must be deployed before Trino";
               Logged "Continuing without Trino...";
               Logged "Component deployment complete"]).
Proof.
  split; [reflexivity|].
  apply (trino_without_polaris_is_rejected_and_skipped all_succeed false
           (world_of cluster_state [])).
  reflexivity.
Defined.

Definition trino_alone_run : Res Z * World :=
  up all_succeed sample_config ["trino"] plain_up (world_of cluster_state []).

(** C5 as stated fails: on a ready cluster with no component deployed,
    [lab up trino] is not aborted by the rejection of [trino].  The command
    goes on to its final save and summary and exits with code 0. *)
Lemma up_trino_alone_is_not_aborted :
  fst trino_alone_run = Ok 0 /\
  In (Logged "Failed to deploy Trino: Polaris must be deployed before Trino")
     (trace (snd trino_alone_run)) /\
  calls (trace (snd trino_alone_run)) =
    [KubectlVersion; AwsVersion; HelmVersion; PsqlVersion; KubectlGetNodes] /\
  length (saves (trace (snd trino_alone_run))) = 1%nat.
Proof. vm_compute. repeat split; auto 20. Qed.

(** * Failure of an optional component during [up --all] *)

(** The trace only grows. *)
Definition has_prefix (p : list Event) (w : World) : Prop :=
  exists evs, trace w = (p ++ evs)%list.

Lemma has_prefix_refl w : has_prefix (trace w) w.
Proof. exists []. rewrite app_nil_r. reflexivity. Qed.

Lemma has_prefix_emit p e : stable (has_prefix p) (emit e).
Proof.
  intros w [evs H]. exists (evs ++ [e])%list. simpl. rewrite H, app_assoc. reflexivity.
Qed.

Lemma has_prefix_log p m : stable (has_prefix p) (log m).
Proof. apply has_prefix_emit. Qed.

Lemma has_prefix_call p env c : stable (has_prefix p) (call env c).
Proof.
  intros w [evs H]. unfold call. destruct (gateway env (clock w) (releases w) c).
  exists (evs ++ [Called c])%list. simpl. rewrite H, app_assoc. reflexivity.
Qed.

Lemma has_prefix_date_now p : stable (has_prefix p) date_now.
Proof. intros w [evs H]. exists evs. exact H. Qed.

Lemma has_prefix_modify_state p f : stable (has_prefix p) (modify_state f).
Proof. intros w [evs H]. exists evs. exact H. Qed.

Lemma has_prefix_writeFileSync p : stable (has_prefix p) writeFileSync.
Proof.
  intros w [evs H]. exists (evs ++ [Saved (mem w)])%list. simpl.
  rewrite H, app_assoc. reflexivity.
Qed.

#[export] Hint Resolve has_prefix_log has_prefix_call has_prefix_date_now
  has_prefix_modify_state has_prefix_writeFileSync : stable_prims.

Lemma has_prefix_saveState p : stable (has_prefix p) saveState.
Proof. unfold saveState. stable_auto. Qed.

#[export] Hint Resolve has_prefix_saveState : stable_prims.

(** A stage whose [catch] block does not rethrow returns normally; it
    changes no component record but its own and only extends the trace. *)
Lemma deploy_stage_contained name c deploy force w :
  (forall s d, stable (same_state s d) (deploy force)) ->
  (forall p, stable (has_prefix p) (deploy force)) ->
  exists w',
    deploy_stage name c deploy force false w = (Ok tt, w') /\
    (forall c', c' <> c ->
       get_component c' (components (mem w')) = get_component c' (components (mem w))) /\
    has_prefix (trace w) w'.
Proof.
  intros Hsame Hpre. unfold deploy_stage, try_catch, bind.
  pose proof (Hsame (mem w) (disk w) w (conj eq_refl eq_refl)) as H1.
  pose proof (Hpre (trace w) w (has_prefix_refl w)) as H2.
  destruct (deploy force w) as [[cs|e] w1].
  - destruct H1 as [Hm Hd]. eexists. split; [reflexivity|]. split.
    + intros c' Hc. cbn. rewrite Hm. destruct c, c'; try reflexivity; congruence.
    + destruct H2 as [evs H2]. eexists. cbn. rewrite H2, <- app_assoc. reflexivity.
  - destruct H1 as [Hm Hd]. eexists. split; [reflexivity|]. split.
    + intros c' Hc. cbn. rewrite Hm. reflexivity.
    + destruct H2 as [evs H2]. eexists. cbn. rewrite H2.
      repeat rewrite <- app_assoc. reflexivity.
Qed.

Lemma deployTrino_has_prefix env force p : stable (has_prefix p) (deployTrino env force).
Proof. stable_auto. Qed.

Lemma deploySpark_has_prefix env force p : stable (has_prefix p) (deploySpark env force).
Proof. stable_auto. Qed.

Lemma deployOpa_has_prefix env force p : stable (has_prefix p) (deployOpa env force).
Proof. stable_auto. Qed.

Lemma bind_ok {A B} (m : M A) (f : A -> M B) w a w' :
  m w = (Ok a, w') -> bind m f w = f a w'.
Proof. intros H. unfold bind. rewrite H. reflexivity. Qed.

Lemma bind_throw {A B} (m : M A) (f : A -> M B) w e w' :
  m w = (Throw e, w') -> bind m f w = (Throw e, w').
Proof. intros H. unfold bind. rewrite H. reflexivity. Qed.

(** The command [c] was run after the events [p]. *)
Definition called_since (p : list Event) (c : Call) (w : World) : Prop :=
  exists evs, trace w = (p ++ evs)%list /\ In (Called c) evs.

Lemma called_since_extend p c w w' :
  called_since p c w -> has_prefix (trace w) w' -> called_since p c w'.
Proof.
  intros [evs [H1 H2]] [evs' H3]. exists (evs ++ evs')%list. split.
  - rewrite H3, H1, app_assoc. reflexivity.
  - apply in_or_app. auto.
Qed.

Lemma called_since_stable {A} p c (m : M A) :
  (forall q, stable (has_prefix q) m) -> stable (called_since p c) m.
Proof.
  intros H w Hw. specialize (H (trace w) w (has_prefix_refl w)).
  destruct (m w) as [[a|e] w']; eapply called_since_extend; eauto.
Qed.

Lemma call_called_since env p c :
  hoare (has_prefix p) (call env c) (fun _ => called_since p c) (fun _ => called_since p c).
Proof.
  intros w [evs H]. unfold call. destruct (gateway env (clock w) (releases w) c).
  exists (evs ++ [Called c])%list. cbn. split.
  - rewrite H, app_assoc. reflexivity.
  - apply in_or_app. right. left. reflexivity.
Qed.

(** [deployOpa] always starts by asking helm for the release. *)
Lemma deployOpa_attempted env force p :
  hoare (has_prefix p) (deployOpa env force)
    (fun _ => called_since p (HelmStatus "opa"))
    (fun _ => called_since p (HelmStatus "opa")).
Proof.
  unfold deployOpa.
  eapply hoare_bind with (Q' := fun _ => has_prefix p).
  { apply hoare_get_state; auto. }
  intros s.
  eapply hoare_bind with (Q' := fun _ => has_prefix p).
  { destruct (negb (component_deployed s Keycloak)).
    - intros w Hw. exact (has_prefix_log p _ w Hw).
    - apply hoare_ret; auto. }
  intros _.
  eapply hoare_bind with (Q' := fun _ => called_since p (HelmStatus "opa")).
  { unfold releaseExists. eapply hoare_bind; [apply call_called_since|].
    intros r. destruct r; first [apply hoare_ret | apply hoare_throw]; auto. }
  intros exists_.
  apply called_since_stable. intros q. stable_auto.
Qed.

Lemma opa_stage_attempted env force w :
  called_since (trace w) (HelmStatus "opa")
    (snd (deploy_stage "OPA" Opa (deployOpa env) force false w)).
Proof.
  unfold deploy_stage, try_catch, bind.
  pose proof (deployOpa_attempted env force (trace w) w (has_prefix_refl w)) as H.
  destruct (deployOpa env force w) as [[cs|e] w1].
  - eapply called_since_extend; [exact H|].
    exact (stable_snd _ (updateComponentState Opa cs) w1
             ltac:(unfold updateComponentState; stable_auto) (has_prefix_refl w1)).
  - eapply called_since_extend; [exact H|].
    eexists. cbn. rewrite <- app_assoc. reflexivity.
Qed.

(** With [--all], [deployComponents] is the five stages in a fixed order;
    only the Keycloak stage rethrows. *)
Lemma deployComponents_all env componentArgs force :
  deployComponents env componentArgs true force =
    (log "Step 5: Deploying Components" ;;
     deploy_stage "Keycloak" Keycloak (deployKeycloak env) force true ;;
     deploy_stage "Polaris" Polaris (deployPolaris env) force false ;;
     deploy_stage "Trino" Trino (deployTrino env) force false ;;
     deploy_stage "Spark" Spark (deploySpark env) force false ;;
     deploy_stage "OPA" Opa (deployOpa env) force false ;;
     log "Component deployment complete").
Proof. reflexivity. Qed.

(** C3, as the code has it. If the deployment of Trino fails (its deploy
    function throws), the failure is caught and logged: the records of
    Keycloak, Polaris and Trino in the state are left exactly as they were
    before the attempt (no record with [deployed = false] is written for
    Trino), the Spark and OPA stages still run, OPA's deployment being
    attempted at least up to its [helm status] query, and the remaining
    stages of [deployComponents] return normally, so that the failure does
    not by itself make [up] exit with a non-zero code. *)
Theorem trino_failure_is_contained env force w e w1 :
  deployTrino env force w = (Throw e, w1) ->
  let r := (deploy_stage "Trino" Trino (deployTrino env) force false ;;
            deploy_stage "Spark" Spark (deploySpark env) force false ;;
            deploy_stage "OPA" Opa (deployOpa env) force false ;;
            log "Component deployment complete") w in
  fst r = Ok tt /\
  get_component Keycloak (components (mem (snd r))) =
    get_component Keycloak (components (mem w)) /\
  get_component Polaris (components (mem (snd r))) =
    get_component Polaris (components (mem w)) /\
  get_component Trino (components (mem (snd r))) =
    get_component Trino (components (mem w)) /\
  called_since (trace w) (HelmStatus "opa") (snd r).
Proof.
  intros H r.
  (* the Trino stage *)
  assert (HT : exists wT,
             deploy_stage "Trino" Trino (deployTrino env) force false w = (Ok tt, wT) /\
             mem wT = mem w /\ has_prefix (trace w) wT).
  { pose proof (deployTrino_same_state env (mem w) (disk w) force w
                  (conj eq_refl eq_refl)) as Hs.
    pose proof (deployTrino_has_prefix env force (trace w) w (has_prefix_refl w)) as Hp.
    rewrite H in Hs, Hp. destruct Hs as [Hm _]. destruct Hp as [evs Hp].
    unfold deploy_stage, try_catch, bind. rewrite H. eexists. split; [reflexivity|].
    split; [exact Hm|]. eexists. cbn. rewrite Hp. repeat rewrite <- app_assoc.
    reflexivity. }
  destruct HT as [wT [ET [HmT HpT]]].
  (* the Spark stage *)
  destruct (deploy_stage_contained "Spark" Spark (deploySpark env) force wT
              (fun s d => deploySpark_same_state env s d force)
              (fun p => deploySpark_has_prefix env force p))
    as [wS [ES [HfS HpS]]].
  (* the OPA stage *)
  destruct (deploy_stage_contained "OPA" Opa (deployOpa env) force wS
              (fun s d => deployOpa_same_state env s d force)
              (fun p => deployOpa_has_prefix env force p))
    as [wO [EO [HfO HpO]]].
  pose proof (opa_stage_attempted env force wS) as HO. rewrite EO in HO. cbn in HO.
  assert (Er : r = (Ok tt, mkWorld (mem wO) (disk wO) (releases wO) (clock wO)
                             (trace wO ++ [Logged "Component deployment complete"]))).
  { unfold r. rewrite (bind_ok _ _ _ _ _ ET), (bind_ok _ _ _ _ _ ES),
      (bind_ok _ _ _ _ _ EO). reflexivity. }
  rewrite Er. cbn [fst snd mem].
  split; [reflexivity|].
  split; [rewrite HfO, HfS, HmT by discriminate; reflexivity|].
  split; [rewrite HfO, HfS, HmT by discriminate; reflexivity|].
  split; [rewrite HfO, HfS, HmT by discriminate; reflexivity|].
  destruct HO as [evsO [HO1 HO2]]. destruct HpS as [evsS HpS]. destruct HpT as [evsT HpT].
  exists (evsT ++ evsS ++ evsO ++ [Logged "Component deployment complete"])%list.
  cbn. split.
  - rewrite HO1, HpS, HpT. repeat rewrite <- app_assoc. reflexivity.
  - apply in_or_app. right. apply in_or_app. right. apply in_or_app. left. exact HO2.
Qed.

(** Trino cannot be installed; everything else succeeds. *)
Definition trino_install_fails : Env :=
  sample_env (fun _ c => match c with
                         | HelmInstall r => if String.eqb r "trino" then Failure else Success
                         | _ => Success
                         end) "y".

(** Keycloak and Polaris deployed on a ready cluster. *)
Definition core_state : LabState :=
  set_components
    (mkComponents (Some (deployed_record true "keycloak" "keycloak" (Some 30)))
                  (Some (deployed_record true "polaris" "polaris" (Some 40)))
                  None None None)
    cluster_state.

Definition core_world : World := world_of core_state ["polaris"; "keycloak"].

Definition stages_from_trino_run : Res unit * World :=
  (deploy_stage "Trino" Trino (deployTrino trino_install_fails) false false ;;
   deploy_stage "Spark" Spark (deploySpark trino_install_fails) false false ;;
   deploy_stage "OPA" Opa (deployOpa trino_install_fails) false false ;;
   log "Component deployment complete") core_world.

Lemma trino_failure_is_contained_witness :
  fst (deployTrino trino_install_fails false core_world) =
    Throw "Helm command failed: upgrade --install" /\
  fst stages_from_trino_run = Ok tt /\
  get_component Trino (components (mem (snd stages_from_trino_run))) = None /\
  called_since (trace core_world) (HelmStatus "opa") (snd stages_from_trino_run).
Proof.
  split; [reflexivity|].
  destruct (trino_failure_is_contained trino_install_fails false core_world
              "Helm command failed: upgrade --install"
              (snd (deployTrino trino_install_fails false core_world)) eq_refl)
    as [H1 [_ [_ [H3 H4]]]].
  split; [exact H1|]. split; [exact H3|exact H4].
Defined.

Definition failing_trino_run : Res Z * World :=
  up trino_install_fails sample_config [] up_all_components (world_of cluster_state []).

(** C3 as stated fails: during [lab up --all] on a ready cluster, Trino's
    chart cannot be installed.  Keycloak and Polaris are recorded as
    deployed and OPA is deployed, but no record at all is written for Trino
    and the command exits with code 0. *)
Lemma up_all_with_failing_trino_exits_zero :
  fst failing_trino_run = Ok 0 /\
  In (Logged "Failed to deploy Trino: Helm command failed: upgrade --install")
     (trace (snd failing_trino_run)) /\
  option_map (fun s => get_component Trino (components s))
    (disk (snd failing_trino_run)) = Some None /\
  option_map (fun s => component_deployed s Keycloak)
    (disk (snd failing_trino_run)) = Some true /\
  option_map (fun s => component_deployed s Polaris)
    (disk (snd failing_trino_run)) = Some true /\
  option_map (fun s => component_deployed s Opa)
    (disk (snd failing_trino_run)) = Some true.
Proof. vm_compute. repeat split; auto 100. Qed.

(** * The readiness polling loops ([utils/kubernetes.ts], [utils/aws.ts]) *)

Module Polling.

(** What the polled commands answer and how long things take.  Durations
    are natural numbers of milliseconds, so the clock never goes back. *)
Record PollEnv := mkPollEnv {
  (* k-th [getNodeStatus]: [(ready, total)], or [None] when it throws *)
  node_status : nat -> option (nat * nat);
  (* k-th [getEksClusterStatus]: the status, [Some None] for [null],
     [None] when it throws an [AwsCliError] *)
  eks_status : nat -> option (option string);
  (* time taken by the k-th check *)
  check_time : nat -> N;
  (* time by which the k-th sleep overshoots [pollInterval] *)
  lag : nat -> N;
  (* time between reading [startTime] and the first test of the loop *)
  startup : N
}.

Record PollState := mkPollState {
  now : Z;          (* [Date.now()] *)
  checks : nat;     (* invocations of the check so far *)
  sleeps : nat      (* completed sleeps so far *)
}.

Inductive Outcome :=
  | Returned
  | Timeout (what : string) (timeoutMinutes : Z)
  | Fatal (status : string)
  | CliError
  | OutOfFuel.

Section Loops.

Variable env : PollEnv.

Definition run_check (st : PollState) : PollState :=
  mkPollState (now st + Z.of_N (check_time env (checks st))) (S (checks st)) (sleeps st).

Definition sleep (pollInterval : Z) (st : PollState) : PollState :=
  mkPollState (now st + pollInterval + Z.of_N (lag env (sleeps st))) (checks st)
    (S (sleeps st)).

(** The [while] loop of [waitForClusterReady]. *)
Fixpoint waitForClusterReady_loop (fuel : nat) (startTime timeoutMs timeoutMinutes : Z)
    (st : PollState) : Outcome * PollState :=
  match fuel with
  | O => (OutOfFuel, st)
  | S fuel' =>
      if now st - startTime <? timeoutMs then
        let st1 := run_check st in
        match node_status env (checks st) with
        | Some (ready, total) =>
            if (0 <? total)%nat && (ready =? total)%nat then (Returned, st1)
            else waitForClusterReady_loop fuel' startTime timeoutMs timeoutMinutes
                   (sleep 10000 st1)
        | None =>
            waitForClusterReady_loop fuel' startTime timeoutMs timeoutMinutes
              (sleep 10000 st1)
        end
      else (Timeout "cluster nodes to be ready" timeoutMinutes, st)
  end.

Definition waitForClusterReady (fuel : nat) (timeoutMinutes : Z) (st : PollState)
    : Outcome * PollState :=
  let timeoutMs := timeoutMinutes * 60 * 1000 in
  let startTime := now st in
  waitForClusterReady_loop fuel startTime timeoutMs timeoutMinutes
    (mkPollState (now st + Z.of_N (startup env)) (checks st) (sleeps st)).

(** The [while] loop of [waitForEksClusterActive]. *)
Fixpoint waitForEksClusterActive_loop (fuel : nat) (startTime timeoutMs timeoutMinutes : Z)
    (st : PollState) : Outcome * PollState :=
  match fuel with
  | O => (OutOfFuel, st)
  | S fuel' =>
      if now st - startTime <? timeoutMs then
        let st1 := run_check st in
        match eks_status env (checks st) with
        | None => (CliError, st1)
        | Some status =>
            match status with
            | Some s =>
                if String.eqb s "ACTIVE" then (Returned, st1)
                else if String.eqb s "FAILED" || String.eqb s "DELETING"
                then (Fatal s, st1)
                else waitForEksClusterActive_loop fuel' startTime timeoutMs
                       timeoutMinutes (sleep 15000 st1)
            | None =>
                waitForEksClusterActive_loop fuel' startTime timeoutMs
                  timeoutMinutes (sleep 15000 st1)
            end
        end
      else (Timeout "EKS cluster to become ACTIVE" timeoutMinutes, st)
  end.

Definition waitForEksClusterActive (fuel : nat) (timeoutMinutes : Z) (st : PollState)
    : Outcome * PollState :=
  let timeoutMs := timeoutMinutes * 60 * 1000 in
  let startTime := now st in
  waitForEksClusterActive_loop fuel startTime timeoutMs timeoutMinutes
    (mkPollState (now st + Z.of_N (startup env)) (checks st) (sleeps st)).

End Loops.

(** The loops end: each iteration lets at least [pollInterval] pass, so
    [fuel + 1] iterations are enough as soon as [fuel * pollInterval] covers
    the time left. *)
Lemma waitForClusterReady_loop_ends env fuel startTime timeoutMs m st :
  timeoutMs - (now st - startTime) <= Z.of_nat fuel * 10000 ->
  fst (waitForClusterReady_loop env (S fuel) startTime timeoutMs m st) <> OutOfFuel.
Proof.
  revert st. induction fuel as [|fuel IH]; intros st H.
  - cbn [waitForClusterReady_loop]. destruct (now st - startTime <? timeoutMs) eqn:E.
    + apply Z.ltb_lt in E. simpl in H. lia.
    + discriminate.
  - remember (S fuel) as f eqn:Ef. cbn [waitForClusterReady_loop].
    destruct (now st - startTime <? timeoutMs) eqn:E; [|discriminate].
    assert (Hn : timeoutMs - (now (sleep env 10000 (run_check env st)) - startTime)
                 <= Z.of_nat fuel * 10000).
    { cbn. pose proof (N2Z.is_nonneg (check_time env (checks st))).
      pose proof (N2Z.is_nonneg (lag env (sleeps st))). lia. }
    subst f.
    destruct (node_status env (checks st)) as [[ready total]|].
    + destruct ((0 <? total)%nat && (ready =? total)%nat); [discriminate|].
      apply IH; exact Hn.
    + apply IH; exact Hn.
Qed.

Lemma waitForEksClusterActive_loop_ends env fuel startTime timeoutMs m st :
  timeoutMs - (now st - startTime) <= Z.of_nat fuel * 15000 ->
  fst (waitForEksClusterActive_loop env (S fuel) startTime timeoutMs m st) <> OutOfFuel.
Proof.
  revert st. induction fuel as [|fuel IH]; intros st H.
  - cbn [waitForEksClusterActive_loop]. destruct (now st - startTime <? timeoutMs) eqn:E.
    + apply Z.ltb_lt in E. simpl in H. lia.
    + discriminate.
  - remember (S fuel) as f eqn:Ef. cbn [waitForEksClusterActive_loop].
    destruct (now st - startTime <? timeoutMs) eqn:E; [|discriminate].
    assert (Hn : timeoutMs - (now (sleep env 15000 (run_check env st)) - startTime)
                 <= Z.of_nat fuel * 15000).
    { cbn. pose proof (N2Z.is_nonneg (check_time env (checks st))).
      pose proof (N2Z.is_nonneg (lag env (sleeps st))). lia. }
    subst f.
    destruct (eks_status env (checks st)) as [[s|]|]; [ | apply IH; exact Hn | discriminate].
    destruct (String.eqb s "ACTIVE"); [discriminate|].
    destruct (String.eqb s "FAILED" || String.eqb s "DELETING"); [discriminate|].
    apply IH; exact Hn.
Qed.

(** C9. With a timeout of 0 minutes both readiness waits fail at once with
    the timeout error, which names the bound (0 minutes): the loop test
    [Date.now() - startTime < 0] is false on entry, so the check is never
    invoked (at most one invocation, in fact none) and no sleep happens.
    This holds whatever the check would answer, in particular for a check
    that never reports ready, and for any positive amount of fuel. *)
Theorem timeout_zero_fails_at_once env fuel st :
  waitForClusterReady env (S fuel) 0 st =
    (Timeout "cluster nodes to be ready" 0,
     mkPollState (now st + Z.of_N (startup env)) (checks st) (sleeps st)) /\
  waitForEksClusterActive env (S fuel) 0 st =
    (Timeout "EKS cluster to become ACTIVE" 0,
     mkPollState (now st + Z.of_N (startup env)) (checks st) (sleeps st)) /\
  (checks (snd (waitForClusterReady env (S fuel) 0 st)) - checks st <= 1)%nat /\
  (checks (snd (waitForEksClusterActive env (S fuel) 0 st)) - checks st <= 1)%nat.
Proof.
  assert (E : (now st + Z.of_N (startup env) - now st <? 0 * 60 * 1000) = false).
  { apply Z.ltb_ge. pose proof (N2Z.is_nonneg (startup env)). lia. }
  assert (E1 : waitForClusterReady env (S fuel) 0 st =
               (Timeout "cluster nodes to be ready" 0,
                mkPollState (now st + Z.of_N (startup env)) (checks st) (sleeps st))).
  { unfold waitForClusterReady. cbn [waitForClusterReady_loop now]. rewrite E.
    reflexivity. }
  assert (E2 : waitForEksClusterActive env (S fuel) 0 st =
               (Timeout "EKS cluster to become ACTIVE" 0,
                mkPollState (now st + Z.of_N (startup env)) (checks st) (sleeps st))).
  { unfold waitForEksClusterActive. cbn [waitForEksClusterActive_loop now]. rewrite E.
    reflexivity. }
  rewrite E1, E2. cbn [snd checks]. repeat split; lia.
Qed.

End Polling.

(** * What a normal [down] changes *)

Definition foundation_untouched (s0 s : LabState) : Prop :=
  bootstrapped s = bootstrapped s0 /\
  bootstrap_outputs s = bootstrap_outputs s0 /\
  foundation_deployed s = foundation_deployed s0 /\
  foundation_outputs s = foundation_outputs s0 /\
  lab_name s = lab_name s0 /\
  created_at s = created_at s0.

Definition ephemeral_cleared (s : LabState) : Prop :=
  eks_deployed s = false /\ eks_outputs s = None /\
  cluster_ready s = Some false /\ cluster_context s = None /\
  essentials_deployed s = Some false.

Definition ephemeral_same (s0 s : LabState) : Prop :=
  eks_deployed s = eks_deployed s0 /\ eks_outputs s = eks_outputs s0 /\
  cluster_ready s = cluster_ready s0 /\ cluster_context s = cluster_context s0 /\
  essentials_deployed s = essentials_deployed s0.

(** Besides [updated_at], the only differences between [s0] and [s] are
    ephemeral fields that were cleared and component records that were
    removed. *)
Definition only_cleared (s0 s : LabState) : Prop :=
  version s = version s0 /\
  (ephemeral_same s0 s \/ ephemeral_cleared s) /\
  forall c, get_component c (components s) = get_component c (components s0) \/
            get_component c (components s) = None.

Definition down_frame (s0 s : LabState) : Prop :=
  foundation_untouched s0 s /\ only_cleared s0 s.

Lemma down_frame_refl s : down_frame s s.
Proof.
  unfold down_frame, foundation_untouched, only_cleared, ephemeral_same.
  split; [repeat split|]. split; [reflexivity|]. split.
  - left. repeat split.
  - intros c. left. reflexivity.
Qed.

Lemma down_frame_updated_at s0 s t :
  down_frame s0 s -> down_frame s0 (set_updated_at t s).
Proof. intros H. exact H. Qed.

Lemma down_frame_clear_ephemeral s0 s :
  down_frame s0 s -> down_frame s0 (clear_ephemeral s).
Proof.
  intros [Hf [Hv [He Hc]]]. split; [exact Hf|]. split; [exact Hv|]. split; [|exact Hc].
  right. unfold ephemeral_cleared. cbn. auto.
Qed.

Lemma down_frame_clear_component s0 s c :
  down_frame s0 s ->
  down_frame s0 (set_components (set_component c None (components s)) s).
Proof.
  intros [Hf [Hv [He Hc]]]. split; [exact Hf|]. split; [exact Hv|]. split; [exact He|].
  intros c'. specialize (Hc c'). destruct c, c'; cbn in *; auto.
Qed.

(** The state object and every record saved since the events [p] differ
    from [s0] only as [down_frame] allows. *)
Definition framed (s0 : LabState) (p : list Event) (w : World) : Prop :=
  down_frame s0 (mem w) /\
  exists evs, trace w = (p ++ evs)%list /\ Forall (down_frame s0) (saves evs).

Lemma framed_start w : framed (mem w) (trace w) w.
Proof.
  split; [apply down_frame_refl|]. exists []. rewrite app_nil_r.
  split; [reflexivity|constructor].
Qed.

Lemma framed_call s0 p env c : stable (framed s0 p) (call env c).
Proof.
  intros w [H1 [evs [H2 H3]]]. unfold call.
  destruct (gateway env (clock w) (releases w) c). split; [exact H1|].
  exists (evs ++ [Called c])%list. cbn. split.
  - rewrite H2, app_assoc. reflexivity.
  - rewrite saves_app. cbn. rewrite app_nil_r. exact H3.
Qed.

Lemma framed_log s0 p m : stable (framed s0 p) (log m).
Proof.
  intros w [H1 [evs [H2 H3]]]. split; [exact H1|].
  exists (evs ++ [Logged m])%list. cbn. split.
  - rewrite H2, app_assoc. reflexivity.
  - rewrite saves_app. cbn. rewrite app_nil_r. exact H3.
Qed.

Lemma framed_date_now s0 p : stable (framed s0 p) date_now.
Proof. intros w H. exact H. Qed.

Lemma framed_modify_state s0 p f :
  (forall s, down_frame s0 s -> down_frame s0 (f s)) ->
  stable (framed s0 p) (modify_state f).
Proof. intros Hf w [H1 H2]. split; [apply Hf; exact H1|exact H2]. Qed.

Lemma framed_writeFileSync s0 p : stable (framed s0 p) writeFileSync.
Proof.
  intros w [H1 [evs [H2 H3]]]. split; [exact H1|].
  exists (evs ++ [Saved (mem w)])%list. cbn. split.
  - rewrite H2, app_assoc. reflexivity.
  - rewrite saves_app. cbn. apply Forall_app. split; [exact H3|]. constructor; auto.
Qed.

Lemma framed_saveState s0 p : stable (framed s0 p) saveState.
Proof.
  unfold saveState. apply stable_bind; [apply framed_date_now|]. intros t.
  apply stable_bind; [|intros; apply framed_writeFileSync].
  apply framed_modify_state. intros s. apply down_frame_updated_at.
Qed.

Lemma framed_clearEphemeralState s0 p : stable (framed s0 p) clearEphemeralState.
Proof.
  unfold clearEphemeralState. apply stable_bind; [|intros; apply framed_saveState].
  apply framed_modify_state. apply down_frame_clear_ephemeral.
Qed.

Lemma framed_clearComponentState s0 p c : stable (framed s0 p) (clearComponentState c).
Proof.
  unfold clearComponentState. apply stable_bind; [|intros; apply framed_saveState].
  apply framed_modify_state. intros s. apply down_frame_clear_component.
Qed.

Lemma framed_modify_clear_ephemeral s0 p :
  stable (framed s0 p) (modify_state clear_ephemeral).
Proof. apply framed_modify_state. apply down_frame_clear_ephemeral. Qed.

Lemma framed_modify_clear_component s0 p c :
  stable (framed s0 p)
    (modify_state (fun s => set_components (set_component c None (components s)) s)).
Proof. apply framed_modify_state. intros s. apply down_frame_clear_component. Qed.

Lemma framed_modify_updated_at s0 p t :
  stable (framed s0 p) (modify_state (set_updated_at t)).
Proof. apply framed_modify_state. intros s. apply down_frame_updated_at. Qed.

#[export] Hint Resolve framed_call framed_log framed_date_now framed_saveState
  framed_clearEphemeralState framed_clearComponentState framed_writeFileSync
  framed_modify_clear_ephemeral framed_modify_clear_component
  framed_modify_updated_at : stable_prims.

(** The branches of the concurrent batch keep any invariant that the
    commands, the warnings and [clearComponentState] keep. *)
Lemma undeployPromises_stable I env s :
  (forall c, stable I (call env c)) ->
  (forall name e, stable I (undeploy_warning name e)) ->
  (forall c, stable I (clearComponentState c)) ->
  Forall (branch_stable I) (undeployPromises env s).
Proof.
  intros Hc Hl Hk.
  assert (Hu : forall r c, stable I (uninstallChart env r ;; clearComponentState c)).
  { intros r c. apply stable_bind; [|intros; apply Hk].
    unfold uninstallChart. apply stable_bind; [apply Hc|].
    intros x. destruct x; first [apply stable_ret | apply stable_throw]. }
  assert (Hi : forall c, stable I (call_ignore env c)).
  { intros c. unfold call_ignore. apply stable_bind; [apply Hc|].
    intros; apply stable_ret. }
  unfold undeployPromises.
  repeat (apply Forall_app; split);
    match goal with |- Forall _ (if ?b then _ else _) => destruct b end;
    repeat constructor; cbn; auto.
Qed.

Ltac stable_batch :=
  apply stable_promise_all; apply undeployPromises_stable;
  intros; try unfold undeploy_warning;
  first [ solve [ auto with stable_prims nocore ] | solve [ stable_auto ] ].

Lemma down_framed env config sched force s0 p :
  stable (framed s0 p) (down env config sched (mkDownOptions force false)).
Proof. stable_auto; try stable_batch. Qed.

(** No teardown has been completed since the events [p]. *)
Definition not_completed (p : list Event) (w : World) : Prop :=
  exists evs, trace w = (p ++ evs)%list /\ ~ In (Logged "Teardown Complete") evs.

Lemma not_completed_start w : not_completed (trace w) w.
Proof. exists []. rewrite app_nil_r. split; [reflexivity|]. intros []. Qed.

Lemma not_completed_call p env c : stable (not_completed p) (call env c).
Proof.
  intros w [evs [H1 H2]]. unfold call. destruct (gateway env (clock w) (releases w) c).
  exists (evs ++ [Called c])%list. cbn. split.
  - rewrite H1, app_assoc. reflexivity.
  - intros H. apply in_app_or in H. destruct H as [H|[H|[]]]; [auto|discriminate].
Qed.

Lemma not_completed_log p m :
  m <> "Teardown Complete" -> stable (not_completed p) (log m).
Proof.
  intros Hm w [evs [H1 H2]]. exists (evs ++ [Logged m])%list. cbn. split.
  - rewrite H1, app_assoc. reflexivity.
  - intros H. apply in_app_or in H. destruct H as [H|[H|[]]]; [auto|].
    apply Hm. congruence.
Qed.

Lemma not_completed_date_now p : stable (not_completed p) date_now.
Proof. intros w H. exact H. Qed.

Lemma not_completed_modify_state p f : stable (not_completed p) (modify_state f).
Proof. intros w H. exact H. Qed.

Lemma not_completed_writeFileSync p : stable (not_completed p) writeFileSync.
Proof.
  intros w [evs [H1 H2]]. exists (evs ++ [Saved (mem w)])%list. cbn. split.
  - rewrite H1, app_assoc. reflexivity.
  - intros H. apply in_app_or in H. destruct H as [H|[H|[]]]; [auto|discriminate].
Qed.

#[export] Hint Resolve not_completed_call not_completed_date_now
  not_completed_modify_state not_completed_writeFileSync : stable_prims.
#[export] Hint Extern 1 (stable (not_completed _) (log _)) =>
  apply not_completed_log; cbn; discriminate : stable_prims.

Lemma not_completed_saveState p : stable (not_completed p) saveState.
Proof. unfold saveState. stable_auto. Qed.

Lemma not_completed_clearComponentState p c :
  stable (not_completed p) (clearComponentState c).
Proof. unfold clearComponentState, saveState. stable_auto. Qed.

#[export] Hint Resolve not_completed_saveState not_completed_clearComponentState
  : stable_prims.

Lemma stable_hoare_left {A} (I R : World -> Prop) (m : M A) :
  stable I m -> hoare I m (fun _ w => I w \/ R w) (fun _ => I).
Proof. intros H. eapply hoare_conseq; [exact H| | |]; cbn; auto. Qed.

Lemma hoare_right {A} (P I R : World -> Prop) (m : M A) E :
  hoare P m (fun _ => R) E -> hoare P m (fun _ w => I w \/ R w) E.
Proof. intros H. eapply hoare_conseq; [exact H| | |]; cbn; auto. Qed.

Definition teardown_saved (w : World) : Prop :=
  disk w = Some (mem w) /\ ephemeral_cleared (mem w).

(** When steps 4 to 8 of [down] run to the end, the record on disk is the
    state object, with its ephemeral fields cleared. *)
Lemma down_teardown_completes env sched p :
  hoare (not_completed p) (down_teardown env sched)
    (fun _ => teardown_saved) (fun _ => not_completed p).
Proof.
  unfold down_teardown.
  eapply hoare_bind with (Q' := fun _ => not_completed p).
  { change (stable (not_completed p) (checkKubectlInstalled env)). stable_auto. }
  intros hasKubectl.
  eapply hoare_bind with (Q' := fun _ => not_completed p).
  { apply stable_get_state. }
  intros s.
  eapply hoare_bind with (Q' := fun _ => not_completed p).
  { match goal with |- hoare ?I ?m _ _ => change (stable I m) end.
    stable_auto; try stable_batch. }
  intros _.
  eapply hoare_bind with (Q' := fun _ => not_completed p).
  { match goal with |- hoare ?I ?m _ _ => change (stable I m) end. stable_auto. }
  intros _.
  eapply hoare_bind with (Q' := fun _ => not_completed p).
  { match goal with |- hoare ?I ?m _ _ => change (stable I m) end. stable_auto. }
  intros _.
  eapply hoare_bind with (Q' := fun _ => not_completed p).
  { match goal with |- hoare ?I ?m _ _ => change (stable I m) end. stable_auto. }
  intros _.
  eapply hoare_bind with (Q' := fun _ w => ephemeral_cleared (mem w)).
  { intros w _. cbn. unfold ephemeral_cleared. cbn. auto 10. }
  intros _.
  eapply hoare_bind with (Q' := fun _ => teardown_saved).
  { intros w H. cbn. split; [reflexivity|exact H]. }
  intros _ w H. exact H.
Qed.

Lemma down_completes env config sched force p :
  hoare (not_completed p) (down env config sched (mkDownOptions force false))
    (fun _ w => not_completed p w \/ teardown_saved w)
    (fun _ w => not_completed p w \/ teardown_saved w).
Proof.
  unfold down.
  eapply hoare_try_catch with (E' := fun _ => not_completed p).
  2:{ intros e.
      eapply hoare_conseq with (E' := fun _ => not_completed p);
        [apply (stable_hoare_left (not_completed p) teardown_saved); stable_auto
        | | | ]; cbn; auto. }
  eapply hoare_bind; [|intros a; apply hoare_ret; intros w H; exact H].
  unfold down_body.
  eapply hoare_bind with (Q' := fun _ => not_completed p);
    [apply stable_get_state|].
  intros s. destruct (negb (eks_deployed s)).
  { apply stable_hoare_left. stable_auto. }
  cbn [down_destroyFoundation down_force].
  destruct (negb force).
  - eapply hoare_bind with (Q' := fun _ => not_completed p).
    { match goal with |- hoare ?I ?m _ _ => change (stable I m) end. stable_auto. }
    intros _.
    eapply hoare_bind with (Q' := fun _ => not_completed p).
    { match goal with |- hoare ?I ?m _ _ => change (stable I m) end. stable_auto. }
    intros confirmed. destruct (negb confirmed).
    + apply stable_hoare_left. stable_auto.
    + apply hoare_right. apply down_teardown_completes.
  - apply hoare_right. apply down_teardown_completes.
Qed.

(** X25. A normal [down] (no [--destroy-foundation]) never changes the
    foundation: in the state object at the end and in every record the
    command saves, [bootstrapped], [bootstrap_outputs],
    [foundation_deployed], [foundation_outputs], [lab_name] and [created_at]
    are those of the starting state; apart from [updated_at] the only
    differences are ephemeral fields that were cleared and component records
    that were removed.  When the teardown runs to its end ("Teardown
    Complete"), the record on disk is the final state object and its five
    ephemeral fields are cleared. *)
Theorem normal_down_frame env config sched force w :
  exists evs,
    trace (snd (down env config sched (mkDownOptions force false) w)) =
      (trace w ++ evs)%list /\
    Forall (down_frame (mem w)) (saves evs) /\
    down_frame (mem w) (mem (snd (down env config sched (mkDownOptions force false) w))) /\
    (In (Logged "Teardown Complete") evs ->
     teardown_saved (snd (down env config sched (mkDownOptions force false) w))).
Proof.
  pose proof (stable_snd _ _ w (down_framed env config sched force (mem w) (trace w))
                (framed_start w)) as [Hm [evs [Ht Hs]]].
  pose proof (down_completes env config sched force (trace w) w (not_completed_start w))
    as Hc.
  exists evs. split; [exact Ht|]. split; [exact Hs|]. split; [exact Hm|].
  intros Hin.
  assert (Hor : not_completed (trace w)
                  (snd (down env config sched (mkDownOptions force false) w)) \/
                teardown_saved (snd (down env config sched (mkDownOptions force false) w))).
  { destruct (down env config sched (mkDownOptions force false) w) as [[a|e] w'];
      exact Hc. }
  destruct Hor as [[evs' [Ht' Hn]]|Hsaved]; [|exact Hsaved].
  rewrite Ht in Ht'. apply app_inv_head in Ht'. subst evs'. contradiction.
Qed.

(** ** A teardown that skips the undeployment

    The cluster is up with Keycloak and Polaris, and [kubectl] is not on the
    path of the shell in which the operator runs [lab down] and confirms. *)
Definition kubectl_not_found : Env :=
  sample_env (fun _ c => match c with
                         | KubectlVersion => Failure
                         | _ => Success
                         end) "y".

Definition down_without_kubectl : Res Z * World :=
  down kubectl_not_found sample_config [] (mkDownOptions false false) core_world.

(** C7 fails for the component records.  [undeployComponents] is the only
    place where a normal [down] clears them, and step 4 skips it when
    [kubectl] is not found (or the cluster is not recorded as ready); step 7
    then clears the ephemeral fields only, under the comment "Component
    state already cleared in undeployComponents".  Here the teardown runs to
    its end with exit code 0 and without a single [helm uninstall], the
    cluster is destroyed, and the state file, which is the final state
    object, has its ephemeral fields cleared and still records Keycloak and
    Polaris as deployed. *)
Theorem down_without_kubectl_keeps_component_records :
  eks_deployed (mem core_world) = true /\
  fst down_without_kubectl = Ok 0 /\
  calls (trace (snd down_without_kubectl)) =
    [PromptConfirm; KubectlVersion;
     TfWriteBackendConfig EphemeralDir; TfInit EphemeralDir; TfDestroy EphemeralDir;
     AwsHeadBucket; AwsDescribeDbClusters] /\
  In (Logged "Teardown Complete") (trace (snd down_without_kubectl)) /\
  disk (snd down_without_kubectl) = Some (mem (snd down_without_kubectl)) /\
  ephemeral_cleared (mem (snd down_without_kubectl)) /\
  components (mem (snd down_without_kubectl)) = components core_state /\
  get_component Keycloak (components (mem (snd down_without_kubectl))) =
    Some (deployed_record true "keycloak" "keycloak" (Some 30)) /\
  get_component Polaris (components (mem (snd down_without_kubectl))) =
    Some (deployed_record true "polaris" "polaris" (Some 40)).
Proof.
  vm_compute. repeat split; try reflexivity. auto 30.
Qed.

(** * Dry runs *)

(** Since the events [p]: the state object is [s], the state file is [d],
    nothing was saved and no mutating command was run. *)
Definition untouched (s : LabState) (d : option LabState) (p : list Event)
    (w : World) : Prop :=
  mem w = s /\ disk w = d /\
  exists evs, trace w = (p ++ evs)%list /\ saves evs = [] /\
              forallb (fun c => negb (mutating c)) (calls evs) = true.

Lemma untouched_start w : untouched (mem w) (disk w) (trace w) w.
Proof.
  split; [reflexivity|]. split; [reflexivity|]. exists []. rewrite app_nil_r. auto.
Qed.

Lemma untouched_call s d p env c :
  mutating c = false -> stable (untouched s d p) (call env c).
Proof.
  intros Hc w [H1 [H2 [evs [H3 [H4 H5]]]]]. unfold call.
  destruct (gateway env (clock w) (releases w) c) as [r rs].
  split; [exact H1|]. split; [exact H2|].
  exists (evs ++ [Called c])%list. cbn. split; [rewrite H3, app_assoc; reflexivity|].
  split.
  - rewrite saves_app. cbn. rewrite H4. reflexivity.
  - rewrite calls_app, forallb_app. cbn. rewrite H5, Hc. reflexivity.
Qed.

Lemma untouched_log s d p m : stable (untouched s d p) (log m).
Proof.
  intros w [H1 [H2 [evs [H3 [H4 H5]]]]]. split; [exact H1|]. split; [exact H2|].
  exists (evs ++ [Logged m])%list. cbn. split; [rewrite H3, app_assoc; reflexivity|].
  split.
  - rewrite saves_app. cbn. rewrite H4. reflexivity.
  - rewrite calls_app. cbn. rewrite app_nil_r. exact H5.
Qed.

Lemma untouched_date_now s d p : stable (untouched s d p) date_now.
Proof. intros w H. exact H. Qed.

#[export] Hint Resolve untouched_log untouched_date_now : stable_prims.
#[export] Hint Extern 1 (stable (untouched _ _ _) (call _ _)) =>
  apply untouched_call; reflexivity : stable_prims.

(** [bootstrap --dry-run] only plans: whatever the starting state and the
    other options, nothing is saved, the state object is unchanged and no
    mutating command is run. *)
Lemma bootstrap_dry_run_untouched env skipFoundation force s d p :
  stable (untouched s d p)
    (bootstrap env (mkBootstrapOptions true skipFoundation force)).
Proof. stable_auto. Qed.

(** So does [up --dry-run] when the cluster has to be provisioned. *)
Lemma up_dry_run_untouched_when_provisioning env config components_ o w :
  up_dryRun o = true ->
  eks_deployed (mem w) = false \/ up_force o = true ->
  untouched (mem w) (disk w) (trace w) (snd (up env config components_ o w)).
Proof.
  intros Hdry Hneeds.
  assert (H : hoare (untouched (mem w) (disk w) (trace w)) (up env config components_ o)
                (fun _ => untouched (mem w) (disk w) (trace w))
                (fun _ => untouched (mem w) (disk w) (trace w))).
  { unfold up. apply stable_try_catch; [|intros; stable_auto].
    apply stable_bind; [|intros; apply stable_ret].
    unfold up_body. apply stable_bind; [stable_auto|]. intros _.
    eapply hoare_bind with
      (Q' := fun a w' => untouched (mem w) (disk w) (trace w) w' /\ a = mem w).
    { apply hoare_get_state. intros w' Hw'. split; [exact Hw'|].
      destruct Hw' as [Hm _]. exact Hm. }
    intros s.
    assert (Hn : negb (eks_deployed s) || up_force o = true \/ s <> mem w).
    { destruct Hneeds as [Hn|Hn].
      - destruct (negb (eks_deployed s) || up_force o) eqn:E; auto. right.
        intros ->. rewrite Hn in E. discriminate.
      - left. rewrite Hn. apply orb_true_r. }
    destruct Hn as [Hn|Hn].
    - cbv zeta. rewrite Hn, Hdry.
      eapply hoare_conseq with (P' := untouched (mem w) (disk w) (trace w));
        [ | intros w' [Hw' _]; exact Hw' | intros ? ? Hq; exact Hq
          | intros ? ? Hq; exact Hq ].
      change (stable (untouched (mem w) (disk w) (trace w))
                (deployEks env true ;; ret tt)).
      stable_auto.
    - intros w' [_ Hs]. contradiction. }
  exact (stable_snd _ _ w H (untouched_start w)).
Qed.

(** The cluster is up and ready but the essentials were skipped. *)
Definition unprepared_state : LabState :=
  set_cluster (Some true) (Some "lab-context") (Some false) cluster_state.

(** The cluster has no [aurora-credentials] secret yet. *)
Definition secret_missing : Env :=
  sample_env (fun _ c => match c with KubectlGetSecret => NotFound | _ => Success end) "y".

Definition dry_run_up : UpOptions := mkUpOptions true false false false false.

Definition dry_run_on_cluster : Res Z * World :=
  up secret_missing sample_config [] dry_run_up (world_of unprepared_state []).

(** C8 fails for [up] on a cluster that is already provisioned: step 4 of
    [up] has no dry-run guard (step 5 has one), so [lab up --dry-run]
    creates the four namespaces and the credentials secret, and the state
    file is rewritten twice, with [essentials_deployed] now [true]. *)
Theorem up_dry_run_deploys_essentials :
  fst dry_run_on_cluster = Ok 0 /\
  calls (trace (snd dry_run_on_cluster)) =
    [KubectlVersion; AwsVersion; HelmVersion; PsqlVersion;
     KubectlCreateNamespace "spark"; KubectlCreateNamespace "trino";
     KubectlCreateNamespace "polaris"; KubectlCreateNamespace "keycloak";
     KubectlGetSecret; AwsGetSecretValue; KubectlCreateSecret; KubectlGetNodes] /\
  map essentials_deployed (saves (trace (snd dry_run_on_cluster))) =
    [Some true; Some true] /\
  essentials_deployed unprepared_state = Some false /\
  disk (snd dry_run_on_cluster) <> Some unprepared_state.
Proof.
  vm_compute. repeat split; try reflexivity. intros H. discriminate H.
Qed.

(** * The order of undeployment *)

(** ** Progress of the concurrent batch

    [P] is an invariant of the batch and [Q] a goal that, once reached,
    stays.  A branch [achieves] the goal when running its steps in order
    from [P] reaches [Q], whatever the other branches do in between. *)

Section BatchProgress.

Variables P Q : World -> Prop.

Definition never_throws {A} (I : World -> Prop) (m : M A) : Prop :=
  hoare I m (fun _ => I) (fun _ _ => False).

Definition good (b : Branch) : Prop :=
  Forall (stable P) (steps b) /\ Forall (stable Q) (steps b) /\
  (forall e, never_throws P (handler b e)) /\
  (forall e, never_throws Q (handler b e)).

Fixpoint achieves (l : list (M unit)) : Prop :=
  match l with
  | [] => False
  | m :: rest => hoare P m (fun _ w => Q w \/ (P w /\ achieves rest)) (fun _ => Q)
  end.

(** The goal is reached, or the invariant holds and a pending branch (or
    one counted in [X]) achieves the goal. *)
Definition progress (X : Prop) (bs : list Branch) (w : World) : Prop :=
  Q w \/ (P w /\ (Exists (fun b => achieves (steps b)) bs \/ X)).

Lemma step_branch_progress X b :
  good b ->
  hoare (fun w => Q w \/ (P w /\ (achieves (steps b) \/ X)))
    (step_branch b)
    (fun r w =>
       (Q w \/ (P w /\ (match r with
                        | Some b' => achieves (steps b')
                        | None => False
                        end \/ X))) /\
       match r with Some b' => good b' | None => True end)
    (fun _ _ => False).
Proof.
  intros [HP [HQ [HhP HhQ]]]. unfold step_branch.
  destruct (steps b) as [|m rest] eqn:Es.
  - apply hoare_ret. intros w H. split; [|exact I]. cbn in H. exact H.
  - inversion HP as [|? ? HPm HPrest]; subst.
    inversion HQ as [|? ? HQm HQrest]; subst.
    assert (Hg : good (mkBranch rest (handler b))).
    { repeat split; cbn; auto. }
    intros w H. destruct H as [Hq|[Hp [Ha|Hx]]].
    + specialize (HQm w Hq). destruct (m w) as [[a|e] w'].
      * split; [left; exact HQm|]. destruct rest; [exact I|exact Hg].
      * specialize (HhQ e w' HQm). destruct (handler b e w') as [[a|e'] w''];
          [split; [left; exact HhQ|exact I] | exact HhQ].
    + cbn in Ha. specialize (Ha w Hp). destruct (m w) as [[a|e] w'].
      * destruct Ha as [Hq|[Hp' Hr]].
        -- split; [left; exact Hq|]. destruct rest; [exact I|exact Hg].
        -- destruct rest as [|m' rest']; [destruct Hr|].
           split; [right; split; [exact Hp'|left; exact Hr]|exact Hg].
      * specialize (HhQ e w' Ha). destruct (handler b e w') as [[a|e'] w''];
          [split; [left; exact HhQ|exact I] | exact HhQ].
    + specialize (HPm w Hp). destruct (m w) as [[a|e] w'].
      * split; [right; split; [exact HPm|right; exact Hx]|].
        destruct rest; [exact I|exact Hg].
      * specialize (HhP e w' HPm). destruct (handler b e w') as [[a|e'] w''];
          [split; [right; split; [exact HhP|right; exact Hx]|exact I] | exact HhP].
Qed.

Lemma advance_progress bs : forall i X,
  Forall good bs ->
  hoare (progress X bs) (advance i bs)
    (fun bs' w => progress X bs' w /\ Forall good bs') (fun _ _ => False).
Proof.
  induction bs as [|b bs IH]; intros i X Hg; cbn [advance].
  - apply hoare_ret. intros w H. split; [exact H|constructor].
  - inversion Hg as [|? ? Hb Hbs]; subst. destruct i as [|i].
    + eapply hoare_bind.
      * eapply hoare_conseq with
          (P' := fun w => Q w \/ (P w /\ (achieves (steps b) \/
                                          (Exists (fun b => achieves (steps b)) bs \/ X))));
          [apply step_branch_progress; exact Hb | | intros a w H; exact H
          | intros e w H; exact H].
        intros w [Hq|[Hp [He|Hx]]]; [left; exact Hq| |right; split; auto].
        right. split; [exact Hp|]. inversion He; subst; auto.
      * intros r. apply hoare_ret. intros w [H Hr]. destruct r as [b'|].
        -- split; [|constructor; auto]. destruct H as [Hq|[Hp [Ha|[He|Hx]]]].
           ++ left; exact Hq.
           ++ right. split; [exact Hp|]. left. apply Exists_cons_hd. exact Ha.
           ++ right. split; [exact Hp|]. left. apply Exists_cons_tl. exact He.
           ++ right. split; [exact Hp|]. right. exact Hx.
        -- split; [|exact Hbs]. destruct H as [Hq|[Hp [[]|[He|Hx]]]].
           ++ left; exact Hq.
           ++ right. split; [exact Hp|]. left. exact He.
           ++ right. split; [exact Hp|]. right. exact Hx.
    + eapply hoare_bind.
      * eapply hoare_conseq with (P' := progress (achieves (steps b) \/ X) bs);
          [apply IH; exact Hbs | | intros a w H; exact H | intros e w H; exact H].
        intros w [Hq|[Hp [He|Hx]]]; [left; exact Hq| |right; split; auto].
        right. split; [exact Hp|]. inversion He; subst; auto.
      * intros rest. apply hoare_ret. intros w [H Hr]. split; [|constructor; auto].
        destruct H as [Hq|[Hp [He|[Ha|Hx]]]].
        -- left; exact Hq.
        -- right. split; [exact Hp|]. left. apply Exists_cons_tl. exact He.
        -- right. split; [exact Hp|]. left. apply Exists_cons_hd. exact Ha.
        -- right. split; [exact Hp|]. right. exact Hx.
Qed.

Lemma run_branch_steps_progress X h : forall l,
  Forall (stable P) l -> Forall (stable Q) l ->
  (forall e, never_throws P (h e)) -> (forall e, never_throws Q (h e)) ->
  hoare (fun w => Q w \/ (P w /\ (achieves l \/ X)))
    (run_branch_steps l h)
    (fun _ w => Q w \/ (P w /\ X)) (fun _ _ => False).
Proof.
  induction l as [|m rest IH]; intros HP HQ HhP HhQ; cbn [run_branch_steps].
  - apply hoare_ret. intros w [Hq|[Hp [[]|Hx]]]; auto.
  - inversion HP as [|? ? HPm HPrest]; subst.
    inversion HQ as [|? ? HQm HQrest]; subst.
    specialize (IH HPrest HQrest HhP HhQ).
    intros w H. destruct H as [Hq|[Hp [Ha|Hx]]].
    + specialize (HQm w Hq). destruct (m w) as [[a|e] w'].
      * apply IH. left. exact HQm.
      * specialize (HhQ e w' HQm). destruct (h e w') as [[a|e'] w'']; auto.
    + cbn in Ha. specialize (Ha w Hp). destruct (m w) as [[a|e] w'].
      * apply IH. destruct Ha as [Hq|[Hp' Hr]]; auto.
      * specialize (HhQ e w' Ha). destruct (h e w') as [[a|e'] w'']; auto.
    + specialize (HPm w Hp). destruct (m w) as [[a|e] w'].
      * apply IH. auto.
      * specialize (HhP e w' HPm). destruct (h e w') as [[a|e'] w'']; auto.
Qed.

Lemma run_sequential_progress bs : forall X,
  Forall good bs ->
  hoare (progress X bs) (run_sequential bs)
    (fun _ w => Q w \/ (P w /\ X)) (fun _ _ => False).
Proof.
  induction bs as [|b bs IH]; intros X Hg; cbn [run_sequential].
  - apply hoare_ret. intros w [Hq|[Hp [He|Hx]]]; auto. inversion He.
  - inversion Hg as [|? ? [HP [HQ [HhP HhQ]]] Hbs]; subst.
    eapply hoare_bind.
    + eapply hoare_conseq with
        (P' := fun w => Q w \/ (P w /\ (achieves (steps b) \/
                                        (Exists (fun b => achieves (steps b)) bs \/ X))));
        [apply run_branch_steps_progress; assumption | | intros a w H; exact H
        | intros e w H; exact H].
      intros w [Hq|[Hp [He|Hx]]]; [left; exact Hq| |right; split; auto].
      right. split; [exact Hp|]. inversion He; subst; auto.
    + intros u. apply IH. exact Hbs.
Qed.

Lemma promise_all_progress sched : forall bs,
  Forall good bs ->
  hoare (progress False bs) (promise_all sched bs) (fun _ => Q) (fun _ _ => False).
Proof.
  induction sched as [|i sched IH]; intros bs Hg; cbn [promise_all].
  - eapply hoare_conseq;
      [apply (run_sequential_progress bs False Hg) | intros w H; exact H
      | | intros e w H; exact H].
    intros _ w [Hq|[_ []]]. exact Hq.
  - destruct bs as [|b bs'].
    + apply hoare_ret. intros w [Hq|[Hp [He|[]]]]; [exact Hq|inversion He].
    + eapply hoare_bind; [apply advance_progress; exact Hg|].
      intros bs2 w [H Hg2]. apply IH; assumption.
Qed.

End BatchProgress.

Lemma log_never_throws I m : stable I (log m) -> never_throws I (log m).
Proof. intros H w Hw. specialize (H w Hw). exact H. Qed.

(** The branches of the batch are [good] for any [P] and [Q] kept by the
    five commands they run, by the warnings and by the removal of their own
    three records. *)
Lemma undeployPromises_good P Q env s :
  (forall I, I = P \/ I = Q ->
     stable I (call env (KubectlDeleteConfigMap "opa-policies")) /\
     stable I (call env (HelmUninstall "opa")) /\
     stable I (call env KubectlDeleteSparkApplications) /\
     stable I (call env (HelmUninstall "spark-operator")) /\
     stable I (call env (HelmUninstall "trino")) /\
     stable I (clearComponentState Opa) /\
     stable I (clearComponentState Spark) /\
     stable I (clearComponentState Trino) /\
     forall m, stable I (log m)) ->
  Forall (good P Q) (undeployPromises env s).
Proof.
  intros H.
  destruct (H P (or_introl eq_refl)) as [P1 [P2 [P3 [P4 [P5 [P6 [P7 [P8 P9]]]]]]]].
  destruct (H Q (or_intror eq_refl)) as [Q1 [Q2 [Q3 [Q4 [Q5 [Q6 [Q7 [Q8 Q9]]]]]]]].
  assert (Hu : forall I r c, stable I (call env (HelmUninstall r)) ->
                 stable I (clearComponentState c) ->
                 stable I (uninstallChart env r ;; clearComponentState c)).
  { intros I r c Hc Hk. apply stable_bind; [|intros; exact Hk].
    unfold uninstallChart. apply stable_bind; [exact Hc|].
    intros x. destruct x; first [apply stable_ret | apply stable_throw]. }
  assert (Hi : forall I c, stable I (call env c) -> stable I (call_ignore env c)).
  { intros I c Hc. unfold call_ignore. apply stable_bind; [exact Hc|].
    intros; apply stable_ret. }
  unfold undeployPromises.
  repeat (apply Forall_app; split);
    match goal with |- Forall _ (if ?b then _ else _) => destruct b end;
    repeat constructor; cbn; auto;
    intros; unfold undeploy_warning; apply log_never_throws; auto.
Qed.

(** The command [c] was not run since the events [p]. *)
Definition not_called_since (p : list Event) (c : Call) (w : World) : Prop :=
  exists evs, trace w = (p ++ evs)%list /\ ~ In c (calls evs).

Lemma not_called_since_call p c env c' :
  c' <> c -> stable (not_called_since p c) (call env c').
Proof.
  intros Hc w [evs [H1 H2]]. unfold call. destruct (gateway env (clock w) (releases w) c').
  exists (evs ++ [Called c'])%list. cbn. split; [rewrite H1, app_assoc; reflexivity|].
  rewrite calls_app. cbn. intros H. apply in_app_or in H.
  destruct H as [H|[H|[]]]; auto.
Qed.

Lemma not_called_since_log p c m : stable (not_called_since p c) (log m).
Proof.
  intros w [evs [H1 H2]]. exists (evs ++ [Logged m])%list. cbn.
  split; [rewrite H1, app_assoc; reflexivity|].
  rewrite calls_app. cbn. rewrite app_nil_r. exact H2.
Qed.

Lemma not_called_since_clearComponentState p c c' :
  stable (not_called_since p c) (clearComponentState c').
Proof.
  intros w [evs [H1 H2]]. exists (evs ++ [Saved (mem (snd (clearComponentState c' w)))])%list.
  cbn. split; [rewrite H1, app_assoc; reflexivity|].
  rewrite calls_app. cbn. rewrite app_nil_r. exact H2.
Qed.

(** The records of Polaris and Keycloak are those of [s0]. *)
Definition core_records (s0 : LabState) (w : World) : Prop :=
  get_component Polaris (components (mem w)) = get_component Polaris (components s0) /\
  get_component Keycloak (components (mem w)) = get_component Keycloak (components s0).

Lemma core_records_call s0 env c : stable (core_records s0) (call env c).
Proof.
  intros w H. unfold call. destruct (gateway env (clock w) (releases w) c). exact H.
Qed.

Lemma core_records_log s0 m : stable (core_records s0) (log m).
Proof. intros w H. exact H. Qed.

Lemma core_records_clearComponentState s0 c :
  c <> Polaris -> c <> Keycloak -> stable (core_records s0) (clearComponentState c).
Proof.
  intros H1 H2 w [Hp Hk]. split; cbn; destruct c; try congruence; assumption.
Qed.

Lemma has_prefix_clearComponentState p c : stable (has_prefix p) (clearComponentState c).
Proof. unfold clearComponentState. stable_auto. Qed.

Lemma called_since_clearComponentState p c c' :
  stable (called_since p c) (clearComponentState c').
Proof. apply called_since_stable. intros q. apply has_prefix_clearComponentState. Qed.

Lemma called_since_call p c env c' : stable (called_since p c) (call env c').
Proof. apply called_since_stable. intros q. apply has_prefix_call. Qed.

Lemma called_since_log p c m : stable (called_since p c) (log m).
Proof. apply called_since_stable. intros q. apply has_prefix_log. Qed.

(** Uninstalling a release reaches the goal "helm uninstall was run". *)
Lemma uninstall_achieves env p r c :
  hoare (has_prefix p) (uninstallChart env r ;; clearComponentState c)
    (fun _ => called_since p (HelmUninstall r))
    (fun _ => called_since p (HelmUninstall r)).
Proof.
  eapply hoare_bind with (Q' := fun _ => called_since p (HelmUninstall r)).
  - unfold uninstallChart. eapply hoare_bind; [apply call_called_since|].
    intros x. destruct x; first [apply hoare_ret | apply hoare_throw]; auto.
  - intros u. apply called_since_clearComponentState.
Qed.

Lemma last_step_achieves env p r c :
  achieves (has_prefix p) (called_since p (HelmUninstall r))
    [uninstallChart env r ;; clearComponentState c].
Proof.
  cbn [achieves]. intros w Hw. pose proof (uninstall_achieves env p r c w Hw) as H.
  destruct ((uninstallChart env r ;; clearComponentState c) w) as [[a|e] w'];
    [left; exact H|exact H].
Qed.

Lemma call_ok env c w :
  fst (call env c w) = Ok (fst (gateway env (clock w) (releases w) c)).
Proof. unfold call. destruct (gateway env (clock w) (releases w) c). reflexivity. Qed.

Lemma two_steps_achieve env p c0 r c :
  achieves (has_prefix p) (called_since p (HelmUninstall r))
    [call_ignore env c0; (uninstallChart env r ;; clearComponentState c)].
Proof.
  cbn [achieves]. intros w Hw. unfold call_ignore, bind, ret.
  pose proof (has_prefix_call p env c0 w Hw) as H.
  pose proof (call_ok env c0 w) as Hc.
  destruct (call env c0 w) as [[x|e] w'].
  - right. split; [exact H|]. apply (last_step_achieves env p r c).
  - discriminate Hc.
Qed.

Lemma promise_all_reaches P Q sched bs w :
  Forall (good P Q) bs -> progress P Q False bs w ->
  fst (promise_all sched bs w) = Ok tt /\ Q (snd (promise_all sched bs w)).
Proof.
  intros Hg Hp. pose proof (promise_all_progress P Q sched bs Hg w Hp) as H.
  destruct (promise_all sched bs w) as [[[]|e] w']; [split; [reflexivity|exact H]|].
  destruct H.
Qed.

Lemma promise_all_keeps I sched env s w :
  stable I (call env (KubectlDeleteConfigMap "opa-policies")) ->
  stable I (call env (HelmUninstall "opa")) ->
  stable I (call env KubectlDeleteSparkApplications) ->
  stable I (call env (HelmUninstall "spark-operator")) ->
  stable I (call env (HelmUninstall "trino")) ->
  stable I (clearComponentState Opa) ->
  stable I (clearComponentState Spark) ->
  stable I (clearComponentState Trino) ->
  (forall m, stable I (log m)) ->
  I w -> I (snd (promise_all sched (undeployPromises env s) w)).
Proof.
  intros H1 H2 H3 H4 H5 H6 H7 H8 H9 Hw.
  apply (promise_all_reaches I I sched (undeployPromises env s) w).
  - apply undeployPromises_good. intros J [->| ->]; repeat split; assumption.
  - left. exact Hw.
Qed.

Lemma undeployPromises_good_for_call env s p c :
  Forall (good (has_prefix p) (called_since p c)) (undeployPromises env s).
Proof.
  apply undeployPromises_good. intros J [->| ->]; repeat split;
    auto using has_prefix_call, has_prefix_clearComponentState, has_prefix_log,
      called_since_call, called_since_clearComponentState, called_since_log.
Qed.

(** What the concurrent batch does, whatever the schedule and the answers
    of the commands. *)
Lemma batch_outcome env sched w :
  component_deployed (mem w) Trino = true ->
  component_deployed (mem w) Opa = true ->
  fst (promise_all sched (undeployPromises env (mem w)) w) = Ok tt /\
  called_since (trace w) (HelmUninstall "trino")
    (snd (promise_all sched (undeployPromises env (mem w)) w)) /\
  called_since (trace w) (HelmUninstall "opa")
    (snd (promise_all sched (undeployPromises env (mem w)) w)) /\
  (component_deployed (mem w) Spark = true ->
   called_since (trace w) (HelmUninstall "spark-operator")
     (snd (promise_all sched (undeployPromises env (mem w)) w))) /\
  not_called_since (trace w) (HelmUninstall "polaris")
    (snd (promise_all sched (undeployPromises env (mem w)) w)) /\
  not_called_since (trace w) (HelmUninstall "keycloak")
    (snd (promise_all sched (undeployPromises env (mem w)) w)) /\
  core_records (mem w) (snd (promise_all sched (undeployPromises env (mem w)) w)).
Proof.
  intros Ht Ho.
  assert (Hpre : has_prefix (trace w) w) by apply has_prefix_refl.
  assert (Hnc : forall c, not_called_since (trace w) c w).
  { intros c. exists []. rewrite app_nil_r. split; [reflexivity|]. intros []. }
  split; [|split; [|split; [|split; [|split; [|split]]]]].
  - apply (promise_all_reaches (has_prefix (trace w))
             (called_since (trace w) (HelmUninstall "trino"))).
    + apply undeployPromises_good_for_call.
    + right. split; [exact Hpre|]. left. unfold undeployPromises. rewrite Ht.
      apply Exists_app. right. apply Exists_app. right. apply Exists_cons_hd.
      apply last_step_achieves.
  - apply (promise_all_reaches (has_prefix (trace w))
             (called_since (trace w) (HelmUninstall "trino"))).
    + apply undeployPromises_good_for_call.
    + right. split; [exact Hpre|]. left. unfold undeployPromises. rewrite Ht.
      apply Exists_app. right. apply Exists_app. right. apply Exists_cons_hd.
      apply last_step_achieves.
  - apply (promise_all_reaches (has_prefix (trace w))
             (called_since (trace w) (HelmUninstall "opa"))).
    + apply undeployPromises_good_for_call.
    + right. split; [exact Hpre|]. left. unfold undeployPromises. rewrite Ho.
      apply Exists_app. left. apply Exists_cons_hd. apply two_steps_achieve.
  - intros Hs.
    apply (promise_all_reaches (has_prefix (trace w))
             (called_since (trace w) (HelmUninstall "spark-operator"))).
    + apply undeployPromises_good_for_call.
    + right. split; [exact Hpre|]. left. unfold undeployPromises. rewrite Hs.
      apply Exists_app. right. apply Exists_app. left. apply Exists_cons_hd.
      apply two_steps_achieve.
  - apply promise_all_keeps;
      first [ apply not_called_since_call; discriminate
            | apply not_called_since_clearComponentState
            | intros; apply not_called_since_log
            | apply Hnc ].
  - apply promise_all_keeps;
      first [ apply not_called_since_call; discriminate
            | apply not_called_since_clearComponentState
            | intros; apply not_called_since_log
            | apply Hnc ].
  - apply promise_all_keeps;
      first [ apply core_records_call
            | apply core_records_clearComponentState; discriminate
            | intros; apply core_records_log
            | split; reflexivity ].
Qed.

Lemma call_spec env c w :
  exists x rs,
    call env c w =
      (Ok x, mkWorld (mem w) (disk w) rs (clock w + 1) (trace w ++ [Called c])).
Proof.
  unfold call. destruct (gateway env (clock w) (releases w) c) as [x rs].
  exists x, rs. reflexivity.
Qed.

(** One sequential undeploy step: exactly one [helm uninstall], no other
    record touched, and the step returns normally even when helm fails. *)
Lemma undeploy_step env name r c w :
  exists w' evs,
    try_catch (uninstallChart env r ;; clearComponentState c)
              (undeploy_warning name) w = (Ok tt, w') /\
    trace w' = (trace w ++ evs)%list /\
    calls evs = [HelmUninstall r] /\
    forall c', c' <> c ->
      get_component c' (components (mem w')) = get_component c' (components (mem w)).
Proof.
  destruct (call_spec env (HelmUninstall r) w) as [x [rs E]].
  unfold try_catch, bind, uninstallChart, bind. rewrite E.
  destruct x; cbn; eexists; eexists;
    (split; [reflexivity|]);
    (split; [cbn; repeat rewrite <- app_assoc; reflexivity|]);
    (split; [reflexivity|]);
    intros c' Hc; destruct c, c'; try reflexivity; congruence.
Qed.

Lemma in_calls c evs : In (Called c) evs <-> In c (calls evs).
Proof.
  induction evs as [|e evs IH]; cbn; [tauto|].
  destruct e; cbn; split; intros H.
  - destruct H as [H|H]; [left; congruence|right; apply IH; exact H].
  - destruct H as [H|H]; [left; congruence|right; apply IH; exact H].
  - destruct H as [H|H]; [discriminate|apply IH; exact H].
  - right. apply IH. exact H.
  - destruct H as [H|H]; [discriminate|apply IH; exact H].
  - right. apply IH. exact H.
Qed.


(** All five components deployed. *)
Definition full_state : LabState :=
  set_components
    (mkComponents (Some (deployed_record true "keycloak" "keycloak" (Some 30)))
                  (Some (deployed_record true "polaris" "polaris" (Some 40)))
                  (Some (deployed_record true "trino" "trino" (Some 50)))
                  (Some (deployed_record true "spark" "spark-operator" (Some 60)))
                  (Some (deployed_record true "opa" "opa" (Some 70))))
    cluster_state.

Definition full_world : World :=
  world_of full_state ["opa"; "spark-operator"; "trino"; "polaris"; "keycloak"].

(** OPA cannot be uninstalled; everything else succeeds. *)
Definition opa_uninstall_fails : Env :=
  sample_env (fun _ c => match c with
                         | HelmUninstall r => if String.eqb r "opa" then Failure else Success
                         | _ => Success
                         end) "y".

Definition interleaved : list nat := [2; 0; 1; 0]%nat.


(** The same run, computed: the three branches interleave, OPA's failure
    stops no other branch, and Polaris and Keycloak come last. *)
Example undeploy_order_interleaved :
  calls (trace (snd (undeployComponents opa_uninstall_fails interleaved full_world))) =
    [HelmUninstall "trino"; KubectlDeleteConfigMap "opa-policies";
     KubectlDeleteSparkApplications; HelmUninstall "opa";
     HelmUninstall "spark-operator"; HelmUninstall "polaris";
     HelmUninstall "keycloak"].
Proof. reflexivity. Qed.

(** * The state file on disk ([saveState], [state.ts]) *)

Module StateFile.

(** ** [JSON.stringify(state, null, 2)]

    Keys are printed in the order of the [LabState] interface, optional
    fields that are [undefined] are left out, timestamps are printed as the
    clock readings they are in this development, and strings are quoted
    without escaping. *)

#[local] Unset Elimination Schemes.

Inductive Json :=
  | JString (s : string)
  | JNumber (z : Z)
  | JBool (b : bool)
  | JArray (items : list Json)
  | JObject (fields : list (string * Json)).

#[local] Set Elimination Schemes.

Definition newline : string := String (ascii_of_nat 10) EmptyString.
Definition quote : string := String (ascii_of_nat 34) EmptyString.

Fixpoint spaces (n : nat) : string :=
  match n with
  | O => EmptyString
  | S n' => String " " (spaces n')
  end.

Definition number (z : Z) : string := NilZero.string_of_int (Z.to_int z).

Fixpoint print (indent : nat) (j : Json) : string :=
  match j with
  | JString s => quote ++ s ++ quote
  | JNumber z => number z
  | JBool b => if b then "true" else "false"
  | JArray [] => "[]"
  | JArray (x :: xs) =>
      "[" ++ newline ++ spaces (indent + 2) ++ print (indent + 2) x ++
      (fix items (l : list Json) : string :=
         match l with
         | [] => EmptyString
         | y :: l' =>
             "," ++ newline ++ spaces (indent + 2) ++ print (indent + 2) y ++ items l'
         end) xs ++
      newline ++ spaces indent ++ "]"
  | JObject [] => "{}"
  | JObject ((k, v) :: fs) =>
      "{" ++ newline ++ spaces (indent + 2) ++ quote ++ k ++ quote ++ ": " ++
      print (indent + 2) v ++
      (fix fields (l : list (string * Json)) : string :=
         match l with
         | [] => EmptyString
         | (k', v') :: l' =>
             "," ++ newline ++ spaces (indent + 2) ++ quote ++ k' ++ quote ++ ": " ++
             print (indent + 2) v' ++ fields l'
         end) fs ++
      newline ++ spaces indent ++ "}"
  end.

Definition field {A} (k : string) (f : A -> Json) (o : option A) : list (string * Json) :=
  match o with
  | Some a => [(k, f a)]
  | None => []
  end.

Definition json_of_bootstrap_outputs (o : BootstrapOutputs) : Json :=
  JObject [("state_bucket", JString (state_bucket o));
           ("state_lock_table", JString (state_lock_table o))].

Definition json_of_foundation_outputs (o : FoundationOutputs) : Json :=
  JObject [("vpc_id", JString (vpc_id o));
           ("private_subnet_ids", JArray (map JString (private_subnet_ids o)));
           ("public_subnet_ids", JArray (map JString (public_subnet_ids o)));
           ("aurora_cluster_endpoint", JString (aurora_cluster_endpoint o));
           ("aurora_cluster_reader_endpoint", JString (aurora_cluster_reader_endpoint o));
           ("aurora_security_group_id", JString (aurora_security_group_id o));
           ("aurora_secret_arn", JString (aurora_secret_arn o));
           ("iam_policy_s3_arn", JString (iam_policy_s3_arn o));
           ("data_bucket", JString (data_bucket o));
           ("data_bucket_arn", JString (data_bucket_arn o));
           ("logs_bucket", JString (logs_bucket o));
           ("logs_bucket_arn", JString (logs_bucket_arn o))].

Definition json_of_eks_outputs (o : EksOutputs) : Json :=
  JObject [("cluster_name", JString (cluster_name o));
           ("cluster_endpoint", JString (cluster_endpoint o));
           ("oidc_provider_arn", JString (oidc_provider_arn o))].

Definition json_of_component (c : ComponentState) : Json :=
  JObject ([("deployed", JBool (deployed c))] ++
           field "version" JString (component_version c) ++
           field "namespace" JString (namespace c) ++
           field "release_name" JString (release_name c) ++
           field "deployed_at" JNumber (deployed_at c)).

Definition json_of_components (cs : Components) : Json :=
  JObject (field "keycloak" json_of_component (keycloak cs) ++
           field "polaris" json_of_component (polaris cs) ++
           field "trino" json_of_component (trino cs) ++
           field "spark" json_of_component (spark cs) ++
           field "opa" json_of_component (opa cs)).

Definition json_of_state (s : LabState) : Json :=
  JObject ([("version", JString (version s));
            ("lab_name", JString (lab_name s));
            ("created_at", JNumber (created_at s));
            ("updated_at", JNumber (updated_at s));
            ("bootstrapped", JBool (bootstrapped s))] ++
           field "bootstrap_outputs" json_of_bootstrap_outputs (bootstrap_outputs s) ++
           [("foundation_deployed", JBool (foundation_deployed s))] ++
           field "foundation_outputs" json_of_foundation_outputs (foundation_outputs s) ++
           [("eks_deployed", JBool (eks_deployed s))] ++
           field "eks_outputs" json_of_eks_outputs (eks_outputs s) ++
           field "cluster_ready" JBool (cluster_ready s) ++
           field "cluster_context" JString (cluster_context s) ++
           field "essentials_deployed" JBool (essentials_deployed s) ++
           [("components", json_of_components (components s))]).

Definition stringify (s : LabState) : string := print 0 (json_of_state s).

(** ** The file system

    [writeFileSync(path, data)] opens the file with flag [w], which
    truncates it, and then writes the data; a process that stops in between
    leaves a prefix of the data.  [renameSync] replaces the destination in
    one step. *)

Inductive FsOp :=
  | WriteFile (path content : string)
  | Rename (src dst : string).

Definition Fs := list (string * string).

Fixpoint read (path : string) (fs : Fs) : option string :=
  match fs with
  | [] => None
  | (p, c) :: fs' => if String.eqb p path then Some c else read path fs'
  end.

Fixpoint unlink (path : string) (fs : Fs) : Fs :=
  match fs with
  | [] => []
  | (p, c) :: fs' => if String.eqb p path then unlink path fs' else (p, c) :: unlink path fs'
  end.

Definition apply_op (op : FsOp) (fs : Fs) : Fs :=
  match op with
  | WriteFile p c => (p, c) :: fs
  | Rename a b =>
      match read a fs with
      | Some c => (b, c) :: unlink a fs
      | None => fs
      end
  end.

Fixpoint run (ops : list FsOp) (fs : Fs) : Fs :=
  match ops with
  | [] => fs
  | op :: ops' => run ops' (apply_op op fs)
  end.

Fixpoint prefixes (s : string) : list string :=
  EmptyString ::
  match s with
  | EmptyString => []
  | String a s' => map (String a) (prefixes s')
  end.

(** The file systems a process can leave behind when it stops before or
    during [op]. *)
Definition crash_states_op (op : FsOp) (fs : Fs) : list Fs :=
  match op with
  | WriteFile p c => fs :: map (fun pre => (p, pre) :: fs) (prefixes c)
  | Rename _ _ => [fs]
  end.

Fixpoint crash_states (ops : list FsOp) (fs : Fs) : list Fs :=
  match ops with
  | [] => [fs]
  | op :: ops' => (crash_states_op op fs ++ crash_states ops' (apply_op op fs))%list
  end.

Definition state_file : string := ".lab/state.json".

(** [saveState] at the level of the file system: the refreshed record and
    the operations performed, [t] being the reading of the clock. *)
Definition saveState_ops (t : Z) (s : LabState) : LabState * list FsOp :=
  let s' := set_updated_at t s in
  (s', [WriteFile state_file (stringify s')]).

(** Modelled from the spec: the all-or-nothing protocol the specification
    asks of an implementer, write to a temporary file and rename it over the
    state file.  It is not what [saveState] does; it is here for comparison. *)
Definition save_via_rename (t : Z) (s : LabState) : LabState * list FsOp :=
  let s' := set_updated_at t s in
  (s', [WriteFile ".lab/state.json.tmp" (stringify s');
        Rename ".lab/state.json.tmp" state_file]).

Lemma prefixes_prefix s : forall pre, In pre (prefixes s) -> String.prefix pre s = true.
Proof.
  induction s as [|a s IH]; intros pre H; cbn in H.
  - destruct H as [<-|[]]. reflexivity.
  - destruct H as [<-|H]; [reflexivity|].
    apply in_map_iff in H. destruct H as [pre' [<- H]]. cbn.
    destruct (ascii_dec a a) as [_|Hn]; [apply IH; exact H|congruence].
Qed.

Lemma prefixes_empty s : In EmptyString (prefixes s).
Proof. destruct s; left; reflexivity. Qed.

Lemma prefixes_full s : In s (prefixes s).
Proof.
  induction s as [|a s IH]; [left; reflexivity|].
  right. apply in_map. exact IH.
Qed.

Lemma read_state_file_tmp c fs :
  read state_file ((".lab/state.json.tmp", c) :: fs) = read state_file fs.
Proof. reflexivity. Qed.

(** The protocol of the specification is all-or-nothing in this model: the
    state file holds the old record until the rename and the new one after. *)
Lemma save_via_rename_all_or_nothing t s fs fs' :
  In fs' (crash_states (snd (save_via_rename t s)) fs) ->
  read state_file fs' = read state_file fs \/
  read state_file fs' = Some (stringify (fst (save_via_rename t s))).
Proof.
  cbn [save_via_rename snd fst crash_states crash_states_op apply_op].
  intros H. apply in_app_or in H. destruct H as [[<-|H]|H].
  - left; reflexivity.
  - apply in_map_iff in H. destruct H as [pre [<- _]]. left. reflexivity.
  - cbn [read String.eqb] in H.
    replace (".lab/state.json.tmp" =? ".lab/state.json.tmp")%string with true in H
      by reflexivity.
    cbn [app In] in H. destruct H as [<-|[<-|[]]].
    + left. reflexivity.
    + right. reflexivity.
Qed.

(** C4, as the code has it. [saveState] refreshes [updated_at] and rewrites
    the state file in place: its only file operation is one [writeFileSync]
    of the full serialized record on the state file itself, with no
    temporary file and no rename.  A save that completes leaves exactly the
    new record in the file (and in the orchestrator's view of the disk).  A
    save that is interrupted leaves the file as it was or holding a prefix
    of the new record, and every prefix is possible: the write is not
    all-or-nothing. *)
Theorem saveState_writes_in_place t s fs :
  fst (saveState_ops t s) = set_updated_at t s /\
  updated_at (fst (saveState_ops t s)) = t /\
  snd (saveState_ops t s) = [WriteFile state_file (stringify (set_updated_at t s))] /\
  read state_file (run (snd (saveState_ops t s)) fs) =
    Some (stringify (set_updated_at t s)) /\
  (forall w, mem (snd (saveState w)) = fst (saveState_ops (clock w) (mem w)) /\
             disk (snd (saveState w)) = Some (fst (saveState_ops (clock w) (mem w)))) /\
  (forall fs', In fs' (crash_states (snd (saveState_ops t s)) fs) ->
     read state_file fs' = read state_file fs \/
     exists pre, read state_file fs' = Some pre /\
                 String.prefix pre (stringify (set_updated_at t s)) = true) /\
  (forall pre, In pre (prefixes (stringify (set_updated_at t s))) ->
     In ((state_file, pre) :: fs) (crash_states (snd (saveState_ops t s)) fs)).
Proof.
  split; [reflexivity|]. split; [reflexivity|]. split; [reflexivity|].
  split; [reflexivity|]. split; [intros w; split; reflexivity|]. split.
  - cbn [saveState_ops snd crash_states crash_states_op apply_op].
    intros fs' H. apply in_app_or in H. destruct H as [[<-|H]|[<-|[]]].
    + left. reflexivity.
    + apply in_map_iff in H. destruct H as [pre [<- H]]. right. exists pre.
      split; [reflexivity|]. apply prefixes_prefix. exact H.
    + right. exists (stringify (set_updated_at t s)). split; [reflexivity|].
      apply prefixes_prefix. apply prefixes_full.
  - intros pre H. cbn [saveState_ops snd crash_states crash_states_op].
    apply in_or_app. left. right.
    apply (in_map (fun pre => (state_file, pre) :: fs)). exact H.
Qed.

(** The state file holds the record of [bootstrapped_state]. *)
Definition old_fs : Fs := [(state_file, stringify bootstrapped_state)].

(** The state file was opened for writing and nothing was written yet. *)
Definition truncated_fs : Fs := (state_file, EmptyString) :: old_fs.

(** C4 as stated fails: a save of [bootstrapped_state] at time 11 that is
    interrupted right after the file was opened leaves an empty state file,
    which is neither the old record nor the new one. *)
Lemma saveState_can_truncate :
  In truncated_fs (crash_states (snd (saveState_ops 11 bootstrapped_state)) old_fs) /\
  read state_file truncated_fs <> read state_file old_fs /\
  read state_file truncated_fs <>
    Some (stringify (fst (saveState_ops 11 bootstrapped_state))).
Proof.
  split; [|split].
  - cbn [saveState_ops snd crash_states crash_states_op].
    apply in_or_app. left. right.
    apply (in_map (fun pre => (state_file, pre) :: old_fs)). apply prefixes_empty.
  - intros H. vm_compute in H. discriminate H.
  - intros H. vm_compute in H. discriminate H.
Qed.

End StateFile.

(** * The phase flags of persisted states *)

(** [cluster_ready => eks_deployed => foundation_deployed => bootstrapped];
    an absent [cluster_ready] counts as false. *)
Definition chain (s : LabState) : Prop :=
  (truthy (cluster_ready s) = true -> eks_deployed s = true) /\
  (eks_deployed s = true -> foundation_deployed s = true) /\
  (foundation_deployed s = true -> bootstrapped s = true).

Definition disk_chain (w : World) : Prop :=
  match disk w with
  | Some s => chain s
  | None => True
  end.

(** The state object satisfies [F], and the state file and every record
    saved since the events [p] satisfy [chain]. *)
Definition phases (F : LabState -> Prop) (p : list Event) (w : World) : Prop :=
  F (mem w) /\ disk_chain w /\
  exists evs, trace w = (p ++ evs)%list /\ Forall chain (saves evs).

(** The strengthenings of [chain] that hold along the commands. *)
Definition chain_bootstrapped (s : LabState) : Prop :=
  chain s /\ bootstrapped s = true.

Definition chain_foundation (s : LabState) : Prop :=
  chain s /\ foundation_deployed s = true.

Definition chain_cluster (s : LabState) : Prop :=
  chain s /\ foundation_deployed s = true /\ eks_deployed s = true.

Section Phases.

Variable F : LabState -> Prop.
Hypothesis F_chain : forall s, F s -> chain s.
Variable p : list Event.

Lemma phases_call env c : stable (phases F p) (call env c).
Proof.
  intros w [H1 [H2 [evs [H3 H4]]]]. unfold call.
  destruct (gateway env (clock w) (releases w) c).
  split; [exact H1|]. split; [exact H2|].
  exists (evs ++ [Called c])%list. cbn. split; [rewrite H3, app_assoc; reflexivity|].
  rewrite saves_app. cbn. rewrite app_nil_r. exact H4.
Qed.

Lemma phases_log m : stable (phases F p) (log m).
Proof.
  intros w [H1 [H2 [evs [H3 H4]]]]. split; [exact H1|]. split; [exact H2|].
  exists (evs ++ [Logged m])%list. cbn. split; [rewrite H3, app_assoc; reflexivity|].
  rewrite saves_app. cbn. rewrite app_nil_r. exact H4.
Qed.

Lemma phases_date_now : stable (phases F p) date_now.
Proof. intros w H. exact H. Qed.

Lemma phases_writeFileSync : stable (phases F p) writeFileSync.
Proof.
  intros w [H1 [H2 [evs [H3 H4]]]]. split; [exact H1|].
  split; [exact (F_chain _ H1)|].
  exists (evs ++ [Saved (mem w)])%list. cbn. split; [rewrite H3, app_assoc; reflexivity|].
  rewrite saves_app. cbn. apply Forall_app. split; [exact H4|].
  constructor; [exact (F_chain _ H1)|constructor].
Qed.

Lemma phases_modify_state f :
  (forall s, F s -> F (f s)) -> stable (phases F p) (modify_state f).
Proof. intros Hf w [H1 H2]. split; [apply Hf; exact H1|exact H2]. Qed.

End Phases.

(** Moving from one strengthening to another. *)
Lemma phases_weaken (F G : LabState -> Prop) p w :
  (forall s, F s -> G s) -> phases F p w -> phases G p w.
Proof. intros H [H1 H2]. split; [apply H; exact H1|exact H2]. Qed.

Lemma phases_strengthen (F G : LabState -> Prop) p w :
  G (mem w) -> phases F p w -> phases G p w.
Proof. intros H [H1 H2]. split; [exact H|exact H2]. Qed.

Ltac chain_solve :=
  unfold chain_bootstrapped, chain_foundation, chain_cluster, chain, clear_ephemeral;
  cbn; intros;
  repeat match goal with
         | H : _ /\ _ |- _ => destruct H
         end;
  repeat split; auto; try congruence; try discriminate.

#[export] Hint Extern 1 (stable (phases _ _) (call _ _)) => apply phases_call
  : stable_prims.
#[export] Hint Extern 1 (stable (phases _ _) (log _)) => apply phases_log
  : stable_prims.
#[export] Hint Extern 1 (stable (phases _ _) date_now) => apply phases_date_now
  : stable_prims.
#[export] Hint Extern 1 (stable (phases _ _) writeFileSync) =>
  apply phases_writeFileSync; solve [chain_solve] : stable_prims.
#[export] Hint Extern 1 (stable (phases _ _) (modify_state _)) =>
  apply phases_modify_state; solve [chain_solve] : stable_prims.

Lemma hoare_of_stable {A} (I : World -> Prop) (m : M A)
    (Q : A -> World -> Prop) (E : string -> World -> Prop) :
  stable I m -> (forall a w, I w -> Q a w) -> (forall e w, I w -> E e w) ->
  hoare I m Q E.
Proof. intros H HQ HE. eapply hoare_conseq; [exact H| | |]; cbn; auto. Qed.

Lemma chain_bootstrapped_chain s : chain_bootstrapped s -> chain s.
Proof. intros [H _]. exact H. Qed.

Lemma chain_foundation_chain s : chain_foundation s -> chain s.
Proof. intros [H _]. exact H. Qed.

Lemma chain_cluster_chain s : chain_cluster s -> chain s.
Proof. intros [H _]. exact H. Qed.

Ltac weaken_phases :=
  intros;
  match goal with
  | H : phases ?F ?p ?w |- phases ?G ?p ?w =>
      apply (phases_weaken F G p w);
      [ first [ exact chain_bootstrapped_chain
              | exact chain_foundation_chain
              | exact chain_cluster_chain
              | exact (fun s H => H) ]
      | exact H ]
  end.

(** ** [bootstrap] *)

Lemma bootstrap_dry_run_phases env skipFoundation force p :
  stable (phases chain p) (bootstrap env (mkBootstrapOptions true skipFoundation force)).
Proof. stable_auto. Qed.

Lemma bootstrap_rest_phases env skipFoundation force p :
  stable (phases chain_bootstrapped p)
    (bootstrap_rest env (mkBootstrapOptions false skipFoundation force)).
Proof. stable_auto. Qed.

Lemma bootstrapStateBackend_phases env p :
  hoare (phases chain p) (bootstrapStateBackend env false)
    (fun _ => phases chain_bootstrapped p) (fun _ => phases chain p).
Proof.
  unfold bootstrapStateBackend.
  eapply hoare_bind with (Q' := fun _ => phases chain p);
    [apply hoare_of_stable; [stable_auto|auto|auto]|]. intros _.
  eapply hoare_bind with (Q' := fun _ => phases chain p);
    [apply hoare_of_stable; [stable_auto|auto|auto]|]. intros _.
  eapply hoare_bind with (Q' := fun _ => phases chain p);
    [apply hoare_of_stable; [stable_auto|auto|auto]|]. intros _.
  eapply hoare_bind with (Q' := fun _ => phases chain p);
    [apply hoare_of_stable; [stable_auto|auto|auto]|]. intros outputs.
  unfold updateBootstrapState.
  eapply hoare_bind with (Q' := fun _ => phases chain_bootstrapped p).
  - intros w [H1 H2]. split; [|exact H2]. revert H1. chain_solve.
  - intros _. apply hoare_of_stable; [unfold saveState; stable_auto|auto|].
    weaken_phases.
Qed.

Lemma bootstrap_phases env o p : stable (phases chain p) (bootstrap env o).
Proof.
  destruct o as [dryRun skipFoundation force]. destruct dryRun.
  { apply bootstrap_dry_run_phases. }
  assert (Hrest : hoare (phases chain_bootstrapped p)
                    (bootstrap_rest env (mkBootstrapOptions false skipFoundation force))
                    (fun _ => phases chain p) (fun _ => phases chain p)).
  { apply hoare_of_stable; [apply bootstrap_rest_phases| |]; weaken_phases. }
  unfold bootstrap.
  eapply hoare_bind with (Q' := fun a w => phases chain p w /\ a = mem w).
  { apply hoare_get_state. auto. }
  intros s. cbn [bootstrap_force bootstrap_skipFoundation bootstrap_dryRun].
  destruct (bootstrapped s && negb force) eqn:Eb.
  - apply andb_true_iff in Eb. destruct Eb as [Eb _].
    eapply hoare_bind with (Q' := fun _ => phases chain_bootstrapped p).
    { intros w [H ->]. apply (phases_log chain_bootstrapped p).
      apply (phases_strengthen chain); [|exact H]. split; [apply H|exact Eb]. }
    intros _. destruct (negb (foundation_deployed s) && negb skipFoundation).
    + eapply hoare_bind with (Q' := fun _ => phases chain_bootstrapped p);
        [apply hoare_of_stable; [stable_auto|auto|auto]|].
      * weaken_phases.
      * intros _. exact Hrest.
    + destruct (foundation_deployed s).
      * apply hoare_of_stable; [stable_auto| |]; weaken_phases.
      * exact Hrest.
  - eapply hoare_bind with (Q' := fun _ => phases chain_bootstrapped p).
    + eapply hoare_conseq;
        [ apply bootstrapStateBackend_phases
        | intros w [H _]; exact H
        | intros a w H; exact H
        | intros e w H; exact H ].
    + intros _. exact Hrest.
Qed.

(** ** [up] *)

Lemma preFlightChecks_phases env skipComponents p :
  hoare (phases chain p) (preFlightChecks env skipComponents)
    (fun _ => phases chain_foundation p) (fun _ => phases chain p).
Proof.
  unfold preFlightChecks.
  eapply hoare_bind with (Q' := fun _ => phases chain p);
    [apply hoare_of_stable; [stable_auto|auto|auto]|]. intros _.
  eapply hoare_bind with (Q' := fun a w => phases chain p w /\ a = mem w).
  { apply hoare_get_state. auto. }
  intros s.
  destruct (negb (foundation_deployed s) || negb (is_some (bootstrap_outputs s))) eqn:E.
  - apply hoare_throw. intros w [H _]. exact H.
  - apply orb_false_iff in E. destruct E as [E _]. apply negb_false_iff in E.
    eapply hoare_conseq with (P' := phases chain_foundation p)
                             (Q' := fun _ => phases chain_foundation p)
                             (E' := fun _ => phases chain_foundation p).
    + match goal with |- hoare ?I ?m _ _ => change (stable I m) end. stable_auto.
    + intros w [H ->]. apply (phases_strengthen chain); [|exact H].
      split; [apply H|exact E].
    + auto.
    + weaken_phases.
Qed.

Lemma updateEksState_phases outputs p :
  hoare (phases chain_foundation p) (updateEksState outputs)
    (fun _ => phases chain_cluster p) (fun _ => phases chain p).
Proof.
  unfold updateEksState.
  eapply hoare_bind with (Q' := fun _ => phases chain_cluster p).
  - intros w [H1 H2]. split; [|exact H2]. revert H1. chain_solve.
  - intros _. apply hoare_of_stable; [stable_auto|auto|]. weaken_phases.
Qed.

Lemma deployEks_phases env p :
  hoare (phases chain_foundation p) (deployEks env false)
    (fun _ => phases chain_cluster p) (fun _ => phases chain p).
Proof.
  unfold deployEks.
  eapply hoare_bind with (Q' := fun _ => phases chain_foundation p);
    [apply hoare_of_stable; [stable_auto|auto|weaken_phases]|]. intros _.
  eapply hoare_bind with (Q' := fun _ => phases chain_foundation p);
    [apply hoare_of_stable; [stable_auto|auto|weaken_phases]|]. intros _.
  eapply hoare_bind with (Q' := fun _ => phases chain_foundation p);
    [apply hoare_of_stable; [stable_auto|auto|weaken_phases]|]. intros _.
  eapply hoare_bind with (Q' := fun _ => phases chain_foundation p);
    [apply hoare_of_stable; [stable_auto|auto|weaken_phases]|]. intros _.
  eapply hoare_bind with (Q' := fun _ => phases chain_foundation p);
    [apply hoare_of_stable; [stable_auto|auto|weaken_phases]|]. intros outputs.
  apply updateEksState_phases.
Qed.

Lemma deployEks_dry_run_phases env p :
  stable (phases chain_foundation p) (deployEks env true).
Proof. stable_auto. Qed.

Lemma up_after_provisioning_phases env config needsProvisioning components_ o p :
  stable (phases chain_cluster p)
    (up_after_provisioning env config needsProvisioning components_ o).
Proof. stable_auto. Qed.

Lemma up_phases env config components_ o p :
  stable (phases chain p) (up env config components_ o).
Proof.
  unfold up. apply stable_try_catch; [|intros; stable_auto].
  apply stable_bind; [|intros; apply stable_ret].
  unfold up_body.
  eapply hoare_bind; [apply preFlightChecks_phases|]. intros u.
  eapply hoare_bind with (Q' := fun a w => phases chain_foundation p w /\ a = mem w).
  { apply hoare_get_state. auto. }
  intros s. cbv zeta.
  assert (Hafter : forall np,
             hoare (phases chain_cluster p)
               (up_after_provisioning env config np components_ o)
               (fun _ => phases chain p) (fun _ => phases chain p)).
  { intros np. apply hoare_of_stable;
      [apply up_after_provisioning_phases|weaken_phases|weaken_phases]. }
  destruct (negb (eks_deployed s) || up_force o) eqn:En.
  - destruct (up_dryRun o).
    + eapply hoare_conseq with (P' := phases chain_foundation p)
                               (Q' := fun _ => phases chain_foundation p)
                               (E' := fun _ => phases chain_foundation p).
      * match goal with |- hoare ?I ?m _ _ => change (stable I m) end.
        apply stable_bind; [apply deployEks_dry_run_phases|intros; apply stable_ret].
      * intros w [H _]. exact H.
      * weaken_phases.
      * weaken_phases.
    + eapply hoare_bind with (Q' := fun _ => phases chain_cluster p).
      * eapply hoare_conseq;
          [ apply deployEks_phases
          | intros w [H _]; exact H
          | intros a w H; exact H
          | intros e w H; exact H ].
      * intros _. apply Hafter.
  - apply orb_false_iff in En. destruct En as [En _]. apply negb_false_iff in En.
    eapply hoare_bind with (Q' := fun _ => phases chain_cluster p).
    + intros w [H ->]. apply (phases_log chain_cluster p).
      apply (phases_strengthen chain_foundation); [|exact H].
      destruct H as [[Hc Hf] _]. split; [exact Hc|]. split; [exact Hf|exact En].
    + intros _. apply Hafter.
Qed.

(** ** [down] *)

Lemma destroy_tail_phases p :
  stable (phases chain p)
    (modify_state (fun s => set_foundation false None (set_bootstrap false None s)) ;;
     clearEphemeralState ;;
     saveState).
Proof.
  intros w [H1 [H2 [evs [H3 H4]]]]. cbn.
  assert (Hc : forall t, chain (set_updated_at t (clear_ephemeral
                 (set_foundation false None (set_bootstrap false None (mem w)))))).
  { intros t. unfold chain. cbn. repeat split; intros; congruence. }
  split; [apply Hc|]. split; [apply Hc|].
  eexists. split.
  - rewrite H3. repeat rewrite <- app_assoc. reflexivity.
  - rewrite saves_app. cbn. apply Forall_app. split; [exact H4|].
    repeat constructor; apply Hc.
Qed.

Lemma destroyAll_phases env p : stable (phases chain p) (destroyAll env).
Proof.
  unfold destroyAll.
  apply stable_bind; [stable_auto|]. intros _.
  apply stable_bind; [stable_auto|]. intros s1.
  apply stable_bind; [stable_auto|]. intros _.
  apply stable_bind; [stable_auto|]. intros s2.
  apply stable_bind; [stable_auto|]. intros _.
  apply stable_bind; [stable_auto|]. intros s3.
  apply stable_bind; [stable_auto|]. intros _.
  apply destroy_tail_phases.
Qed.

Lemma down_teardown_phases env sched p :
  stable (phases chain p) (down_teardown env sched).
Proof. stable_auto; try stable_batch. Qed.

Lemma down_phases env config sched o p :
  stable (phases chain p) (down env config sched o).
Proof.
  unfold down. apply stable_try_catch; [|intros; stable_auto].
  apply stable_bind; [|intros; apply stable_ret].
  unfold down_body. apply stable_bind; [apply stable_get_state|]. intros s.
  destruct (negb (eks_deployed s)); [stable_auto|].
  destruct (down_destroyFoundation o).
  - apply stable_bind; [stable_auto|]. intros _.
    apply stable_bind; [stable_auto|]. intros confirmed.
    destruct (negb confirmed); [stable_auto|].
    apply stable_bind; [apply destroyAll_phases|]. intros; stable_auto.
  - destruct (negb (down_force o)).
    + apply stable_bind; [stable_auto|]. intros _.
      apply stable_bind; [stable_auto|]. intros confirmed.
      destruct (negb confirmed); [stable_auto|apply down_teardown_phases].
    + apply down_teardown_phases.
Qed.

(** ** Every command, across invocations *)

Lemma run_command_phases env config c p :
  stable (phases chain p) (run_command env config c).
Proof.
  destruct c as [o|components_ o|sched o]; unfold run_command;
    (apply stable_try_catch; [|intros; stable_auto]).
  - apply stable_bind; [apply bootstrap_phases|intros; apply stable_ret].
  - apply up_phases.
  - apply down_phases.
Qed.

Definition disk_ok (p : Persistent) : Prop :=
  match p_disk p with
  | Some s => chain s
  | None => True
  end.

Lemma start_phases config p : disk_ok p -> phases chain [] (start config p).
Proof.
  intros H. unfold start, loadState, disk_ok in *.
  destruct (p_disk p) as [s|].
  - split; [exact H|]. split; [exact H|]. exists []. split; [reflexivity|constructor].
  - split; [|split; [exact I|exists []; split; [reflexivity|constructor]]].
    unfold chain. cbn. repeat split; intros; congruence.
Qed.

(** The persistent situations the CLI can be in: no state file yet, or what
    an invocation of a command leaves. *)
Inductive reachable : Persistent -> Prop :=
  | reachable_fresh rs t : reachable (mkPersistent None rs t)
  | reachable_after env config c p :
      reachable p -> reachable (persist (snd (lab env config c p))).

Lemma reachable_disk_ok p : reachable p -> disk_ok p.
Proof.
  induction 1 as [rs t|env config c p Hr IH].
  - exact I.
  - pose proof (stable_snd _ _ _ (run_command_phases env config c [])
                  (start_phases config p IH)) as [_ [Hd _]].
    exact Hd.
Qed.

(** C2. Starting from a lab with no state file and running any sequence of
    [bootstrap], [up] and [down] invocations (any options, any answers of
    the external tools), every record an invocation writes to the state
    file satisfies [cluster_ready => eks_deployed => foundation_deployed =>
    bootstrapped]; in particular none has [cluster_ready = true] with
    [foundation_deployed = false]. *)
Theorem persisted_states_keep_phase_order p env config c s :
  reachable p ->
  In s (saves (trace (snd (lab env config c p)))) ->
  chain s /\ ~ (cluster_ready s = Some true /\ foundation_deployed s = false).
Proof.
  intros Hr Hin.
  pose proof (stable_snd _ _ _ (run_command_phases env config c [])
                (start_phases config p (reachable_disk_ok p Hr)))
    as [_ [_ [evs [Ht Hs]]]].
  unfold lab in Hin. rewrite Ht in Hin. cbn [app] in Hin.
  assert (Hc : chain s) by (rewrite Forall_forall in Hs; apply Hs; exact Hin).
  split; [exact Hc|]. intros [H1 H2]. destruct Hc as [Ha [Hb _]].
  rewrite H1 in Ha. cbn in Ha. rewrite Hb in H2 by (apply Ha; reflexivity).
  discriminate.
Qed.

(** A lab bootstrapped from scratch, then brought up. *)
Definition after_bootstrap : Persistent :=
  persist (snd (lab all_succeed sample_config
                  (CmdBootstrap (mkBootstrapOptions false false false))
                  (mkPersistent None [] 0))).

Lemma last_In {A} (l : list A) d : l <> [] -> In (last l d) l.
Proof.
  induction l as [|x l IH]; [congruence|]. intros _. destruct l as [|y l].
  - left. reflexivity.
  - right. apply IH. discriminate.
Qed.

Lemma persisted_states_keep_phase_order_witness :
  reachable after_bootstrap /\
  In (last (saves (trace (snd (lab all_succeed sample_config (CmdUp [] plain_up)
                                 after_bootstrap))))
           (initial_state "lab" 0 0))
     (saves (trace (snd (lab all_succeed sample_config (CmdUp [] plain_up)
                           after_bootstrap)))) /\
  chain (last (saves (trace (snd (lab all_succeed sample_config (CmdUp [] plain_up)
                                    after_bootstrap))))
              (initial_state "lab" 0 0)).
Proof.
  assert (Hr : reachable after_bootstrap).
  { exact (reachable_after all_succeed sample_config
             (CmdBootstrap (mkBootstrapOptions false false false))
             (mkPersistent None [] 0) (reachable_fresh [] 0)). }
  assert (Hin : In (last (saves (trace (snd (lab all_succeed sample_config
                                               (CmdUp [] plain_up) after_bootstrap))))
                         (initial_state "lab" 0 0))
                   (saves (trace (snd (lab all_succeed sample_config
                                         (CmdUp [] plain_up) after_bootstrap))))).
  { apply last_In. intros H. vm_compute in H. discriminate H. }
  split; [exact Hr|]. split; [exact Hin|].
  exact (proj1 (persisted_states_keep_phase_order after_bootstrap all_succeed
                  sample_config (CmdUp [] plain_up) _ Hr Hin)).
Defined.

(** The record that run leaves on disk has all four flags set. *)
Example phases_after_first_up :
  option_map (fun s => (bootstrapped s, foundation_deployed s, eks_deployed s,
                        cluster_ready s))
    (disk (snd (lab all_succeed sample_config (CmdUp [] plain_up) after_bootstrap))) =
  Some (true, true, true, Some true).
Proof. vm_compute. reflexivity. Qed.

(** * Running [up] a second time *)

Definition release_of (c : ComponentName) : string :=
  match c with
  | Keycloak => "keycloak"
  | Polaris => "polaris"
  | Trino => "trino"
  | Spark => "spark-operator"
  | Opa => "opa"
  end.

Definition namespace_of (c : ComponentName) : string :=
  match c with
  | Keycloak => "keycloak"
  | Polaris => "polaris"
  | Trino => "trino"
  | Spark => "spark"
  | Opa => "opa"
  end.

(** Whether [deployComponents] runs the stage of [c]. *)
Definition requested (componentArgs : list string) (all : bool) (c : ComponentName) : bool :=
  includes (componentsToDeploy componentArgs all) (namespace_of c).

(** [c] is deployed: its release is in the cluster and the state records
    it, with or without a deployment time. *)
Definition component_settled (c : ComponentName) (s : LabState) (rs : list string) : Prop :=
  has_release (release_of c) rs = true /\
  exists t, get_component c (components s) =
            Some (deployed_record true (namespace_of c) (release_of c) t).

(** What a run of [up] with options [o] leaves when everything it had to do
    succeeded: either it was a dry run that only planned the cluster, or
    the cluster is up and ready, the essentials are in place unless
    skipped, and every requested component is deployed unless components
    were skipped or the run was dry. *)
Definition settled (componentArgs : list string) (o : UpOptions)
    (s : LabState) (rs : list string) : Prop :=
  (up_dryRun o = true /\ eks_deployed s = false) \/
  (eks_deployed s = true /\
   truthy (cluster_ready s) = true /\
   (up_skipEssentials o = true \/ truthy (essentials_deployed s) = true) /\
   (up_skipComponents o = true \/ up_dryRun o = true \/
    forall c, requested componentArgs (up_all o) c = true -> component_settled c s rs)).

Definition without_deployed_at (r : ComponentState) : ComponentState :=
  mkComponentState (deployed r) (component_version r) (namespace r) (release_name r) None.

(** A component record of the second run: the one of the first run, or
    that record without its [deployed_at]. *)
Definition timestamp_dropped (r1 r2 : option ComponentState) : Prop :=
  r2 = r1 \/ r2 = option_map without_deployed_at r1.

(** [s] is [s1] except for [updated_at] and for [deployed_at] fields that
    were dropped. *)
Definition same_but_timestamps (s1 s : LabState) : Prop :=
  version s = version s1 /\ lab_name s = lab_name s1 /\
  created_at s = created_at s1 /\
  bootstrapped s = bootstrapped s1 /\ bootstrap_outputs s = bootstrap_outputs s1 /\
  foundation_deployed s = foundation_deployed s1 /\
  foundation_outputs s = foundation_outputs s1 /\
  eks_deployed s = eks_deployed s1 /\ eks_outputs s = eks_outputs s1 /\
  cluster_ready s = cluster_ready s1 /\ cluster_context s = cluster_context s1 /\
  essentials_deployed s = essentials_deployed s1 /\
  forall c, timestamp_dropped (get_component c (components s1))
                              (get_component c (components s)).

Lemma same_but_timestamps_refl s : same_but_timestamps s s.
Proof. unfold same_but_timestamps. repeat split. intros c. left. reflexivity. Qed.

(** The invariant of the second run: since the events [p] no mutating
    command was run, the releases are [rs], and the state object, the state
    file and every saved record are [s1] but for time stamps. *)
Definition quiet (s1 : LabState) (rs : list string) (p : list Event) (w : World) : Prop :=
  releases w = rs /\
  same_but_timestamps s1 (mem w) /\
  (exists d, disk w = Some d /\ same_but_timestamps s1 d) /\
  exists evs, trace w = (p ++ evs)%list /\
              forallb (fun c => negb (mutating c)) (calls evs) = true /\
              Forall (same_but_timestamps s1) (saves evs).

Lemma gateway_not_mutating env t rs c :
  mutating c = false -> snd (gateway env t rs c) = rs.
Proof.
  intros H. destruct c; try discriminate H; try reflexivity.
  cbn. destruct (respond env t (HelmStatus release)); try reflexivity;
    destruct (has_release release rs); reflexivity.
Qed.

Lemma quiet_call s1 rs p env c :
  mutating c = false -> stable (quiet s1 rs p) (call env c).
Proof.
  intros Hc w [H1 [H2 [H3 [evs [H4 [H5 H6]]]]]]. unfold call.
  pose proof (gateway_not_mutating env (clock w) (releases w) c Hc) as Hg.
  destruct (gateway env (clock w) (releases w) c) as [x rs']. cbn in Hg. subst rs'.
  split; [exact H1|]. split; [exact H2|]. split; [exact H3|].
  exists (evs ++ [Called c])%list. cbn. split; [rewrite H4, app_assoc; reflexivity|].
  split.
  - rewrite calls_app, forallb_app. cbn. rewrite H5, Hc. reflexivity.
  - rewrite saves_app. cbn. rewrite app_nil_r. exact H6.
Qed.

Lemma quiet_log s1 rs p m : stable (quiet s1 rs p) (log m).
Proof.
  intros w [H1 [H2 [H3 [evs [H4 [H5 H6]]]]]].
  split; [exact H1|]. split; [exact H2|]. split; [exact H3|].
  exists (evs ++ [Logged m])%list. cbn. split; [rewrite H4, app_assoc; reflexivity|].
  split.
  - rewrite calls_app. cbn. rewrite app_nil_r. exact H5.
  - rewrite saves_app. cbn. rewrite app_nil_r. exact H6.
Qed.

Lemma quiet_date_now s1 rs p : stable (quiet s1 rs p) date_now.
Proof. intros w H. exact H. Qed.

Lemma quiet_modify_updated_at s1 rs p t :
  stable (quiet s1 rs p) (modify_state (set_updated_at t)).
Proof. intros w [H1 [H2 H3]]. split; [exact H1|]. split; [exact H2|exact H3]. Qed.

Lemma quiet_writeFileSync s1 rs p : stable (quiet s1 rs p) writeFileSync.
Proof.
  intros w [H1 [H2 [H3 [evs [H4 [H5 H6]]]]]].
  split; [exact H1|]. split; [exact H2|]. split; [exists (mem w); split; auto|].
  exists (evs ++ [Saved (mem w)])%list. cbn. split; [rewrite H4, app_assoc; reflexivity|].
  split.
  - rewrite calls_app. cbn. rewrite app_nil_r. exact H5.
  - rewrite saves_app. cbn. apply Forall_app. split; [exact H6|]. constructor; auto.
Qed.

#[export] Hint Resolve quiet_log quiet_date_now quiet_modify_updated_at
  quiet_writeFileSync : stable_prims.
#[export] Hint Extern 1 (stable (quiet _ _ _) (call _ _)) =>
  apply quiet_call; reflexivity : stable_prims.

Lemma quiet_get_state {A} s1 rs p (f : LabState -> M A) :
  (forall s, same_but_timestamps s1 s -> stable (quiet s1 rs p) (f s)) ->
  stable (quiet s1 rs p) (bind get_state f).
Proof.
  intros H w Hw. unfold bind, get_state.
  apply H; [|exact Hw]. destruct Hw as [_ [H2 _]]. exact H2.
Qed.

(** With the release in the cluster, [releaseExists] answers [true] or
    throws. *)
Lemma releaseExists_quiet env s1 rs p r :
  has_release r rs = true ->
  hoare (quiet s1 rs p) (releaseExists env r)
    (fun b w => quiet s1 rs p w /\ b = true) (fun _ => quiet s1 rs p).
Proof.
  intros Hr w Hw. unfold releaseExists, bind.
  pose proof (quiet_call s1 rs p env (HelmStatus r) eq_refl w Hw) as Hc.
  unfold call in *. destruct Hw as [H1 _]. cbn [gateway] in *. rewrite H1, Hr in *.
  destruct (respond env (clock w) (HelmStatus r)); cbn in *; auto.
Qed.

Lemma get_set_component_same c v cs : get_component c (set_component c v cs) = v.
Proof. destruct c; reflexivity. Qed.

Lemma get_set_component_other c c' v cs :
  c <> c' -> get_component c' (set_component c v cs) = get_component c' cs.
Proof. intros H. destruct c, c'; try reflexivity; contradiction H; reflexivity. Qed.

Lemma ComponentName_eq_dec (c c' : ComponentName) : {c = c'} + {c <> c'}.
Proof. decide equality. Defined.

(** Recording again a component that is recorded as deployed only drops
    its [deployed_at]. *)
Lemma quiet_record_rewritten s1 rs p c t :
  get_component c (components s1) =
    Some (deployed_record true (namespace_of c) (release_of c) t) ->
  stable (quiet s1 rs p)
    (updateComponentState c (deployed_record true (namespace_of c) (release_of c) None)).
Proof.
  intros Hc. unfold updateComponentState. apply stable_bind; [|intros; stable_auto].
  intros w [H1 [H2 H3]]. split; [exact H1|]. split; [|exact H3].
  destruct H2 as (E1 & E2 & E3 & E4 & E5 & E6 & E7 & E8 & E9 & E10 & E11 & E12 & E13).
  cbn -[get_component set_component]. repeat (split; [assumption|]). intros c'.
  change (components (set_components ?cs ?s)) with cs.
  destruct (ComponentName_eq_dec c c') as [<-|Hne].
  - rewrite get_set_component_same, Hc. right. reflexivity.
  - rewrite get_set_component_other by exact Hne. apply E13.
Qed.

Ltac as_stable :=
  match goal with
  | |- hoare ?I ?m _ _ => change (stable I m)
  end.

Ltac release_found Hr :=
  eapply hoare_bind; [apply releaseExists_quiet; exact Hr|];
  intros b w [Hw Hb]; subst b; cbn; split; [exact Hw|reflexivity].

Lemma deployKeycloak_quiet env s1 rs p :
  has_release "keycloak" rs = true ->
  hoare (quiet s1 rs p) (deployKeycloak env false)
    (fun cs w => quiet s1 rs p w /\ cs = deployed_record true "keycloak" "keycloak" None)
    (fun _ => quiet s1 rs p).
Proof. intros Hr. unfold deployKeycloak. release_found Hr. Qed.

Lemma deployPolaris_quiet env s1 rs p :
  has_release "polaris" rs = true ->
  hoare (quiet s1 rs p) (deployPolaris env false)
    (fun cs w => quiet s1 rs p w /\ cs = deployed_record true "polaris" "polaris" None)
    (fun _ => quiet s1 rs p).
Proof.
  intros Hr. unfold deployPolaris.
  eapply hoare_bind with (Q' := fun _ => quiet s1 rs p); [apply stable_get_state|].
  intros s. destruct (negb (component_deployed s Keycloak)).
  - apply hoare_throw; auto.
  - release_found Hr.
Qed.

Lemma deployTrino_quiet env s1 rs p :
  has_release "trino" rs = true ->
  hoare (quiet s1 rs p) (deployTrino env false)
    (fun cs w => quiet s1 rs p w /\ cs = deployed_record true "trino" "trino" None)
    (fun _ => quiet s1 rs p).
Proof.
  intros Hr. unfold deployTrino.
  eapply hoare_bind with (Q' := fun _ => quiet s1 rs p); [apply stable_get_state|].
  intros s. destruct (negb (component_deployed s Polaris)).
  - apply hoare_throw; auto.
  - release_found Hr.
Qed.

Lemma deploySpark_quiet env s1 rs p :
  has_release "spark-operator" rs = true ->
  hoare (quiet s1 rs p) (deploySpark env false)
    (fun cs w => quiet s1 rs p w /\ cs = deployed_record true "spark" "spark-operator" None)
    (fun _ => quiet s1 rs p).
Proof.
  intros Hr. unfold deploySpark.
  eapply hoare_bind with (Q' := fun _ => quiet s1 rs p); [apply stable_get_state|].
  intros s.
  eapply hoare_bind with (Q' := fun _ => quiet s1 rs p);
    [change (stable (quiet s1 rs p) (if negb (component_deployed s Polaris)
                                   then log "Warning: Polaris is not deployed."
                                   else ret tt)); stable_auto|].
  intros u. release_found Hr.
Qed.

Lemma deployOpa_quiet env s1 rs p :
  has_release "opa" rs = true ->
  hoare (quiet s1 rs p) (deployOpa env false)
    (fun cs w => quiet s1 rs p w /\ cs = deployed_record true "opa" "opa" None)
    (fun _ => quiet s1 rs p).
Proof.
  intros Hr. unfold deployOpa.
  eapply hoare_bind with (Q' := fun _ => quiet s1 rs p); [apply stable_get_state|].
  intros s.
  eapply hoare_bind with (Q' := fun _ => quiet s1 rs p);
    [change (stable (quiet s1 rs p) (if negb (component_deployed s Keycloak)
                                   then log "Warning: Keycloak is not deployed."
                                   else ret tt)); stable_auto|].
  intros u. release_found Hr.
Qed.

Lemma deploy_stage_quiet s1 rs p name c deploy fatal t :
  get_component c (components s1) =
    Some (deployed_record true (namespace_of c) (release_of c) t) ->
  hoare (quiet s1 rs p) (deploy false)
    (fun cs w => quiet s1 rs p w /\
                 cs = deployed_record true (namespace_of c) (release_of c) None)
    (fun _ => quiet s1 rs p) ->
  stable (quiet s1 rs p) (deploy_stage name c deploy false fatal).
Proof.
  intros Hc Hd. unfold deploy_stage.
  apply hoare_try_catch with (E' := fun _ => quiet s1 rs p).
  - eapply hoare_bind; [exact Hd|].
    intros cs w [Hw ->]. apply (quiet_record_rewritten s1 rs p c t Hc w Hw).
  - intros e. as_stable. stable_auto.
Qed.

Ltac stage_quiet H c lem :=
  match goal with
  | |- stable _ (if ?b then _ else _) =>
      let E := fresh "E" in
      destruct b eqn:E; [|apply stable_ret];
      let Hr := fresh "Hr" in
      let t := fresh "t" in
      let Ht := fresh "Ht" in
      destruct (H c E) as [Hr [t Ht]];
      eapply deploy_stage_quiet; [exact Ht|apply lem; exact Hr]
  end.

(** Step 5 of the second run: every requested component is found deployed
    and recorded again. *)
Lemma deployComponents_quiet env s1 rs p componentArgs all :
  (forall c, requested componentArgs all c = true -> component_settled c s1 rs) ->
  stable (quiet s1 rs p) (deployComponents env componentArgs all false).
Proof.
  intros H. unfold deployComponents. cbv zeta.
  apply stable_bind; [stable_auto|]. intros _.
  destruct (length (componentsToDeploy componentArgs all) =? 0)%nat; [stable_auto|].
  apply stable_bind; [stable_auto|]. intros _.
  apply stable_bind; [stage_quiet H Keycloak deployKeycloak_quiet|]. intros _.
  apply stable_bind; [stage_quiet H Polaris deployPolaris_quiet|]. intros _.
  apply stable_bind; [stage_quiet H Trino deployTrino_quiet|]. intros _.
  apply stable_bind; [stage_quiet H Spark deploySpark_quiet|]. intros _.
  apply stable_bind; [stage_quiet H Opa deployOpa_quiet|]. intros _.
  stable_auto.
Qed.

Lemma up_after_provisioning_quiet env config componentArgs o s1 rs p :
  up_force o = false ->
  eks_deployed s1 = true ->
  truthy (cluster_ready s1) = true ->
  (up_skipEssentials o = true \/ truthy (essentials_deployed s1) = true) ->
  (up_skipComponents o = true \/ up_dryRun o = true \/
   forall c, requested componentArgs (up_all o) c = true -> component_settled c s1 rs) ->
  stable (quiet s1 rs p) (up_after_provisioning env config false componentArgs o).
Proof.
  intros Hf He Hc Hess Hcomp. unfold up_after_provisioning.
  apply quiet_get_state. intros s Hs.
  assert (Hcs : cluster_ready s = cluster_ready s1) by apply Hs.
  rewrite Hcs, Hc. cbn [orb negb].
  apply stable_bind; [stable_auto|]. intros _.
  apply quiet_get_state. intros s2 Hs2.
  assert (Hes : essentials_deployed s2 = essentials_deployed s1) by apply Hs2.
  rewrite Hes, Hf.
  apply stable_bind.
  { destruct Hess as [Hsk|Hed].
    - rewrite Hsk. cbn. stable_auto.
    - rewrite Hed. rewrite andb_false_r. destruct (up_skipEssentials o); stable_auto. }
  intros _.
  apply stable_bind.
  { destruct Hcomp as [Hsk|[Hdry|Hall]].
    - rewrite Hsk. cbn. stable_auto.
    - rewrite Hdry, andb_false_r. destruct (up_skipComponents o); stable_auto.
    - destruct (negb (up_skipComponents o) && negb (up_dryRun o)).
      + apply deployComponents_quiet. exact Hall.
      + destruct (up_skipComponents o); stable_auto. }
  intros _. stable_auto.
Qed.

(** The [try] block of a second [up]. *)
Lemma up_body_quiet env config componentArgs o s1 rs p :
  up_force o = false ->
  settled componentArgs o s1 rs ->
  stable (quiet s1 rs p) (up_body env config componentArgs o).
Proof.
  intros Hf Hs. unfold up_body.
  apply stable_bind; [stable_auto|]. intros _.
  apply quiet_get_state. intros s Hss. cbv zeta.
  assert (Hes : eks_deployed s = eks_deployed s1) by apply Hss.
  rewrite Hes, Hf.
  destruct Hs as [[Hdry He]|[He [Hc [Hess Hcomp]]]].
  - rewrite He, Hdry. cbn [negb orb]. stable_auto.
  - rewrite He. cbn [negb orb].
    apply stable_bind; [stable_auto|]. intros _.
    apply up_after_provisioning_quiet; assumption.
Qed.

(** A second [up] on a settled lab runs no mutating command and saves
    nothing but time stamps. *)
Lemma second_up_quiet env config componentArgs o s1 p :
  up_force o = false ->
  p_disk p = Some s1 ->
  settled componentArgs o s1 (p_releases p) ->
  quiet s1 (p_releases p) [] (snd (lab env config (CmdUp componentArgs o) p)).
Proof.
  intros Hf Hd Hs. unfold lab. apply stable_snd.
  - unfold run_command, up.
    apply stable_try_catch; [|intros; stable_auto].
    apply stable_try_catch; [|intros; stable_auto].
    apply stable_bind; [|intros; apply stable_ret].
    apply up_body_quiet; assumption.
  - unfold start, loadState. rewrite Hd. cbn.
    split; [reflexivity|]. split; [apply same_but_timestamps_refl|].
    split; [exists s1; split; [reflexivity|apply same_but_timestamps_refl]|].
    exists []. cbn. auto.
Qed.

(** * What a successful [up] leaves *)

(** The messages by which [up] reports that a component was not deployed:
    the [catch] blocks of [deployComponents] and the fallback of
    [deployPolaris]. *)
Definition failure_reported (e : Event) : bool :=
  match e with
  | Logged m =>
      prefix "Failed to deploy " m
      || String.eqb m "Polaris Helm chart not found. Skipping Polaris deployment."
  | _ => false
  end.

Definition failure_logged (t : list Event) : bool := existsb failure_reported t.

Definition failed (w : World) : Prop := failure_logged (trace w) = true.

(** Commands after which every release that was in the cluster still is. *)
Definition keeps_releases (c : Call) : bool :=
  match c with
  | HelmUninstall _ => false
  | TfDestroy EphemeralDir => false
  | _ => true
  end.

(** The place of a component in the order of [deployComponents]. *)
Definition stage_index (c : ComponentName) : nat :=
  match c with
  | Keycloak => 0
  | Polaris => 1
  | Trino => 2
  | Spark => 3
  | Opa => 4
  end.

(** How far a run of [up] has come: [n] counts the steps done (cluster
    provisioned, cluster ready, essentials), [k] the component stages
    passed. *)
Definition progress_ok (componentArgs : list string) (o : UpOptions) (n k : nat)
    (s : LabState) (rs : list string) : Prop :=
  ((1 <= n)%nat -> eks_deployed s = true) /\
  ((2 <= n)%nat -> truthy (cluster_ready s) = true) /\
  ((3 <= n)%nat ->
   up_skipEssentials o = true \/ truthy (essentials_deployed s) = true) /\
  forall c, (stage_index c < k)%nat ->
            requested componentArgs (up_all o) c = true ->
            component_settled c s rs.

(** The invariant of a first run: a failure was reported, or the run has
    come as far as [n] and [k] say and the releases [R] are installed. *)
Definition advancing (componentArgs : list string) (o : UpOptions) (n k : nat)
    (R : list string) (w : World) : Prop :=
  failed w \/
  (progress_ok componentArgs o n k (mem w) (releases w) /\
   Forall (fun r => has_release r (releases w) = true) R).

(** The state file holds the state object. *)
Definition synced (w : World) : Prop := disk w = Some (mem w).

Lemma failure_logged_app t1 t2 :
  failure_logged t1 = true -> failure_logged (t1 ++ t2) = true.
Proof. unfold failure_logged. intros H. rewrite existsb_app, H. reflexivity. Qed.

Lemma prefix_append s t : prefix s (s ++ t) = true.
Proof.
  induction s as [|a s IH]; cbn; [destruct t; reflexivity|].
  destruct (ascii_dec a a) as [_|H]; [exact IH|contradiction H; reflexivity].
Qed.

Lemma has_release_head r rs : has_release r (r :: rs) = true.
Proof. cbn. rewrite String.eqb_refl. reflexivity. Qed.

Lemma has_release_cons r x rs :
  has_release r rs = true -> has_release r (x :: rs) = true.
Proof. intros H. cbn. rewrite H. destruct (String.eqb r x); reflexivity. Qed.

Lemma gateway_keeps env t rs c r :
  keeps_releases c = true -> has_release r rs = true ->
  has_release r (snd (gateway env t rs c)) = true.
Proof.
  intros Hk Hr. destruct c; try discriminate Hk; try exact Hr.
  - destruct d; try discriminate Hk; exact Hr.
  - cbn. destruct (respond env t (HelmStatus release)); try exact Hr;
      destruct (has_release release rs); exact Hr.
  - cbn. destruct (respond env t (HelmInstall release)); try exact Hr.
    destruct (has_release release rs); [exact Hr|]. apply has_release_cons. exact Hr.
Qed.

Lemma progress_ok_grows componentArgs o n k s rs rs' :
  (forall r, has_release r rs = true -> has_release r rs' = true) ->
  progress_ok componentArgs o n k s rs -> progress_ok componentArgs o n k s rs'.
Proof.
  intros Hg (H1 & H2 & H3 & H4). repeat (split; [assumption|]).
  intros c Hc Hreq. destruct (H4 c Hc Hreq) as [Hr Ht]. split; [auto|exact Ht].
Qed.

Lemma advancing_failed componentArgs o n k R w :
  failed w -> advancing componentArgs o n k R w.
Proof. intros H. left. exact H. Qed.

Lemma advancing_call componentArgs o n k R env c :
  keeps_releases c = true -> stable (advancing componentArgs o n k R) (call env c).
Proof.
  intros Hk w Hw. unfold call.
  pose proof (fun r => gateway_keeps env (clock w) (releases w) c r Hk) as Hg.
  destruct (gateway env (clock w) (releases w) c) as [x rs']. cbn in Hg.
  destruct Hw as [Hw|[Hp HR]].
  - left. unfold failed. cbn. apply failure_logged_app. exact Hw.
  - right. cbn. split.
    + apply (progress_ok_grows componentArgs o n k (mem w) (releases w) rs' Hg Hp).
    + eapply Forall_impl; [|exact HR]. cbn. intros r. apply Hg.
Qed.

Lemma failed_log m : stable failed (log m).
Proof. intros w Hw. unfold failed. cbn. apply failure_logged_app. exact Hw. Qed.

Lemma advancing_log componentArgs o n k R m :
  stable (advancing componentArgs o n k R) (log m).
Proof.
  intros w [Hw|Hw].
  - left. apply (failed_log m w Hw).
  - right. exact Hw.
Qed.

Lemma advancing_date_now componentArgs o n k R :
  stable (advancing componentArgs o n k R) date_now.
Proof. intros w [Hw|Hw]; [left|right]; exact Hw. Qed.

Lemma advancing_writeFileSync componentArgs o n k R :
  stable (advancing componentArgs o n k R) writeFileSync.
Proof.
  intros w [Hw|Hw].
  - left. unfold failed. cbn. apply failure_logged_app. exact Hw.
  - right. exact Hw.
Qed.

(** A field update moves the invariant as it moves the state. *)
Lemma advancing_modify_state componentArgs o n k n' k' R f E :
  (forall s rs, progress_ok componentArgs o n k s rs ->
                progress_ok componentArgs o n' k' (f s) rs) ->
  hoare (advancing componentArgs o n k R) (modify_state f)
    (fun _ => advancing componentArgs o n' k' R) E.
Proof.
  intros H w [Hw|[Hp HR]].
  - left. exact Hw.
  - right. split; [apply H; exact Hp|exact HR].
Qed.

Lemma advancing_modify_updated_at componentArgs o n k R t :
  stable (advancing componentArgs o n k R) (modify_state (set_updated_at t)).
Proof. apply advancing_modify_state. intros s rs H. exact H. Qed.

#[export] Hint Resolve failed_log advancing_log advancing_date_now
  advancing_writeFileSync advancing_modify_updated_at : stable_prims.
#[export] Hint Extern 1 (stable (advancing _ _ _ _ _) (call _ _)) =>
  apply advancing_call; reflexivity : stable_prims.

Lemma synced_call env c : stable synced (call env c).
Proof.
  intros w Hw. unfold call. destruct (gateway env (clock w) (releases w) c). exact Hw.
Qed.

Lemma synced_log m : stable synced (log m).
Proof. intros w Hw. exact Hw. Qed.

Lemma synced_writeFileSync P E : hoare P writeFileSync (fun _ => synced) E.
Proof. intros w _. reflexivity. Qed.

#[export] Hint Resolve synced_call synced_log : stable_prims.

Lemma hoare_pre {A} (P P' : World -> Prop) (m : M A) Q E :
  (forall w, P w -> P' w) -> hoare P' m Q E -> hoare P m Q E.
Proof. intros HP H. eapply hoare_conseq; [exact H|exact HP| |]; auto. Qed.

Lemma hoare_stable_weak {A} (I : World -> Prop) (m : M A) :
  stable I m -> hoare I m (fun _ => I) (fun _ _ => True).
Proof. intros H. eapply hoare_conseq; [exact H| | |]; cbn; auto. Qed.

Lemma hoare_bind_stable {A B} (I : World -> Prop) (m : M A) (f : A -> M B) Q :
  stable I m ->
  (forall a, hoare I (f a) Q (fun _ _ => True)) ->
  hoare I (bind m f) Q (fun _ _ => True).
Proof.
  intros Hm Hf. eapply hoare_bind; [apply hoare_stable_weak; exact Hm|exact Hf].
Qed.

Lemma hoare_bind_get_state {A} (P : World -> Prop) (f : LabState -> M A) Q E :
  (forall s, hoare (fun w => P w /\ mem w = s) (f s) Q E) ->
  hoare P (bind get_state f) Q E.
Proof. intros H w Hw. unfold bind, get_state. apply (H (mem w) w). auto. Qed.

Lemma advancing_saveState componentArgs o n k R :
  stable (advancing componentArgs o n k R) saveState.
Proof. unfold saveState. stable_auto. Qed.

#[export] Hint Resolve advancing_saveState : stable_prims.

(** Step 1 done: the cluster is recorded as provisioned. *)
Lemma updateEksState_advances componentArgs o R outputs :
  hoare (advancing componentArgs o 0 0 R) (updateEksState outputs)
    (fun _ => advancing componentArgs o 1 0 R) (fun _ _ => True).
Proof.
  unfold updateEksState. eapply hoare_bind.
  - apply advancing_modify_state with (n' := 1%nat) (k' := 0%nat).
    intros s rs _. split; [reflexivity|].
    split; [intros; lia|]. split; [intros; lia|]. intros c Hc. cbn in Hc. lia.
  - intros u. apply hoare_stable_weak. apply advancing_saveState.
Qed.

(** Step 3 done: the cluster is recorded as ready. *)
Lemma cluster_ready_advances componentArgs o R ctx :
  hoare (advancing componentArgs o 1 0 R) (updateClusterReadyState ctx false)
    (fun _ => advancing componentArgs o 2 0 R) (fun _ _ => True).
Proof.
  unfold updateClusterReadyState. eapply hoare_bind.
  - apply advancing_modify_state with (n' := 2%nat) (k' := 0%nat).
    intros s rs (H1 & _). split; [intros _; apply H1; lia|].
    split; [reflexivity|]. split; [intros; lia|]. intros c Hc. cbn in Hc. lia.
  - intros u. apply hoare_stable_weak. apply advancing_saveState.
Qed.

(** Step 4 done: the essentials are recorded as deployed. *)
Lemma essentials_advance componentArgs o R ctx :
  hoare (advancing componentArgs o 2 0 R) (updateClusterReadyState ctx true)
    (fun _ => advancing componentArgs o 3 0 R) (fun _ _ => True).
Proof.
  unfold updateClusterReadyState. eapply hoare_bind.
  - apply advancing_modify_state with (n' := 3%nat) (k' := 0%nat).
    intros s rs (H1 & _). split; [intros _; apply H1; lia|].
    split; [reflexivity|]. split; [intros _; right; reflexivity|].
    intros c Hc. cbn in Hc. lia.
  - intros u. apply hoare_stable_weak. apply advancing_saveState.
Qed.

Lemma advancing_add_release componentArgs o n k R r w :
  advancing componentArgs o n k R w -> has_release r (releases w) = true ->
  advancing componentArgs o n k (r :: R) w.
Proof.
  intros [H|[Hp HR]] Hr; [left; exact H|]. right. split; [exact Hp|].
  constructor; assumption.
Qed.

(** A release that [helm status] finds is in the cluster. *)
Lemma releaseExists_advances env componentArgs o n k r :
  hoare (advancing componentArgs o n k []) (releaseExists env r)
    (fun b w => advancing componentArgs o n k [] w /\
                (b = true -> advancing componentArgs o n k [r] w))
    (fun _ _ => True).
Proof.
  intros w Hw. unfold releaseExists, bind.
  pose proof (advancing_call componentArgs o n k [] env (HelmStatus r) eq_refl w Hw) as Hc.
  unfold call in *. cbn [gateway] in *.
  destruct (respond env (clock w) (HelmStatus r));
    destruct (has_release r (releases w)) eqn:Hr; cbn in *;
    try exact I.
  all: split; [exact Hc|].
  all: try discriminate.
  all: intros _; apply advancing_add_release; [exact Hc|exact Hr].
Qed.

(** A release that [helm upgrade --install] installed is in the cluster. *)
Lemma installChart_advances env componentArgs o n k r :
  hoare (advancing componentArgs o n k []) (installChart env r)
    (fun _ => advancing componentArgs o n k [r]) (fun _ _ => True).
Proof.
  intros w Hw. unfold installChart, call_or_throw, bind.
  pose proof (advancing_call componentArgs o n k [] env (HelmInstall r) eq_refl w Hw) as Hc.
  unfold call in *. cbn [gateway] in *.
  destruct (respond env (clock w) (HelmInstall r)); cbn in *; try exact I.
  apply advancing_add_release; [exact Hc|]. cbn.
  destruct (has_release r (releases w)) eqn:Hr; [exact Hr|apply has_release_head].
Qed.

(** Recording the component that was just deployed passes its stage. *)
Lemma record_advances componentArgs o c cs :
  hoare (fun w => advancing componentArgs o 3 (stage_index c) [release_of c] w /\
                  (failed w \/
                   exists t, cs = deployed_record true (namespace_of c) (release_of c) t))
    (updateComponentState c cs)
    (fun _ => advancing componentArgs o 3 (S (stage_index c)) []) (fun _ _ => True).
Proof.
  unfold updateComponentState.
  eapply hoare_bind with
    (Q' := fun _ => advancing componentArgs o 3 (S (stage_index c)) []).
  - intros w [Ha Hc]. cbn -[get_component set_component].
    destruct Hc as [Hf|[t ->]]; [left; exact Hf|].
    destruct Ha as [Hf|[Hp HR]]; [left; exact Hf|].
    right. split; [|constructor]. cbn -[get_component set_component].
    destruct Hp as (H1 & H2 & H3 & H4).
    repeat (split; [assumption|]).
    intros c' Hlt Hreq. unfold component_settled.
    change (components (set_components ?a ?b)) with a.
    destruct (ComponentName_eq_dec c c') as [<-|Hne].
    + split; [inversion HR; assumption|].
      exists t. apply get_set_component_same.
    + assert (Hlt' : (stage_index c' < stage_index c)%nat).
      { destruct c, c'; cbn in *; try lia; contradiction Hne; reflexivity. }
      destruct (H4 c' Hlt' Hreq) as [Hr [t' Ht']]. split; [exact Hr|].
      exists t'. rewrite get_set_component_other by exact Hne. exact Ht'.
  - intros u. apply hoare_stable_weak. apply advancing_saveState.
Qed.

Ltac adv_run :=
  cbv beta;
  lazymatch goal with
  | |- hoare _ (bind (installChart _ _) _) _ _ =>
      eapply hoare_bind; [apply installChart_advances | intros ? ]
  | |- hoare _ (bind _ _) _ _ =>
      eapply hoare_bind_stable; [solve [stable_auto] | intros ? ]
  end.

Ltac adv_done :=
  cbv beta; apply hoare_ret;
  let w := fresh "w" in
  let H := fresh "H" in
  intros w H; split; [exact H | right; eexists; reflexivity].

Ltac adv_found :=
  apply hoare_ret;
  let w := fresh "w" in
  let H := fresh "H" in
  intros w [_ H]; split; [apply H; reflexivity | right; eexists; reflexivity].

Ltac adv_install :=
  match goal with
  | |- hoare _ _ _ _ =>
      eapply hoare_pre; [intros ? [H _]; exact H|]; repeat adv_run; adv_done
  end.

(** Each deploy function returns the record of a deployed component with
    its release in the cluster, unless a failure was reported. *)
Lemma deployKeycloak_advances env componentArgs o n k :
  hoare (advancing componentArgs o n k []) (deployKeycloak env false)
    (fun cs w => advancing componentArgs o n k ["keycloak"] w /\
                 (failed w \/ exists t, cs = deployed_record true "keycloak" "keycloak" t))
    (fun _ _ => True).
Proof.
  unfold deployKeycloak. eapply hoare_bind; [apply releaseExists_advances|].
  intros b. destruct b; cbn [andb negb]; [adv_found|adv_install].
Qed.

Lemma deployTrino_advances env componentArgs o n k :
  hoare (advancing componentArgs o n k []) (deployTrino env false)
    (fun cs w => advancing componentArgs o n k ["trino"] w /\
                 (failed w \/ exists t, cs = deployed_record true "trino" "trino" t))
    (fun _ _ => True).
Proof.
  unfold deployTrino. apply hoare_bind_stable; [apply stable_get_state|].
  intros s. destruct (negb (component_deployed s Polaris)); [apply hoare_throw; auto|].
  eapply hoare_bind; [apply releaseExists_advances|].
  intros b. destruct b; cbn [andb negb]; [adv_found|adv_install].
Qed.

Lemma deploySpark_advances env componentArgs o n k :
  hoare (advancing componentArgs o n k []) (deploySpark env false)
    (fun cs w => advancing componentArgs o n k ["spark-operator"] w /\
                 (failed w \/
                  exists t, cs = deployed_record true "spark" "spark-operator" t))
    (fun _ _ => True).
Proof.
  unfold deploySpark. apply hoare_bind_stable; [apply stable_get_state|].
  intros s. apply hoare_bind_stable; [stable_auto|]. intros u.
  eapply hoare_bind; [apply releaseExists_advances|].
  intros b. destruct b; cbn [andb negb]; [adv_found|adv_install].
Qed.

Lemma deployOpa_advances env componentArgs o n k :
  hoare (advancing componentArgs o n k []) (deployOpa env false)
    (fun cs w => advancing componentArgs o n k ["opa"] w /\
                 (failed w \/ exists t, cs = deployed_record true "opa" "opa" t))
    (fun _ _ => True).
Proof.
  unfold deployOpa. apply hoare_bind_stable; [apply stable_get_state|].
  intros s. apply hoare_bind_stable; [stable_auto|]. intros u.
  eapply hoare_bind; [apply releaseExists_advances|].
  intros b. destruct b; cbn [andb negb]; [adv_found|adv_install].
Qed.

Lemma polaris_fallback_reported P E :
  hoare P (log "Polaris Helm chart not found. Skipping Polaris deployment.")
    (fun _ => failed) E.
Proof.
  intros w _. unfold failed, failure_logged. cbn [log emit trace].
  rewrite existsb_app. cbn. apply orb_true_r.
Qed.

Lemma deployPolaris_advances env componentArgs o n k :
  hoare (advancing componentArgs o n k []) (deployPolaris env false)
    (fun cs w => advancing componentArgs o n k ["polaris"] w /\
                 (failed w \/ exists t, cs = deployed_record true "polaris" "polaris" t))
    (fun _ _ => True).
Proof.
  unfold deployPolaris. apply hoare_bind_stable; [apply stable_get_state|].
  intros s. destruct (negb (component_deployed s Keycloak)); [apply hoare_throw; auto|].
  eapply hoare_bind; [apply releaseExists_advances|].
  intros b. destruct b; cbn [andb negb]; [adv_found|].
  eapply hoare_pre; [intros ? [H _]; exact H|].
  adv_run. adv_run. adv_run.
  eapply hoare_bind with
    (Q' := fun installed w => advancing componentArgs o n k ["polaris"] w /\
                              (installed = false -> failed w)).
  - apply hoare_try_catch with (E' := fun _ _ => True).
    + adv_run. adv_run. adv_run. apply hoare_ret. intros w H. split; [exact H|discriminate].
    + intros e. eapply hoare_bind; [apply polaris_fallback_reported|].
      intros u. apply hoare_ret. intros w H. split; [left; exact H|intros _; exact H].
  - intros installed. destruct installed; cbn [negb].
    + adv_install.
    + apply hoare_ret. intros w [H1 H2]. split; [exact H1|left; apply H2; reflexivity].
Qed.

Lemma failure_reported_log P E name e :
  hoare P (log ("Failed to deploy " ++ name ++ ": " ++ e)) (fun _ => failed) E.
Proof.
  intros w _. unfold failed, failure_logged. cbn [log emit trace].
  rewrite existsb_app. cbn [existsb failure_reported].
  rewrite prefix_append. cbn. apply orb_true_r.
Qed.

(** A stage of the first run: the component is deployed and recorded, or
    its failure is reported. *)
Lemma deploy_stage_advances componentArgs o name c deploy fatal :
  hoare (advancing componentArgs o 3 (stage_index c) []) (deploy false)
    (fun cs w => advancing componentArgs o 3 (stage_index c) [release_of c] w /\
                 (failed w \/
                  exists t, cs = deployed_record true (namespace_of c) (release_of c) t))
    (fun _ _ => True) ->
  hoare (advancing componentArgs o 3 (stage_index c) [])
    (deploy_stage name c deploy false fatal)
    (fun _ => advancing componentArgs o 3 (S (stage_index c)) []) (fun _ _ => True).
Proof.
  intros H. unfold deploy_stage. apply hoare_try_catch with (E' := fun _ _ => True).
  - eapply hoare_bind; [exact H|]. intros cs. apply record_advances.
  - intros e. eapply hoare_bind; [apply failure_reported_log|]. intros u.
    destruct fatal; [apply hoare_throw; auto|].
    eapply hoare_conseq; [apply (failed_log _)| | |]; cbn; auto.
    intros a w Hw. left. exact Hw.
Qed.

Lemma stage_index_inj c c' : stage_index c = stage_index c' -> c = c'.
Proof. destruct c, c'; cbn; intros H; try reflexivity; discriminate H. Qed.

Lemma advancing_skip componentArgs o n c R w :
  requested componentArgs (up_all o) c = false ->
  advancing componentArgs o n (stage_index c) R w ->
  advancing componentArgs o n (S (stage_index c)) R w.
Proof.
  intros Hreq [H|[Hp HR]]; [left; exact H|]. right. split; [|exact HR].
  destruct Hp as (H1 & H2 & H3 & H4). repeat (split; [assumption|]).
  intros c' Hlt Hreq'.
  destruct (Nat.eq_dec (stage_index c') (stage_index c)) as [Heq|Hne].
  - apply stage_index_inj in Heq. subst c'. rewrite Hreq in Hreq'. discriminate Hreq'.
  - apply H4; [lia|exact Hreq'].
Qed.

Lemma optional_stage_advances componentArgs o (b : bool) c (m : M unit) :
  b = requested componentArgs (up_all o) c ->
  hoare (advancing componentArgs o 3 (stage_index c) []) m
    (fun _ => advancing componentArgs o 3 (S (stage_index c)) []) (fun _ _ => True) ->
  hoare (advancing componentArgs o 3 (stage_index c) []) (if b then m else ret tt)
    (fun _ => advancing componentArgs o 3 (S (stage_index c)) []) (fun _ _ => True).
Proof.
  intros Hb Hm. destruct b; [exact Hm|]. apply hoare_ret. intros w Hw.
  apply advancing_skip; auto.
Qed.

Lemma advancing_none componentArgs o n R w :
  componentsToDeploy componentArgs (up_all o) = [] ->
  advancing componentArgs o n 0 R w -> advancing componentArgs o n 5 R w.
Proof.
  intros Hnil [H|[Hp HR]]; [left; exact H|]. right. split; [|exact HR].
  destruct Hp as (H1 & H2 & H3 & H4). repeat (split; [assumption|]).
  intros c _ Hreq. unfold requested in Hreq. rewrite Hnil in Hreq. discriminate Hreq.
Qed.

(** Step 5 of the first run. *)
Lemma deployComponents_advances env componentArgs o :
  hoare (advancing componentArgs o 3 0 [])
    (deployComponents env componentArgs (up_all o) false)
    (fun _ => advancing componentArgs o 3 5 []) (fun _ _ => True).
Proof.
  unfold deployComponents. cbv zeta.
  apply hoare_bind_stable; [stable_auto|]. intros u.
  destruct (length (componentsToDeploy componentArgs (up_all o)) =? 0)%nat eqn:Hlen.
  - apply Nat.eqb_eq, length_zero_iff_nil in Hlen.
    eapply hoare_conseq; [apply (advancing_log componentArgs o 3 0 [] _)| | |];
      cbn; auto.
    intros a w Hw. apply advancing_none; assumption.
  - apply hoare_bind_stable; [stable_auto|]. intros u1.
    eapply hoare_bind.
    { apply (optional_stage_advances componentArgs o _ Keycloak); [reflexivity|].
      apply deploy_stage_advances. apply deployKeycloak_advances. }
    intros u2. eapply hoare_bind.
    { apply (optional_stage_advances componentArgs o _ Polaris); [reflexivity|].
      apply deploy_stage_advances. apply deployPolaris_advances. }
    intros u3. eapply hoare_bind.
    { apply (optional_stage_advances componentArgs o _ Trino); [reflexivity|].
      apply deploy_stage_advances. apply deployTrino_advances. }
    intros u4. eapply hoare_bind.
    { apply (optional_stage_advances componentArgs o _ Spark); [reflexivity|].
      apply deploy_stage_advances. apply deploySpark_advances. }
    intros u5. eapply hoare_bind.
    { apply (optional_stage_advances componentArgs o _ Opa); [reflexivity|].
      apply deploy_stage_advances. apply deployOpa_advances. }
    intros u6. apply hoare_stable_weak. stable_auto.
Qed.

Lemma advancing_flag componentArgs o n n' R w :
  advancing componentArgs o n 0 R w ->
  (progress_ok componentArgs o n 0 (mem w) (releases w) ->
   progress_ok componentArgs o n' 0 (mem w) (releases w)) ->
  advancing componentArgs o n' 0 R w.
Proof. intros [H|[Hp HR]] Hn; [left; exact H|]. right. split; auto. Qed.

Lemma advancing_settled componentArgs o k w :
  advancing componentArgs o 3 k [] w ->
  (k = 5%nat \/ up_skipComponents o = true \/ up_dryRun o = true) ->
  failed w \/ settled componentArgs o (mem w) (releases w).
Proof.
  intros [H|[(H1 & H2 & H3 & H4) _]] Hk; [left; exact H|]. right. right.
  split; [apply H1; lia|]. split; [apply H2; lia|]. split; [apply H3; lia|].
  destruct Hk as [->|[Hk|Hk]]; [|left; exact Hk|right; left; exact Hk].
  right. right. intros c Hc. apply H4; [|exact Hc]. destruct c; cbn; lia.
Qed.

(** Steps 3 to 5 of the first run. *)
Lemma up_after_provisioning_advances env config np componentArgs o :
  up_force o = false ->
  hoare (advancing componentArgs o 1 0 [])
    (up_after_provisioning env config np componentArgs o)
    (fun _ w => failed w \/ settled componentArgs o (mem w) (releases w))
    (fun _ _ => True).
Proof.
  intros Hf. unfold up_after_provisioning.
  apply hoare_bind_get_state. intros s.
  eapply hoare_bind with (Q' := fun _ => advancing componentArgs o 2 0 []).
  { destruct (np || negb (truthy (cluster_ready s))) eqn:Hc.
    - eapply hoare_pre; [intros w [H _]; exact H|].
      apply hoare_bind_stable; [stable_auto|]. intros u.
      apply cluster_ready_advances.
    - eapply hoare_conseq; [apply (advancing_log componentArgs o 2 0 [] _)| | |];
        cbn; auto.
      intros w [Hw Hm]. apply orb_false_elim in Hc. destruct Hc as [_ Hc].
      apply negb_false_iff in Hc. apply (advancing_flag _ _ _ _ _ _ Hw).
      intros (H1 & H2 & H3 & H4). split; [intros _; apply H1; lia|].
      split; [intros _; rewrite Hm; exact Hc|]. split; [intros; lia|exact H4]. }
  intros u. apply hoare_bind_get_state. intros s2.
  eapply hoare_bind with (Q' := fun _ => advancing componentArgs o 3 0 []).
  { rewrite Hf, orb_false_r. destruct (up_skipEssentials o) eqn:Hsk; cbn [negb andb].
    - eapply hoare_conseq; [apply (advancing_log componentArgs o 3 0 [] _)| | |];
        cbn; auto.
      intros w [Hw Hm]. apply (advancing_flag _ _ _ _ _ _ Hw).
      intros (H1 & H2 & H3 & H4). split; [intros _; apply H1; lia|]. split; [intros _; apply H2; lia|].
      split; [intros _; left; exact Hsk|exact H4].
    - destruct (truthy (essentials_deployed s2)) eqn:He; cbn [negb].
      + eapply hoare_conseq; [apply (advancing_log componentArgs o 3 0 [] _)| | |];
          cbn; auto.
        intros w [Hw Hm]. apply (advancing_flag _ _ _ _ _ _ Hw).
        intros (H1 & H2 & H3 & H4). split; [intros _; apply H1; lia|]. split; [intros _; apply H2; lia|].
        split; [intros _; right; rewrite Hm; exact He|exact H4].
      + eapply hoare_pre; [intros w [H _]; exact H|].
        apply hoare_bind_stable; [stable_auto|]. intros u1.
        apply hoare_bind_stable; [apply stable_get_state|]. intros s'.
        apply essentials_advance. }
  intros u2.
  eapply hoare_bind with
    (Q' := fun _ => advancing componentArgs o 3
                      (if negb (up_skipComponents o) && negb (up_dryRun o)
                       then 5%nat else 0%nat) []).
  { rewrite Hf. destruct (negb (up_skipComponents o) && negb (up_dryRun o)).
    - apply deployComponents_advances.
    - apply hoare_stable_weak. destruct (up_skipComponents o); stable_auto. }
  intros u3.
  eapply hoare_conseq with
    (Q' := fun _ => advancing componentArgs o 3
                      (if negb (up_skipComponents o) && negb (up_dryRun o)
                       then 5%nat else 0%nat) [])
    (E' := fun _ _ => True);
    [apply hoare_stable_weak; stable_auto|auto| |auto].
  intros a w Hw. apply (advancing_settled _ _ _ _ Hw).
  destruct (up_skipComponents o); [right; left; reflexivity|].
  destruct (up_dryRun o); [right; right; reflexivity|left; reflexivity].
Qed.

Lemma deployEks_dry_same_state env s d :
  stable (same_state s d) (deployEks env true).
Proof. stable_auto. Qed.

(** The [try] block of the first run. *)
Lemma up_body_advances env config componentArgs o :
  up_force o = false ->
  hoare (advancing componentArgs o 0 0 []) (up_body env config componentArgs o)
    (fun _ w => failed w \/ settled componentArgs o (mem w) (releases w))
    (fun _ _ => True).
Proof.
  intros Hf. unfold up_body.
  apply hoare_bind_stable; [stable_auto|]. intros u.
  apply hoare_bind_get_state. intros s. cbv zeta. rewrite Hf, orb_false_r.
  destruct (eks_deployed s) eqn:He; cbn [negb].
  - eapply hoare_pre with (P' := advancing componentArgs o 1 0 []).
    { intros w [Hw Hm]. apply (advancing_flag _ _ _ _ _ _ Hw).
      intros (H1 & H2 & H3 & H4). split; [intros _; rewrite Hm; exact He|].
      split; [intros; lia|]. split; [intros; lia|exact H4]. }
    apply hoare_bind_stable; [stable_auto|]. intros u1.
    apply up_after_provisioning_advances. exact Hf.
  - destruct (up_dryRun o) eqn:Hd.
    + intros w [Hw Hm].
      pose proof (deployEks_dry_same_state env s (disk w) w (conj Hm eq_refl)) as H.
      unfold bind. destruct (deployEks env true w) as [[a|e] w']; [|exact I].
      cbn. right. left. destruct H as [-> _]. split; [exact Hd|exact He].
    + eapply hoare_pre; [intros w [H _]; exact H|].
      eapply hoare_bind with (Q' := fun _ => advancing componentArgs o 1 0 []).
      { unfold deployEks.
        apply hoare_bind_stable; [stable_auto|]. intros u1.
        apply hoare_bind_stable; [stable_auto|]. intros u2.
        apply hoare_bind_stable; [stable_auto|]. intros u3.
        apply hoare_bind_stable; [stable_auto|]. intros u4.
        apply hoare_bind_stable; [stable_auto|]. intros outputs.
        apply updateEksState_advances. }
      intros u1. apply up_after_provisioning_advances. exact Hf.
Qed.

Lemma hoare_true {A} (P : World -> Prop) (m : M A) :
  hoare P m (fun _ _ => True) (fun _ _ => True).
Proof. intros w _. destruct (m w) as [[a|e] w']; exact I. Qed.

Lemma hoare_both {A} (P1 P2 : World -> Prop) (m : M A) (Q1 Q2 : A -> World -> Prop) :
  hoare P1 m Q1 (fun _ _ => True) ->
  hoare P2 m Q2 (fun _ _ => True) ->
  hoare (fun w => P1 w /\ P2 w) m (fun a w => Q1 a w /\ Q2 a w) (fun _ _ => True).
Proof.
  intros H1 H2 w [Hw1 Hw2]. specialize (H1 w Hw1). specialize (H2 w Hw2).
  destruct (m w) as [[a|e] w']; auto.
Qed.

(** [up] ends with the state file holding the state object. *)
Lemma up_after_provisioning_synced env config np componentArgs o P :
  hoare P (up_after_provisioning env config np componentArgs o)
    (fun _ => synced) (fun _ _ => True).
Proof.
  unfold up_after_provisioning.
  eapply hoare_bind; [apply hoare_true|]. intros s.
  eapply hoare_bind; [apply hoare_true|]. intros u1.
  eapply hoare_bind; [apply hoare_true|]. intros s2.
  eapply hoare_bind; [apply hoare_true|]. intros u2.
  eapply hoare_bind; [apply hoare_true|]. intros u3.
  eapply hoare_bind with (Q' := fun _ => synced).
  { unfold saveState.
    eapply hoare_bind; [apply hoare_true|]. intros t.
    eapply hoare_bind; [apply hoare_true|]. intros u4.
    apply synced_writeFileSync. }
  intros u4. apply hoare_stable_weak. stable_auto.
Qed.

Lemma up_body_synced env config componentArgs o :
  hoare synced (up_body env config componentArgs o)
    (fun _ => synced) (fun _ _ => True).
Proof.
  unfold up_body.
  apply hoare_bind_stable; [stable_auto|]. intros u.
  apply hoare_bind_stable; [apply stable_get_state|]. intros s. cbv zeta.
  destruct (negb (eks_deployed s) || up_force o).
  - destruct (up_dryRun o).
    + apply hoare_bind_stable; [stable_auto|]. intros u1. apply hoare_ret. auto.
    + eapply hoare_bind; [apply hoare_true|]. intros u1.
      apply up_after_provisioning_synced.
  - eapply hoare_bind; [apply hoare_true|]. intros u1.
    apply up_after_provisioning_synced.
Qed.

(** When [up] exits with code [0] and reported no failure, the lab is
    settled and the state file says so. *)
Lemma first_up_settles env config componentArgs o p :
  up_force o = false ->
  fst (lab env config (CmdUp componentArgs o) p) = Ok 0 ->
  failure_logged (trace (snd (lab env config (CmdUp componentArgs o) p))) = false ->
  exists s1,
    disk (snd (lab env config (CmdUp componentArgs o) p)) = Some s1 /\
    settled componentArgs o s1 (releases (snd (lab env config (CmdUp componentArgs o) p))).
Proof.
  intros Hf Hok Hnf.
  assert (H : hoare (fun w => synced w /\ advancing componentArgs o 0 0 [] w)
                (run_command env config (CmdUp componentArgs o))
                (fun z w => z = 0 ->
                            synced w /\
                            (failed w \/ settled componentArgs o (mem w) (releases w)))
                (fun _ _ => True)).
  { unfold run_command, up. apply hoare_try_catch with (E' := fun _ _ => True).
    - apply hoare_try_catch with (E' := fun _ _ => True).
      + eapply hoare_bind.
        * apply hoare_both; [apply up_body_synced|apply up_body_advances; exact Hf].
        * intros u. apply hoare_ret. auto.
      + intros e. eapply hoare_bind; [apply hoare_true|]. intros u.
        apply hoare_ret. intros w _ Hz. discriminate Hz.
    - intros e. eapply hoare_bind; [apply hoare_true|]. intros u.
      apply hoare_ret. intros w _ Hz. discriminate Hz. }
  unfold lab in *. destruct (p_disk p) as [s0|] eqn:Hd.
  - specialize (H (start config p)).
    destruct (run_command env config (CmdUp componentArgs o) (start config p))
      as [[z|e] w']; cbn [fst snd] in *; [|discriminate Hok].
    injection Hok as ->.
    destruct H as [Hs [Hfail|Hset]]; [| reflexivity | |].
    + unfold start, loadState. rewrite Hd. cbn. split; [reflexivity|].
      right. split; [|constructor].
      split; [intros; lia|]. split; [intros; lia|]. split; [intros; lia|].
      intros c Hc. cbn in Hc. lia.
    + unfold failed in Hfail. rewrite Hfail in Hnf. discriminate Hnf.
    + exists (mem w'). split; [exact Hs|exact Hset].
  - exfalso. unfold start, loadState in Hok. rewrite Hd in Hok.
    vm_compute in Hok. discriminate Hok.
Qed.

(** ** Two runs of [up] *)

(** [lab up] with arguments [componentArgs] and options [o], and the same
    command run again on what the first run left: the state file, the
    releases, the time.  The tools may answer the second run otherwise
    ([env']); [helm status] still reports the releases that are there. *)
Definition first_up (env : Env) (config : Config) (componentArgs : list string)
    (o : UpOptions) (p : Persistent) : Res Z * World :=
  lab env config (CmdUp componentArgs o) p.

Definition second_up (env env' : Env) (config : Config) (componentArgs : list string)
    (o : UpOptions) (p : Persistent) : Res Z * World :=
  lab env' config (CmdUp componentArgs o)
    (persist (snd (first_up env config componentArgs o p))).



Definition first_up_all : Res Z * World :=
  first_up all_succeed sample_config [] up_all_components after_bootstrap.

Definition second_up_all : Res Z * World :=
  second_up all_succeed all_succeed sample_config [] up_all_components after_bootstrap.


(** * Further properties of the commands *)

(** ** [down]: confirmation *)

(** The answers are trimmed as JavaScript trims them: a no-break space or
    an ideographic space around the answer is white space too, a zero width
    space is not. *)
Definition no_break_space : string :=
  String (ascii_of_nat 194) (String (ascii_of_nat 160) EmptyString).

Definition ideographic_space : string :=
  String (ascii_of_nat 227) (String (ascii_of_nat 128) (String (ascii_of_nat 128) EmptyString)).

Definition zero_width_space : string :=
  String (ascii_of_nat 226) (String (ascii_of_nat 128) (String (ascii_of_nat 139) EmptyString)).

Lemma trim_unicode_white_space :
  trim (no_break_space ++ "y") = "y" /\
  trim (no_break_space ++ " lab" ++ ideographic_space ++ line_feed) = "lab" /\
  trim (" a" ++ no_break_space ++ "b ") = "a" ++ no_break_space ++ "b" /\
  trim (zero_width_space ++ "y") = zero_width_space ++ "y".
Proof. vm_compute. repeat split; reflexivity. Qed.

(** X1. A normal [down] on a deployed cluster asks for confirmation, and
    any answer other than "y" or "yes" (case apart, and the white space of
    JavaScript around it apart), the empty answer included, aborts it: the command exits with code 0 and has
    only shown the plan and asked; the state, the state file and the
    cluster are as they were. *)
Theorem down_declined_changes_nothing env config sched w :
  eks_deployed (mem w) = true ->
  toLowerCase (trim (typed env (clock w))) <> "y" ->
  toLowerCase (trim (typed env (clock w))) <> "yes" ->
  down env config sched (mkDownOptions false false) w =
    (Ok 0, mkWorld (mem w) (disk w) (releases w) (clock w + 1)
             (trace w ++ [Logged "Teardown Plan"; Called PromptConfirm;
                          Logged "Aborted by user."])).
Proof.
  intros He Hy Hyes.
  unfold down, down_body, try_catch, bind, get_state. rewrite He.
  cbn [negb down_destroyFoundation down_force].
  unfold confirm, read_answer, bind, read_clock, call. cbn.
  destruct (String.eqb_spec (toLowerCase (trim (typed env (clock w)))) "") as [E|E].
  - cbn. rewrite <- !app_assoc. reflexivity.
  - destruct (String.eqb_spec (toLowerCase (trim (typed env (clock w)))) "y") as [E1|E1];
      [contradiction|].
    destruct (String.eqb_spec (toLowerCase (trim (typed env (clock w)))) "yes") as [E2|E2];
      [contradiction|].
    cbn. rewrite <- !app_assoc. reflexivity.
Qed.

Definition answers_no : Env := sample_env (fun _ _ => Success) " No ".

Lemma down_declined_changes_nothing_witness :
  eks_deployed (mem core_world) = true /\
  toLowerCase (trim (typed answers_no (clock core_world))) <> "y" /\
  toLowerCase (trim (typed answers_no (clock core_world))) <> "yes" /\
  down answers_no sample_config [] (mkDownOptions false false) core_world =
    (Ok 0, mkWorld (mem core_world) (disk core_world) (releases core_world)
             (clock core_world + 1)
             (trace core_world ++ [Logged "Teardown Plan"; Called PromptConfirm;
                                   Logged "Aborted by user."])).
Proof.
  assert (H1 : toLowerCase (trim (typed answers_no (clock core_world))) <> "y")
    by (vm_compute; discriminate).
  assert (H2 : toLowerCase (trim (typed answers_no (clock core_world))) <> "yes")
    by (vm_compute; discriminate).
  split; [reflexivity|]. split; [exact H1|]. split; [exact H2|].
  exact (down_declined_changes_nothing answers_no sample_config [] core_world
           eq_refl H1 H2).
Defined.

(** X2. [down --destroy-foundation] destroys nothing unless the operator
    types the name of the lab (white space around it apart, case
    included): with any other answer the command exits with code 0 after
    the warning and the question, whether or not [--force] is given. *)
Theorem destroy_needs_the_lab_name env config sched force w :
  eks_deployed (mem w) = true ->
  trim (typed env (clock w)) <> config_lab_name config ->
  down env config sched (mkDownOptions force true) w =
    (Ok 0, mkWorld (mem w) (disk w) (releases w) (clock w + 1)
             (trace w ++ [Logged "WARNING: You are about to destroy ALL infrastructure";
                          Called PromptConfirmDestructive;
                          Logged "Aborted by user."])).
Proof.
  intros He Hn.
  unfold down, down_body, try_catch, bind, get_state. rewrite He.
  cbn [negb down_destroyFoundation down_force].
  unfold confirmDestructive, read_answer, bind, read_clock, call, log, emit. cbn.
  destruct (String.eqb_spec (trim (typed env (clock w))) (config_lab_name config)) as [E|E];
    [contradiction|].
  cbn. rewrite <- !app_assoc. reflexivity.
Qed.

Lemma destroy_needs_the_lab_name_witness :
  eks_deployed (mem core_world) = true /\
  trim (typed all_succeed (clock core_world)) <> config_lab_name sample_config /\
  down all_succeed sample_config [] (mkDownOptions true true) core_world =
    (Ok 0, mkWorld (mem core_world) (disk core_world) (releases core_world)
             (clock core_world + 1)
             (trace core_world ++
              [Logged "WARNING: You are about to destroy ALL infrastructure";
               Called PromptConfirmDestructive;
               Logged "Aborted by user."])).
Proof.
  assert (H : trim (typed all_succeed (clock core_world)) <> config_lab_name sample_config)
    by (vm_compute; discriminate).
  split; [reflexivity|]. split; [exact H|].
  exact (destroy_needs_the_lab_name all_succeed sample_config [] true core_world eq_refl H).
Defined.

(** ** [down --destroy-foundation]: the complete teardown *)

(** Every layer is recorded as gone, on disk as in memory, and the component
    records are [cs]. *)
Definition wiped (cs : Components) (w : World) : Prop :=
  disk w = Some (mem w) /\
  bootstrapped (mem w) = false /\ bootstrap_outputs (mem w) = None /\
  foundation_deployed (mem w) = false /\ foundation_outputs (mem w) = None /\
  eks_deployed (mem w) = false /\ eks_outputs (mem w) = None /\
  cluster_ready (mem w) = Some false /\ cluster_context (mem w) = None /\
  essentials_deployed (mem w) = Some false /\
  components (mem w) = cs.

Definition records_are (cs : Components) (w : World) : Prop :=
  components (mem w) = cs.

Lemma records_are_call cs env c : stable (records_are cs) (call env c).
Proof.
  intros w H. unfold call. destruct (gateway env (clock w) (releases w) c). exact H.
Qed.

Lemma records_are_log cs m : stable (records_are cs) (log m).
Proof. intros w H. exact H. Qed.

#[export] Hint Resolve records_are_call records_are_log : stable_prims.

Lemma destroyAll_wipes env cs :
  hoare (records_are cs) (destroyAll env) (fun _ => wiped cs) (fun _ _ => True).
Proof.
  unfold destroyAll.
  apply hoare_bind_stable; [stable_auto|]. intros u1.
  apply hoare_bind_stable; [apply stable_get_state|]. intros s1.
  apply hoare_bind_stable; [stable_auto|]. intros u2.
  apply hoare_bind_stable; [apply stable_get_state|]. intros s2.
  apply hoare_bind_stable; [stable_auto|]. intros u3.
  apply hoare_bind_stable; [apply stable_get_state|]. intros s3.
  apply hoare_bind_stable; [stable_auto|]. intros u4.
  intros w Hw. cbn. unfold wiped. cbn. repeat split. exact Hw.
Qed.

Lemma confirmDestructive_spec env v w :
  confirmDestructive env v w =
    (Ok (String.eqb (trim (typed env (clock w))) v),
     mkWorld (mem w) (disk w) (releases w) (clock w + 1)
       (trace w ++ [Called PromptConfirmDestructive])).
Proof. reflexivity. Qed.

Lemma wiped_log cs m : stable (wiped cs) (log m).
Proof. intros w H. exact H. Qed.

(** X3. When [down --destroy-foundation] ends with exit code 0 after the
    operator typed the lab name, the state file holds the state object,
    every layer is recorded as gone (the three phase flags false, the
    outputs removed, the cluster fields cleared), and the component records
    are exactly those of the start: unlike the normal teardown, the
    complete one clears no component record. *)
Theorem complete_teardown_keeps_component_records env config sched force w :
  eks_deployed (mem w) = true ->
  trim (typed env (clock w)) = config_lab_name config ->
  fst (down env config sched (mkDownOptions force true) w) = Ok 0 ->
  wiped (components (mem w)) (snd (down env config sched (mkDownOptions force true) w)).
Proof.
  intros He Hn Hexit.
  assert (H : hoare (fun w' => w' = w)
                (down env config sched (mkDownOptions force true))
                (fun z w' => z = 0 -> wiped (components (mem w)) w')
                (fun _ _ => True)).
  { unfold down. apply hoare_try_catch with (E' := fun _ _ => True).
    - eapply hoare_bind with (Q' := fun _ => wiped (components (mem w))).
      2:{ intros u. apply hoare_ret. auto. }
      unfold down_body. apply hoare_bind_get_state. intros s.
      intros w' [-> <-]. rewrite He.
      cbn [negb down_destroyFoundation down_force].
      erewrite bind_ok by reflexivity.
      erewrite bind_ok by apply confirmDestructive_spec.
      cbn [clock]. rewrite Hn, String.eqb_refl. cbn [negb].
      assert (Hda : hoare (records_are (components (mem w)))
                      (destroyAll env ;; log "Complete Teardown Successful")
                      (fun _ => wiped (components (mem w))) (fun _ _ => True)).
      { eapply hoare_bind; [apply destroyAll_wipes|].
        intros u. apply hoare_stable_weak. apply wiped_log. }
      apply Hda. reflexivity.
    - intros e. eapply hoare_bind; [apply hoare_true|]. intros u.
      apply hoare_ret. intros w' _ Hz. discriminate Hz. }
  specialize (H w eq_refl).
  destruct (down env config sched (mkDownOptions force true) w) as [[z|e] w'];
    cbn [fst snd] in *; [|discriminate Hexit].
  apply H. congruence.
Qed.

Definition types_lab_name : Env := sample_env (fun _ _ => Success) " lab ".

Lemma complete_teardown_keeps_component_records_witness :
  eks_deployed (mem core_world) = true /\
  trim (typed types_lab_name (clock core_world)) = config_lab_name sample_config /\
  fst (down types_lab_name sample_config [] (mkDownOptions false true) core_world) = Ok 0 /\
  wiped (components (mem core_world))
    (snd (down types_lab_name sample_config [] (mkDownOptions false true) core_world)).
Proof.
  assert (H : fst (down types_lab_name sample_config [] (mkDownOptions false true)
                     core_world) = Ok 0) by (vm_compute; reflexivity).
  split; [reflexivity|]. split; [reflexivity|]. split; [exact H|].
  exact (complete_teardown_keeps_component_records types_lab_name sample_config []
           false core_world eq_refl eq_refl H).
Defined.


(** ** A forced teardown always reaches terraform *)

Lemma log_returns (I : World -> Prop) m :
  stable I (log m) -> hoare I (log m) (fun _ => I) (fun _ _ => False).
Proof. intros H w Hw. exact (H w Hw). Qed.

Lemma stable_or {A} (I J : World -> Prop) (m : M A) :
  stable I m -> stable J m -> stable (fun w => I w \/ J w) m.
Proof.
  intros HI HJ w [Hw|Hw].
  - specialize (HI w Hw). destruct (m w) as [[a|e] w']; left; exact HI.
  - specialize (HJ w Hw). destruct (m w) as [[a|e] w']; right; exact HJ.
Qed.

Lemma terraform_called env p c :
  hoare (has_prefix p) (terraform env c)
    (fun _ => called_since p c) (fun _ => called_since p c).
Proof.
  unfold terraform, call_or_throw. eapply hoare_bind; [apply call_called_since|].
  intros r. destruct r; first [apply hoare_ret | apply hoare_throw]; auto.
Qed.

Definition destroy_started (p : list Event) (w : World) : Prop :=
  called_since p (TfWriteBackendConfig EphemeralDir) w \/
  called_since p (TfInit EphemeralDir) w.

Lemma destroy_started_stable {A} p (m : M A) :
  (forall q, stable (has_prefix q) m) -> stable (destroy_started p) m.
Proof. intros H. apply stable_or; apply called_since_stable; exact H. Qed.

Lemma destroyEks_started env p :
  hoare (has_prefix p) (destroyEks env)
    (fun _ => destroy_started p) (fun _ => destroy_started p).
Proof.
  unfold destroyEks.
  eapply hoare_bind with (Q' := fun _ => has_prefix p); [apply hoare_get_state; auto|].
  intros s. destruct (is_some (bootstrap_outputs s)).
  - eapply hoare_bind with (Q' := fun _ => destroy_started p).
    + eapply hoare_conseq; [apply (terraform_called env p)| | |]; cbn; auto;
        intros; left; assumption.
    + intros u. apply destroy_started_stable. intros q. stable_auto.
  - eapply hoare_bind with (Q' := fun _ => has_prefix p); [apply hoare_ret; auto|].
    intros u.
    eapply hoare_bind with (Q' := fun _ => destroy_started p).
    + eapply hoare_conseq; [apply (terraform_called env p)| | |]; cbn; auto;
        intros; right; assumption.
    + intros u1. apply destroy_started_stable. intros q. stable_auto.
Qed.

Lemma down_teardown_started env sched p :
  hoare (has_prefix p) (down_teardown env sched)
    (fun _ => destroy_started p) (fun _ => destroy_started p).
Proof.
  unfold down_teardown.
  eapply hoare_bind with (Q' := fun _ => has_prefix p).
  { unfold checkKubectlInstalled. eapply hoare_bind with (Q' := fun _ => has_prefix p).
    - intros w Hw. pose proof (has_prefix_call p env KubectlVersion w Hw) as H.
      unfold call in *. destruct (gateway env (clock w) (releases w) KubectlVersion).
      exact H.
    - intros r. apply hoare_ret. auto. }
  intros hasKubectl.
  eapply hoare_bind with (Q' := fun _ => has_prefix p);
    [apply hoare_get_state; auto|]. intros s.
  eapply hoare_bind with (Q' := fun _ => has_prefix p).
  { destruct (hasKubectl && truthy (cluster_ready s)).
    - apply hoare_try_catch with (E' := fun _ => has_prefix p).
      + as_stable. stable_auto; try stable_batch.
      + intros e. apply log_returns. apply has_prefix_log.
    - apply log_returns. apply has_prefix_log. }
  intros u1.
  eapply hoare_bind with (Q' := fun _ => has_prefix p);
    [apply log_returns; apply has_prefix_log|]. intros u2.
  eapply hoare_bind; [apply destroyEks_started|]. intros u3.
  apply destroy_started_stable. intros q. stable_auto.
Qed.

(** X5. With [--force], [down] on a deployed cluster always goes on to
    destroy the cluster with terraform, whatever kubectl and helm answer
    and however the concurrent undeploys interleave: failures of the
    undeploy and shutdown steps are contained, and the first terraform
    command of [destroyEks] (writing the backend configuration, or
    [terraform init] when there is none) is always run. *)
Theorem forced_down_reaches_terraform env config sched w :
  eks_deployed (mem w) = true ->
  exists evs,
    trace (snd (down env config sched (mkDownOptions true false) w)) =
      (trace w ++ evs)%list /\
    (In (Called (TfWriteBackendConfig EphemeralDir)) evs \/
     In (Called (TfInit EphemeralDir)) evs).
Proof.
  intros He.
  assert (H : hoare (fun w' => has_prefix (trace w) w' /\ mem w' = mem w)
                (down env config sched (mkDownOptions true false))
                (fun _ => destroy_started (trace w))
                (fun _ => destroy_started (trace w))).
  { unfold down. apply hoare_try_catch with (E' := fun _ => destroy_started (trace w)).
    - eapply hoare_bind with (Q' := fun _ => destroy_started (trace w)).
      2:{ intros u. apply hoare_ret. auto. }
      unfold down_body. apply hoare_bind_get_state. intros s.
      cbn [down_destroyFoundation down_force negb].
      intros w' [[Hp Hm] Hs]. rewrite Hm in Hs. subst s. rewrite He. cbn [negb].
      apply (down_teardown_started env sched (trace w) w' Hp).
    - intros e. eapply hoare_bind with (Q' := fun _ => destroy_started (trace w)).
      + apply destroy_started_stable. intros q. apply has_prefix_log.
      + intros u. apply hoare_ret. auto. }
  specialize (H w (conj (has_prefix_refl w) eq_refl)).
  assert (Hs : destroy_started (trace w)
                 (snd (down env config sched (mkDownOptions true false) w))).
  { destruct (down env config sched (mkDownOptions true false) w) as [[z|e] w'];
      exact H. }
  destruct Hs as [[evs [Ht Hin]]|[evs [Ht Hin]]]; exists evs; auto.
Qed.

Definition kubectl_broken : Env :=
  sample_env (fun _ c => match c with
                         | HelmUninstall _ | KubectlDeleteNamespace _ => Failure
                         | _ => Success
                         end) "y".

Lemma forced_down_reaches_terraform_witness :
  eks_deployed (mem full_world) = true /\
  exists evs,
    trace (snd (down kubectl_broken sample_config [] (mkDownOptions true false)
                  full_world)) = (trace full_world ++ evs)%list /\
    (In (Called (TfWriteBackendConfig EphemeralDir)) evs \/
     In (Called (TfInit EphemeralDir)) evs).
Proof.
  split; [reflexivity|].
  exact (forced_down_reaches_terraform kubectl_broken sample_config [] full_world eq_refl).
Defined.

(** ** [bootstrap] *)


(** X6. [bootstrap] without [--force] on a lab whose backend and foundation
    are recorded as deployed does nothing: it prints two messages and
    returns, without any terraform command and without saving, whatever the
    other options. *)
Theorem bootstrap_again_is_noop env o w :
  bootstrapped (mem w) = true ->
  foundation_deployed (mem w) = true ->
  bootstrap_force o = false ->
  bootstrap env o w =
    (Ok tt, mkWorld (mem w) (disk w) (releases w) (clock w)
              (trace w ++ [Logged "State backend already exists.";
                           Logged "Foundation already deployed. Use --force to re-run."])).
Proof.
  intros Hb Hf Ho. unfold bootstrap, bind, get_state. rewrite Hb, Hf, Ho. cbn.
  unfold log, emit. cbn. rewrite <- app_assoc. reflexivity.
Qed.

Lemma bootstrap_again_is_noop_witness :
  bootstrapped (mem (world_of bootstrapped_state [])) = true /\
  foundation_deployed (mem (world_of bootstrapped_state [])) = true /\
  bootstrap_force (mkBootstrapOptions false false false) = false /\
  bootstrap all_succeed (mkBootstrapOptions false false false)
    (world_of bootstrapped_state []) =
    (Ok tt, mkWorld (mem (world_of bootstrapped_state []))
              (disk (world_of bootstrapped_state []))
              (releases (world_of bootstrapped_state []))
              (clock (world_of bootstrapped_state []))
              (trace (world_of bootstrapped_state []) ++
               [Logged "State backend already exists.";
                Logged "Foundation already deployed. Use --force to re-run."])).
Proof.
  split; [reflexivity|]. split; [reflexivity|]. split; [reflexivity|].
  exact (bootstrap_again_is_noop all_succeed (mkBootstrapOptions false false false)
           (world_of bootstrapped_state []) eq_refl eq_refl eq_refl).
Defined.

(** X7. [bootstrap --dry-run] cannot plan the foundation of a lab that has
    no recorded backend: the dry run of step 1 records no outputs, so
    step 2 throws "Bootstrap not complete" (or terraform has failed
    before), and the command exits with code 1.  This holds for a lab
    without state file and for any state without [bootstrap_outputs] whose
    foundation has to be deployed. *)
Theorem bootstrap_dry_run_cannot_plan_foundation env config force p :
  (forall s, p_disk p = Some s ->
             bootstrap_outputs s = None /\
             (foundation_deployed s = false \/ force = true)) ->
  fst (lab env config (CmdBootstrap (mkBootstrapOptions true false force)) p) = Ok 1.
Proof.
  intros Hp. unfold lab.
  set (w := start config p).
  assert (Hw : bootstrap_outputs (mem w) = None /\
               (foundation_deployed (mem w) = false \/ force = true)).
  { subst w. unfold start, loadState. destruct (p_disk p) as [s|]; cbn.
    - apply Hp. reflexivity.
    - auto. }
  destruct Hw as [Hbo Hfd].
  assert (Hc : foundation_deployed (mem w) && negb force = false).
  { destruct Hfd as [H|H]; rewrite H; [reflexivity|apply andb_false_r]. }
  assert (Hrest : hoare (same_state (mem w) (disk w))
                    (bootstrap_rest env (mkBootstrapOptions true false force))
                    (fun _ _ => False) (fun _ _ => True)).
  { unfold bootstrap_rest.
    cbn [bootstrap_skipFoundation bootstrap_dryRun bootstrap_force negb].
    eapply hoare_bind with (Q' := fun _ _ => False); [|intros u w' []].
    apply hoare_bind_get_state. intros s.
    intros w' [[Hm Hd] Hs]. rewrite Hm in Hs. subst s.
    rewrite Hc. unfold deployFoundation, bind, get_state. rewrite Hm, Hbo. cbn. exact I. }
  assert (H : hoare (same_state (mem w) (disk w))
                (bootstrap env (mkBootstrapOptions true false force))
                (fun _ _ => False) (fun _ _ => True)).
  { unfold bootstrap. apply hoare_bind_get_state. intros s.
    cbn [bootstrap_skipFoundation bootstrap_dryRun bootstrap_force negb].
    destruct (bootstrapped s && negb force) eqn:Hb.
    - eapply hoare_bind with (Q' := fun _ w' => same_state (mem w) (disk w) w' /\ mem w' = s).
      { intros w' [Hw' Hs]. split; [exact Hw'|exact Hs]. }
      intros u. rewrite andb_true_r.
      destruct (negb (foundation_deployed s)) eqn:Hfs.
      + eapply hoare_bind with (Q' := fun _ => same_state (mem w) (disk w)).
        * intros w' [Hw' _]. exact Hw'.
        * intros u1. exact Hrest.
      + intros w' [[Hm Hd] Hs]. exfalso. rewrite Hm in Hs. subst s.
        apply negb_false_iff in Hfs. apply andb_true_iff in Hb. destruct Hb as [_ Hb].
        rewrite Hfs, Hb in Hc. discriminate Hc.
    - eapply hoare_bind with (Q' := fun _ => same_state (mem w) (disk w)).
      + eapply hoare_pre; [intros w' [Hw' _]; exact Hw'|].
        apply hoare_stable_weak. stable_auto.
      + intros u. exact Hrest. }
  specialize (H w (conj eq_refl eq_refl)).
  unfold run_command, try_catch, bind.
  destruct (bootstrap env (mkBootstrapOptions true false force) w) as [[u|e] w'].
  - destruct H.
  - reflexivity.
Qed.

Lemma bootstrap_dry_run_cannot_plan_foundation_witness :
  (forall s, p_disk (mkPersistent None [] 0) = Some s ->
             bootstrap_outputs s = None /\
             (foundation_deployed s = false \/ false = true)) /\
  fst (lab all_succeed sample_config (CmdBootstrap (mkBootstrapOptions true false false))
         (mkPersistent None [] 0)) = Ok 1.
Proof.
  assert (H : forall s, p_disk (mkPersistent None [] 0) = Some s ->
                        bootstrap_outputs s = None /\
                        (foundation_deployed s = false \/ false = true))
    by (intros s Hs; discriminate Hs).
  split; [exact H|].
  exact (bootstrap_dry_run_cannot_plan_foundation all_succeed sample_config false
           (mkPersistent None [] 0) H).
Defined.

(** ** [bootstrap --dry-run] *)

(** X8. [bootstrap --dry-run] only plans: whatever the starting state, the
    other options and the answers of terraform, the state object and the
    state file are unchanged, nothing is saved and no mutating command
    (no [terraform apply]) is run. *)
Theorem bootstrap_dry_run_only_plans env skipFoundation force w :
  untouched (mem w) (disk w) (trace w)
    (snd (bootstrap env (mkBootstrapOptions true skipFoundation force) w)).
Proof.
  exact (stable_snd _ _ w
           (bootstrap_dry_run_untouched env skipFoundation force (mem w) (disk w) (trace w))
           (untouched_start w)).
Qed.

(** ** [up]: the pre-flight checks *)

Lemma preFlightChecks_untouched env skipComponents s d p :
  stable (untouched s d p) (preFlightChecks env skipComponents).
Proof. stable_auto. Qed.

(** X9. When a pre-flight check of [up] fails (foundation not recorded, or
    kubectl, the AWS CLI or helm missing), [up] exits with code 1 and
    nothing was modified: the state object and the state file are as they
    were, nothing was saved and no mutating command was run. *)
Theorem failed_preflight_changes_nothing env config componentArgs o w e :
  fst (preFlightChecks env (up_skipComponents o) w) = Throw e ->
  fst (up env config componentArgs o w) = Ok 1 /\
  untouched (mem w) (disk w) (trace w) (snd (up env config componentArgs o w)).
Proof.
  intros Hpre.
  pose proof (preFlightChecks_untouched env (up_skipComponents o) (mem w) (disk w)
                (trace w) w (untouched_start w)) as H.
  unfold up, up_body, try_catch, bind.
  destruct (preFlightChecks env (up_skipComponents o) w) as [[u|e'] w1];
    cbn [fst] in Hpre; [discriminate Hpre|].
  split; [reflexivity|].
  assert (Hh : stable (untouched (mem w) (disk w) (trace w))
                 (log ("Error during 'lab up': " ++ e') ;; ret 1)) by stable_auto.
  exact (stable_snd _ _ w1 Hh H).
Qed.

Definition no_kubectl : Env :=
  sample_env (fun _ c => match c with
                         | KubectlVersion => Failure
                         | _ => Success
                         end) "y".

Lemma failed_preflight_changes_nothing_witness :
  fst (preFlightChecks no_kubectl (up_skipComponents plain_up)
         (world_of bootstrapped_state [])) = Throw kubectl_missing /\
  fst (up no_kubectl sample_config [] plain_up (world_of bootstrapped_state [])) = Ok 1 /\
  untouched (mem (world_of bootstrapped_state [])) (disk (world_of bootstrapped_state []))
    (trace (world_of bootstrapped_state []))
    (snd (up no_kubectl sample_config [] plain_up (world_of bootstrapped_state []))).
Proof.
  split; [reflexivity|].
  exact (failed_preflight_changes_nothing no_kubectl sample_config [] plain_up
           (world_of bootstrapped_state []) kubectl_missing eq_refl).
Defined.

(** X10. [up] on a lab whose foundation is not recorded as deployed (or
    that has no bootstrap outputs) is rejected before any external command:
    it prints the error and exits with code 1, whatever the arguments and
    options. *)
Theorem up_without_foundation_is_rejected env config componentArgs o w :
  foundation_deployed (mem w) = false \/ bootstrap_outputs (mem w) = None ->
  up env config componentArgs o w =
    (Ok 1, mkWorld (mem w) (disk w) (releases w) (clock w)
             (trace w ++
              [Logged "Pre-flight Checks";
               Logged "Error during 'lab up': Foundation not deployed. Run 'lab bootstrap' first."])).
Proof.
  intros H.
  assert (Hc : negb (foundation_deployed (mem w)) || negb (is_some (bootstrap_outputs (mem w)))
               = true).
  { destruct H as [H|H]; rewrite H; [reflexivity|apply orb_true_r]. }
  unfold up, up_body, try_catch, bind, preFlightChecks, bind, log, emit, get_state.
  cbn. rewrite Hc. cbn. rewrite <- app_assoc. reflexivity.
Qed.

Lemma up_without_foundation_is_rejected_witness :
  (foundation_deployed (initial_state "lab" 0 1) = false \/
   bootstrap_outputs (initial_state "lab" 0 1) = None) /\
  up all_succeed sample_config [] up_all_components (world_of (initial_state "lab" 0 1) []) =
    (Ok 1, mkWorld (initial_state "lab" 0 1) (Some (initial_state "lab" 0 1)) [] 100
             [Logged "Pre-flight Checks";
              Logged "Error during 'lab up': Foundation not deployed. Run 'lab bootstrap' first."]).
Proof.
  split; [left; reflexivity|].
  exact (up_without_foundation_is_rejected all_succeed sample_config [] up_all_components
           (world_of (initial_state "lab" 0 1) []) (or_introl eq_refl)).
Defined.


(** ** [up --skip-components] *)

Definition helm_or_psql (c : Call) : bool :=
  match c with
  | HelmVersion | HelmStatus _ | HelmRepoAdd _ | HelmRepoUpdate
  | HelmInstall _ | HelmUninstall _
  | PsqlVersion | PsqlCheckDatabase _ | PsqlCreateDatabase _ => true
  | _ => false
  end.

(** Since the events [p], neither helm nor psql was run. *)
Definition no_helm_or_psql (p : list Event) (w : World) : Prop :=
  exists evs, trace w = (p ++ evs)%list /\
              forallb (fun c => negb (helm_or_psql c)) (calls evs) = true.

Lemma no_helm_or_psql_call p env c :
  helm_or_psql c = false -> stable (no_helm_or_psql p) (call env c).
Proof.
  intros Hc w [evs [H1 H2]]. unfold call.
  destruct (gateway env (clock w) (releases w) c).
  exists (evs ++ [Called c])%list. cbn. split; [rewrite H1, app_assoc; reflexivity|].
  rewrite calls_app, forallb_app. cbn. rewrite H2, Hc. reflexivity.
Qed.

Lemma no_helm_or_psql_log p m : stable (no_helm_or_psql p) (log m).
Proof.
  intros w [evs [H1 H2]]. exists (evs ++ [Logged m])%list. cbn.
  split; [rewrite H1, app_assoc; reflexivity|].
  rewrite calls_app. cbn. rewrite app_nil_r. exact H2.
Qed.

Lemma no_helm_or_psql_date_now p : stable (no_helm_or_psql p) date_now.
Proof. intros w H. exact H. Qed.

Lemma no_helm_or_psql_modify_state p f : stable (no_helm_or_psql p) (modify_state f).
Proof. intros w H. exact H. Qed.

Lemma no_helm_or_psql_writeFileSync p : stable (no_helm_or_psql p) writeFileSync.
Proof.
  intros w [evs [H1 H2]]. exists (evs ++ [Saved (mem w)])%list. cbn.
  split; [rewrite H1, app_assoc; reflexivity|].
  rewrite calls_app. cbn. rewrite app_nil_r. exact H2.
Qed.

#[export] Hint Resolve no_helm_or_psql_log no_helm_or_psql_date_now
  no_helm_or_psql_modify_state no_helm_or_psql_writeFileSync : stable_prims.
#[export] Hint Extern 1 (stable (no_helm_or_psql _) (call _ _)) =>
  apply no_helm_or_psql_call; reflexivity : stable_prims.

Lemma records_are_date_now cs : stable (records_are cs) date_now.
Proof. intros w H. exact H. Qed.

Lemma records_are_writeFileSync cs : stable (records_are cs) writeFileSync.
Proof. intros w H. exact H. Qed.

Lemma records_are_modify_state cs f :
  (forall s, components (f s) = components s) ->
  stable (records_are cs) (modify_state f).
Proof. intros Hf w H. unfold records_are in *. cbn. rewrite Hf. exact H. Qed.

#[export] Hint Resolve records_are_date_now records_are_writeFileSync : stable_prims.
#[export] Hint Extern 1 (stable (records_are _) (modify_state _)) =>
  apply records_are_modify_state; intros; reflexivity : stable_prims.

(** X11. [up --skip-components] never runs helm or psql, not even their
    version checks, and leaves the component records of the state as they
    are, whatever the other options, the arguments and the answers of the
    tools. *)
Theorem up_skip_components_leaves_components_alone env config componentArgs
    dryRun all force skipEssentials w :
  exists evs,
    trace (snd (up env config componentArgs
                  (mkUpOptions dryRun all force skipEssentials true) w)) =
      (trace w ++ evs)%list /\
    forallb (fun c => negb (helm_or_psql c)) (calls evs) = true /\
    components (mem (snd (up env config componentArgs
                            (mkUpOptions dryRun all force skipEssentials true) w))) =
      components (mem w).
Proof.
  assert (H1 : stable (no_helm_or_psql (trace w))
                 (up env config componentArgs
                    (mkUpOptions dryRun all force skipEssentials true))) by stable_auto.
  assert (H2 : stable (records_are (components (mem w)))
                 (up env config componentArgs
                    (mkUpOptions dryRun all force skipEssentials true))) by stable_auto.
  pose proof (stable_snd _ _ w H1 (ex_intro _ [] (conj (eq_sym (app_nil_r _)) eq_refl)))
    as [evs [Ht Hc]].
  pose proof (stable_snd _ _ w H2 eq_refl) as Hr.
  exists evs. split; [exact Ht|]. split; [exact Hc|exact Hr].
Qed.

(** ** Which components [deployComponents] deploys *)

Lemma includes_In l x : includes l x = true <-> In x l.
Proof.
  induction l as [|y l IH]; cbn; [split; [discriminate|tauto]|].
  destruct (String.eqb_spec y x) as [E|E].
  - split; auto.
  - rewrite IH. split; [auto|]. intros [H|H]; [contradiction|exact H].
Qed.

Lemma includes_false l x : includes l x = false <-> ~ In x l.
Proof.
  rewrite <- includes_In. destruct (includes l x); split; intros H;
    try reflexivity; try discriminate; try (intros H'; discriminate H').
  contradiction H. reflexivity.
Qed.

Lemma name_is_available c :
  includes availableComponents (toLowerCase (namespace_of c)) = true.
Proof. destruct c; reflexivity. Qed.

(** X12. When component names are given (and [--all] is not), the stage of
    a component runs exactly when its lower-case name is among the
    arguments as written: the filter lower-cases the arguments to validate
    them, but the stages test the arguments themselves. *)
Theorem stage_runs_iff_named componentArgs c :
  componentArgs <> [] ->
  (requested componentArgs false c = true <-> In (namespace_of c) componentArgs).
Proof.
  intros Hne. unfold requested, componentsToDeploy.
  destruct componentArgs as [|a l]; [contradiction Hne; reflexivity|].
  cbn [length Nat.ltb Nat.leb]. rewrite includes_In, filter_In.
  split; [intros [H _]; exact H|]. intros H. split; [exact H|apply name_is_available].
Qed.

Lemma stage_runs_iff_named_witness :
  ["Trino"; "opa"] <> [] /\
  (requested ["Trino"; "opa"] false Opa = true <-> In (namespace_of Opa) ["Trino"; "opa"]).
Proof.
  assert (H : ["Trino"; "opa"] <> []) by discriminate.
  split; [exact H|]. exact (stage_runs_iff_named ["Trino"; "opa"] Opa H).
Defined.

Lemma filter_all {A} (f : A -> bool) l : forallb f l = true -> filter f l = l.
Proof.
  induction l as [|a l IH]; cbn; [reflexivity|].
  destruct (f a); cbn; [|discriminate]. intros H. rewrite IH by exact H. reflexivity.
Qed.

Lemma filter_none {A} (f : A -> bool) l :
  forallb f l = true -> filter (fun a => negb (f a)) l = [].
Proof.
  induction l as [|a l IH]; cbn; [reflexivity|].
  destruct (f a); cbn; [|discriminate]. exact IH.
Qed.

(** X13. Hence names that are valid only after lower-casing deploy nothing
    and give no warning: when every argument lower-cases to a component
    name but none is a component name as written, [deployComponents]
    announces the deployment, runs no stage, no command and no save, and
    reports completion. *)
Theorem wrongly_cased_names_deploy_nothing env componentArgs force w :
  componentArgs <> [] ->
  forallb (fun a => includes availableComponents (toLowerCase a)) componentArgs = true ->
  (forall c, ~ In (namespace_of c) componentArgs) ->
  deployComponents env componentArgs false force w =
    (Ok tt, mkWorld (mem w) (disk w) (releases w) (clock w)
              (trace w ++ [Logged "Step 5: Deploying Components";
                           Logged "Component deployment complete"])).
Proof.
  intros Hne Hvalid Hnone.
  assert (Hk : forall c, includes componentArgs (namespace_of c) = false).
  { intros c. apply includes_false. apply Hnone. }
  pose proof (Hk Keycloak) as K1. pose proof (Hk Polaris) as K2.
  pose proof (Hk Trino) as K3. pose proof (Hk Spark) as K4. pose proof (Hk Opa) as K5.
  cbn [namespace_of] in K1, K2, K3, K4, K5.
  assert (Hlen : (0 <? length componentArgs)%nat = true).
  { destruct componentArgs; [contradiction Hne; reflexivity|reflexivity]. }
  assert (Hlen0 : (length componentArgs =? 0)%nat = false).
  { destruct componentArgs; [contradiction Hne; reflexivity|reflexivity]. }
  unfold deployComponents, componentsToDeploy. cbv zeta.
  rewrite (filter_none _ _ Hvalid), (filter_all _ _ Hvalid).
  rewrite Hlen, Hlen0, K1, K2, K3, K4, K5.
  cbn. unfold bind, log, emit. cbn. rewrite <- app_assoc. reflexivity.
Qed.

Lemma wrongly_cased_names_deploy_nothing_witness :
  ["Trino"; "OPA"] <> [] /\
  forallb (fun a => includes availableComponents (toLowerCase a)) ["Trino"; "OPA"] = true /\
  (forall c, ~ In (namespace_of c) ["Trino"; "OPA"]) /\
  deployComponents all_succeed ["Trino"; "OPA"] false false core_world =
    (Ok tt, mkWorld (mem core_world) (disk core_world) (releases core_world)
              (clock core_world)
              (trace core_world ++ [Logged "Step 5: Deploying Components";
                                    Logged "Component deployment complete"])).
Proof.
  assert (H1 : ["Trino"; "OPA"] <> []) by discriminate.
  assert (H3 : forall c, ~ In (namespace_of c) ["Trino"; "OPA"]).
  { intros c [H|[H|[]]]; destruct c; discriminate H. }
  split; [exact H1|]. split; [reflexivity|]. split; [exact H3|].
  exact (wrongly_cased_names_deploy_nothing all_succeed ["Trino"; "OPA"] false core_world
           H1 eq_refl H3).
Defined.

(** ** Only Keycloak aborts the deployment *)

Lemma contained_stage_returns (P : World -> Prop) name c deploy force :
  hoare P (deploy_stage name c deploy force false) (fun _ _ => True) (fun _ _ => False).
Proof.
  intros w _. unfold deploy_stage, try_catch.
  destruct ((componentState <- deploy force ;; updateComponentState c componentState) w)
    as [[u|e] w']; [exact I|]. cbn. exact I.
Qed.

Definition keycloak_failed (p : list Event) (e : string) (w : World) : Prop :=
  exists evs, trace w = (p ++ evs ++ [Logged ("Failed to deploy Keycloak: " ++ e)])%list.

Lemma keycloak_stage_fails env force p :
  hoare (has_prefix p) (deploy_stage "Keycloak" Keycloak (deployKeycloak env) force true)
    (fun _ _ => True) (keycloak_failed p).
Proof.
  unfold deploy_stage. apply hoare_try_catch with (E' := fun _ => has_prefix p).
  - eapply hoare_conseq with (Q' := fun _ => has_prefix p)
                             (E' := fun _ => has_prefix p) (P' := has_prefix p);
      [|auto|auto|auto].
    as_stable. stable_auto.
  - intros e w [evs Hw]. cbn. exists evs. rewrite Hw, <- app_assoc. reflexivity.
Qed.

(** X14. [deployComponents] throws only when the Keycloak stage fails: a
    thrown error means that Keycloak was requested, and the last thing the
    function did was to report "Failed to deploy Keycloak" with that error,
    so no later stage was started.  The failures of Polaris, Trino, Spark
    and OPA never leave the function. *)
Theorem only_keycloak_aborts_deployment env componentArgs all force w e :
  fst (deployComponents env componentArgs all force w) = Throw e ->
  requested componentArgs all Keycloak = true /\
  exists evs,
    trace (snd (deployComponents env componentArgs all force w)) =
      (trace w ++ evs ++ [Logged ("Failed to deploy Keycloak: " ++ e)])%list.
Proof.
  intros Hthrow.
  assert (H : hoare (has_prefix (trace w)) (deployComponents env componentArgs all force)
                (fun _ _ => True)
                (fun e' w' => requested componentArgs all Keycloak = true /\
                              keycloak_failed (trace w) e' w')).
  { unfold deployComponents. cbv zeta.
    eapply hoare_bind with (Q' := fun _ => has_prefix (trace w)).
    { destruct (negb all && (0 <? length componentArgs)%nat &&
                (0 <? length (filter (fun c => negb (includes availableComponents
                                                        (toLowerCase c)))
                                componentArgs))%nat).
      - intros w' Hw'. exact (has_prefix_log _ _ w' Hw').
      - apply hoare_ret. auto. }
    intros u.
    destruct (length (componentsToDeploy componentArgs all) =? 0)%nat.
    { intros w' _. exact I. }
    eapply hoare_bind with (Q' := fun _ => has_prefix (trace w)).
    { intros w' Hw'. exact (has_prefix_log _ _ w' Hw'). }
    intros u1.
    eapply hoare_bind with (Q' := fun _ _ => True).
    { fold (requested componentArgs all Keycloak).
      change (includes (componentsToDeploy componentArgs all) "keycloak")
        with (requested componentArgs all Keycloak).
      destruct (requested componentArgs all Keycloak).
      - eapply hoare_conseq; [apply (keycloak_stage_fails env force (trace w))| | |];
          cbn; auto.
      - apply hoare_ret. auto. }
    intros u2.
    eapply hoare_bind with (Q' := fun _ _ => True).
    { destruct (includes (componentsToDeploy componentArgs all) "polaris").
      - eapply hoare_conseq; [apply (contained_stage_returns (fun _ => True))| | |];
          cbn; auto. intros ? ? [].
      - apply hoare_ret. auto. }
    intros u3.
    eapply hoare_bind with (Q' := fun _ _ => True).
    { destruct (includes (componentsToDeploy componentArgs all) "trino").
      - eapply hoare_conseq; [apply (contained_stage_returns (fun _ => True))| | |];
          cbn; auto. intros ? ? [].
      - apply hoare_ret. auto. }
    intros u4.
    eapply hoare_bind with (Q' := fun _ _ => True).
    { destruct (includes (componentsToDeploy componentArgs all) "spark").
      - eapply hoare_conseq; [apply (contained_stage_returns (fun _ => True))| | |];
          cbn; auto. intros ? ? [].
      - apply hoare_ret. auto. }
    intros u5.
    eapply hoare_bind with (Q' := fun _ _ => True).
    { destruct (includes (componentsToDeploy componentArgs all) "opa").
      - eapply hoare_conseq; [apply (contained_stage_returns (fun _ => True))| | |];
          cbn; auto. intros ? ? [].
      - apply hoare_ret. auto. }
    intros u6. intros w' _. exact I. }
  specialize (H w (has_prefix_refl w)).
  destruct (deployComponents env componentArgs all force w) as [[u|e'] w'];
    cbn [fst snd] in *; [discriminate Hthrow|].
  injection Hthrow as ->. exact H.
Qed.

Definition keycloak_install_fails : Env :=
  sample_env (fun _ c => match c with
                         | HelmInstall r => if String.eqb r "keycloak" then Failure else Success
                         | _ => Success
                         end) "y".

Lemma only_keycloak_aborts_deployment_witness :
  fst (deployComponents keycloak_install_fails [] true false (world_of cluster_state [])) =
    Throw "Helm command failed: upgrade --install" /\
  requested [] true Keycloak = true /\
  exists evs,
    trace (snd (deployComponents keycloak_install_fails [] true false
                  (world_of cluster_state []))) =
      (trace (world_of cluster_state []) ++ evs ++
       [Logged ("Failed to deploy Keycloak: " ++ "Helm command failed: upgrade --install")])%list.
Proof.
  assert (H : fst (deployComponents keycloak_install_fails [] true false
                     (world_of cluster_state [])) =
              Throw "Helm command failed: upgrade --install") by (vm_compute; reflexivity).
  split; [exact H|].
  exact (only_keycloak_aborts_deployment keycloak_install_fails [] true false
           (world_of cluster_state []) "Helm command failed: upgrade --install" H).
Defined.

(** ** The fallback of [deployPolaris] *)

Definition polaris_fallback : string :=
  "Polaris Helm chart not found. Skipping Polaris deployment.".

(** The fallback message of [deployPolaris] has not been printed. *)
Definition no_fallback (w : World) : Prop := ~ In (Logged polaris_fallback) (trace w).

Lemma no_fallback_call env c : stable no_fallback (call env c).
Proof.
  intros w H. unfold call. destruct (gateway env (clock w) (releases w) c).
  unfold no_fallback. cbn. intros Hin. apply in_app_or in Hin.
  destruct Hin as [Hin|[Hin|[]]]; [exact (H Hin)|discriminate Hin].
Qed.

Lemma no_fallback_log m : m <> polaris_fallback -> stable no_fallback (log m).
Proof.
  intros Hm w H. unfold no_fallback. cbn. intros Hin. apply in_app_or in Hin.
  destruct Hin as [Hin|[Hin|[]]]; [exact (H Hin)|]. injection Hin as Hin. exact (Hm Hin).
Qed.

Lemma no_fallback_date_now : stable no_fallback date_now.
Proof. intros w H. exact H. Qed.

Lemma no_fallback_modify_state f : stable no_fallback (modify_state f).
Proof. intros w H. exact H. Qed.

Lemma no_fallback_writeFileSync : stable no_fallback writeFileSync.
Proof.
  intros w H. unfold no_fallback. cbn. intros Hin. apply in_app_or in Hin.
  destruct Hin as [Hin|[Hin|[]]]; [exact (H Hin)|discriminate Hin].
Qed.

#[export] Hint Resolve no_fallback_call no_fallback_date_now no_fallback_modify_state
  no_fallback_writeFileSync : stable_prims.
#[export] Hint Extern 1 (stable no_fallback (log _)) =>
  apply no_fallback_log; let H := fresh in intros H; cbn in H; discriminate H
  : stable_prims.

(** Polaris is recorded, on disk as in memory, as not deployed. *)
Definition polaris_skipped (w : World) : Prop :=
  get_component Polaris (components (mem w)) =
    Some (deployed_record false "polaris" "polaris" None) /\
  disk w = Some (mem w).

Lemma deployPolaris_fallback env force :
  hoare no_fallback (deployPolaris env force)
    (fun cs w => no_fallback w \/ cs = deployed_record false "polaris" "polaris" None)
    (fun _ => no_fallback).
Proof.
  unfold deployPolaris.
  eapply hoare_bind with (Q' := fun _ => no_fallback); [apply stable_get_state|].
  intros s. destruct (negb (component_deployed s Keycloak)); [apply hoare_throw; auto|].
  eapply hoare_bind with (Q' := fun _ => no_fallback); [as_stable; stable_auto|].
  intros exists_. destruct (exists_ && negb force); [apply hoare_ret; auto|].
  eapply hoare_bind with (Q' := fun _ => no_fallback); [as_stable; stable_auto|]. intros u1.
  eapply hoare_bind with (Q' := fun _ => no_fallback); [as_stable; stable_auto|]. intros u2.
  eapply hoare_bind with (Q' := fun _ => no_fallback); [as_stable; stable_auto|]. intros u3.
  eapply hoare_bind with (Q' := fun installed w => installed = true -> no_fallback w).
  { apply hoare_try_catch with (E' := fun _ _ => True).
    - eapply hoare_conseq with (P' := no_fallback) (Q' := fun _ => no_fallback)
                               (E' := fun _ => no_fallback); [|auto|auto|auto].
      as_stable. stable_auto.
    - intros e w _. cbn. intros H. discriminate H. }
  intros installed. destruct installed; cbn [negb].
  - eapply hoare_conseq with (P' := no_fallback) (Q' := fun _ => no_fallback)
                             (E' := fun _ => no_fallback); [|auto|auto|auto].
    as_stable. stable_auto.
  - apply hoare_ret. auto.
Qed.

(** X24. When the chart of Polaris cannot be installed, the Polaris stage
    does not fail: whenever the fallback message is printed during the
    stage, the stage returns normally and Polaris is recorded, on disk as
    in memory, as [{deployed: false, namespace, release_name}]; a Trino
    stage that follows is therefore rejected with "Polaris must be deployed
    before Trino". *)
Theorem polaris_fallback_is_recorded env force w :
  ~ In (Logged polaris_fallback) (trace w) ->
  In (Logged polaris_fallback)
     (trace (snd (deploy_stage "Polaris" Polaris (deployPolaris env) force false w))) ->
  fst (deploy_stage "Polaris" Polaris (deployPolaris env) force false w) = Ok tt /\
  polaris_skipped (snd (deploy_stage "Polaris" Polaris (deployPolaris env) force false w)) /\
  fst (deployTrino env force
         (snd (deploy_stage "Polaris" Polaris (deployPolaris env) force false w))) =
    Throw "Polaris must be deployed before Trino".
Proof.
  intros H0 Hin.
  assert (H : hoare no_fallback (deploy_stage "Polaris" Polaris (deployPolaris env) force false)
                (fun _ w' => no_fallback w' \/ polaris_skipped w')
                (fun _ _ => False)).
  { unfold deploy_stage. apply hoare_try_catch with (E' := fun _ => no_fallback).
    - eapply hoare_bind; [apply deployPolaris_fallback|].
      intros cs w' [Hw'|Hcs].
      + pose proof (stable_snd no_fallback (updateComponentState Polaris cs) w'
                      ltac:(unfold updateComponentState, saveState; stable_auto) Hw') as Hs.
        cbn in *. left. exact Hs.
      + subst cs. cbn. right. split; reflexivity.
    - intros e w' Hw'.
      pose proof (stable_snd no_fallback
                    (log ("Failed to deploy " ++ "Polaris" ++ ": " ++ e) ;;
                     log ("Continuing without " ++ "Polaris" ++ "..."))
                    w' ltac:(stable_auto) Hw') as Hs.
      cbn in *. left. exact Hs. }
  specialize (H w H0).
  destruct (deploy_stage "Polaris" Polaris (deployPolaris env) force false w)
    as [[[]|e] w1]; cbn [fst snd] in *; [|destruct H].
  destruct H as [H|[H1 H2]]; [contradiction|].
  split; [reflexivity|]. split; [split; assumption|].
  unfold deployTrino, bind, get_state, component_deployed. rewrite H1. reflexivity.
Qed.

Definition polaris_chart_missing : Env :=
  sample_env (fun _ c => match c with
                         | HelmInstall r => if String.eqb r "polaris" then Failure else Success
                         | _ => Success
                         end) "y".

Definition keycloak_only_state : LabState :=
  set_components
    (mkComponents (Some (deployed_record true "keycloak" "keycloak" (Some 30)))
                  None None None None)
    cluster_state.

Lemma polaris_fallback_is_recorded_witness :
  ~ In (Logged polaris_fallback) (trace (world_of keycloak_only_state ["keycloak"])) /\
  In (Logged polaris_fallback)
     (trace (snd (deploy_stage "Polaris" Polaris (deployPolaris polaris_chart_missing)
                    false false (world_of keycloak_only_state ["keycloak"])))) /\
  fst (deploy_stage "Polaris" Polaris (deployPolaris polaris_chart_missing) false false
         (world_of keycloak_only_state ["keycloak"])) = Ok tt /\
  polaris_skipped
    (snd (deploy_stage "Polaris" Polaris (deployPolaris polaris_chart_missing) false false
            (world_of keycloak_only_state ["keycloak"]))) /\
  fst (deployTrino polaris_chart_missing false
         (snd (deploy_stage "Polaris" Polaris (deployPolaris polaris_chart_missing)
                 false false (world_of keycloak_only_state ["keycloak"])))) =
    Throw "Polaris must be deployed before Trino".
Proof.
  assert (H1 : ~ In (Logged polaris_fallback)
                 (trace (world_of keycloak_only_state ["keycloak"])))
    by (intros []).
  assert (H2 : In (Logged polaris_fallback)
                 (trace (snd (deploy_stage "Polaris" Polaris
                                (deployPolaris polaris_chart_missing) false false
                                (world_of keycloak_only_state ["keycloak"])))))
    by (vm_compute; auto 30).
  split; [exact H1|]. split; [exact H2|].
  exact (polaris_fallback_is_recorded polaris_chart_missing false
           (world_of keycloak_only_state ["keycloak"]) H1 H2).
Defined.

(** ** [commands/seed.ts] *)

Record SeedOptions := mkSeedOptions {
  seed_tablesOnly : bool;
  seed_usersOnly : bool;
  seed_skipUsers : bool;
  seed_rows : option Z   (* [parseInt(options.rows, 10)]; [None] is [NaN] *)
}.

(** The [try] block of [seed]; one message stands for each block of
    console output. *)
Definition seed_body (o : SeedOptions) : M unit :=
  log "Checking Prerequisites" ;;
  s <- get_state ;;
  if negb (eks_deployed s) || negb (truthy (cluster_ready s)) then
    throw "EKS cluster must be running. Run 'lab up' first."
  else
    log "EKS cluster running" ;;
    if negb (component_deployed s Polaris) then
      throw "Polaris catalog must be deployed. Run 'lab up polaris' first."
    else
      log "Polaris deployed" ;;
      (if negb (component_deployed s Spark)
       then log "Spark not deployed - manual data loading required"
       else log "Spark deployed") ;;
      log "Seeding Plan" ;;
      (if negb (seed_usersOnly o) then log "Sample Tables to Create:" else ret tt) ;;
      (if negb (seed_tablesOnly o) && negb (seed_skipUsers o)
       then log "Keycloak Users to Reset:" else ret tt) ;;
      log "Manual Seeding Instructions" ;;
      log "Seeding instructions provided" ;;
      log "Example Queries".

(** [seed]; the result is the exit code of the process. *)
Definition seed (config : Config) (o : SeedOptions) : M Z :=
  log ("Seeding lab environment: " ++ config_lab_name config) ;;
  try_catch
    (seed_body o ;; ret 0)
    (fun e => log ("Error during seeding: " ++ e) ;; ret 1).

(** X15. [seed] only reads and prints: it exits with code 0 exactly when
    the cluster is recorded as deployed and ready and Polaris as deployed,
    with code 1 otherwise, and in either case the state, the state file and
    the releases are as they were, no external command was run and nothing
    was saved, whatever the options. *)
Theorem seed_only_reads config o w :
  fst (seed config o w) =
    Ok (if eks_deployed (mem w) && truthy (cluster_ready (mem w))
           && component_deployed (mem w) Polaris
        then 0 else 1) /\
  mem (snd (seed config o w)) = mem w /\
  disk (snd (seed config o w)) = disk w /\
  releases (snd (seed config o w)) = releases w /\
  exists evs,
    trace (snd (seed config o w)) = (trace w ++ evs)%list /\
    calls evs = [] /\ saves evs = [].
Proof.
  unfold seed, seed_body, try_catch, bind, get_state, log, emit. cbn.
  destruct (eks_deployed (mem w)); cbn.
  2:{ repeat split. eexists. split; [rewrite <- !app_assoc; reflexivity|]. split; reflexivity. }
  destruct (truthy (cluster_ready (mem w))); cbn.
  2:{ repeat split. eexists. split; [rewrite <- !app_assoc; reflexivity|]. split; reflexivity. }
  destruct (component_deployed (mem w) Polaris); cbn.
  2:{ repeat split. eexists. split; [rewrite <- !app_assoc; reflexivity|]. split; reflexivity. }
  destruct (component_deployed (mem w) Spark), (seed_usersOnly o), (seed_tablesOnly o),
    (seed_skipUsers o); cbn; repeat split;
    eexists; (split; [rewrite <- !app_assoc; reflexivity|]); split; reflexivity.
Qed.


(** * More on the polling loops *)

Module Waits.

Import Polling.

(** How many checks a run made. *)
Definition polls (st st' : PollState) : Z := Z.of_nat (checks st') - Z.of_nat (checks st).

Lemma node_loop_polls env fuel startTime timeoutMs m : forall st,
  0 <= polls st (snd (waitForClusterReady_loop env fuel startTime timeoutMs m st)) /\
  polls st (snd (waitForClusterReady_loop env fuel startTime timeoutMs m st)) * 10000
    < Z.max (timeoutMs - (now st - startTime)) 0 + 10000.
Proof.
  unfold polls. induction fuel as [|fuel IH]; intros st; cbn [waitForClusterReady_loop].
  - cbn [snd]. lia.
  - destruct (now st - startTime <? timeoutMs) eqn:E; [|cbn [snd]; lia].
    apply Z.ltb_lt in E.
    pose proof (N2Z.is_nonneg (check_time env (checks st))) as Hc.
    pose proof (N2Z.is_nonneg (lag env (sleeps st))) as Hl.
    specialize (IH (sleep env 10000 (run_check env st))).
    cbn [sleep run_check now checks sleeps] in IH.
    destruct (node_status env (checks st)) as [[ready total]|].
    + destruct ((0 <? total)%nat && (ready =? total)%nat).
      * cbn [snd run_check checks]. lia.
      * lia.
    + lia.
Qed.

Lemma eks_loop_polls env fuel startTime timeoutMs m : forall st,
  0 <= polls st (snd (waitForEksClusterActive_loop env fuel startTime timeoutMs m st)) /\
  polls st (snd (waitForEksClusterActive_loop env fuel startTime timeoutMs m st)) * 15000
    < Z.max (timeoutMs - (now st - startTime)) 0 + 15000.
Proof.
  unfold polls. induction fuel as [|fuel IH]; intros st; cbn [waitForEksClusterActive_loop].
  - cbn [snd]. lia.
  - destruct (now st - startTime <? timeoutMs) eqn:E; [|cbn [snd]; lia].
    apply Z.ltb_lt in E.
    pose proof (N2Z.is_nonneg (check_time env (checks st))) as Hc.
    pose proof (N2Z.is_nonneg (lag env (sleeps st))) as Hl.
    specialize (IH (sleep env 15000 (run_check env st))).
    cbn [sleep run_check now checks sleeps] in IH.
    destruct (eks_status env (checks st)) as [[s|]|].
    + destruct (String.eqb s "ACTIVE"); [cbn [snd run_check checks]; lia|].
      destruct (String.eqb s "FAILED" || String.eqb s "DELETING");
        [cbn [snd run_check checks]; lia|lia].
    + lia.
    + cbn [snd run_check checks]. lia.
Qed.

(** X16. The readiness waits poll a bounded number of times: with a
    timeout of [timeoutMinutes] minutes, [waitForClusterReady] checks the
    nodes at most [6 * timeoutMinutes] times and [waitForEksClusterActive]
    asks for the cluster status at most [4 * timeoutMinutes] times,
    however long the checks and the sleeps take and whatever they
    answer. *)
Theorem waits_poll_a_bounded_number_of_times env fuel timeoutMinutes st :
  0 <= timeoutMinutes ->
  polls st (snd (waitForClusterReady env fuel timeoutMinutes st)) <= 6 * timeoutMinutes /\
  polls st (snd (waitForEksClusterActive env fuel timeoutMinutes st)) <= 4 * timeoutMinutes.
Proof.
  intros Hm. pose proof (N2Z.is_nonneg (startup env)) as Hs. split.
  - unfold waitForClusterReady. cbv zeta.
    pose proof (node_loop_polls env fuel (now st) (timeoutMinutes * 60 * 1000) timeoutMinutes
                  (mkPollState (now st + Z.of_N (startup env)) (checks st) (sleeps st)))
      as [H1 H2].
    unfold polls in *. cbn [now checks] in *. lia.
  - unfold waitForEksClusterActive. cbv zeta.
    pose proof (eks_loop_polls env fuel (now st) (timeoutMinutes * 60 * 1000) timeoutMinutes
                  (mkPollState (now st + Z.of_N (startup env)) (checks st) (sleeps st)))
      as [H1 H2].
    unfold polls in *. cbn [now checks] in *. lia.
Qed.

Definition never_ready : PollEnv :=
  mkPollEnv (fun _ => Some (1, 2)%nat) (fun _ => Some (Some "CREATING"))
            (fun _ => 0%N) (fun _ => 0%N) 0%N.

Lemma waits_poll_a_bounded_number_of_times_witness :
  0 <= 10 /\
  polls (mkPollState 0 0 0)
    (snd (waitForClusterReady never_ready 100 10 (mkPollState 0 0 0))) <= 6 * 10 /\
  polls (mkPollState 0 0 0)
    (snd (waitForEksClusterActive never_ready 100 10 (mkPollState 0 0 0))) <= 4 * 10.
Proof.
  assert (H : 0 <= 10) by lia.
  split; [exact H|].
  exact (waits_poll_a_bounded_number_of_times never_ready 100 10 (mkPollState 0 0 0) H).
Defined.

(** The answer of the last check of a run. *)
Definition last_check (st' : PollState) : nat := (checks st' - 1)%nat.

Lemma node_loop_outcome env fuel startTime timeoutMs m : forall st,
  match fst (waitForClusterReady_loop env fuel startTime timeoutMs m st) with
  | Returned =>
      exists n, (0 < n)%nat /\
        node_status env
          (last_check (snd (waitForClusterReady_loop env fuel startTime timeoutMs m st))) =
          Some (n, n)
  | Timeout what m' =>
      what = "cluster nodes to be ready" /\ m' = m /\
      timeoutMs <= now (snd (waitForClusterReady_loop env fuel startTime timeoutMs m st))
                   - startTime
  | OutOfFuel => True
  | Fatal _ | CliError => False
  end.
Proof.
  induction fuel as [|fuel IH]; intros st; cbn [waitForClusterReady_loop].
  - exact I.
  - destruct (now st - startTime <? timeoutMs) eqn:E.
    + specialize (IH (sleep env 10000 (run_check env st))).
      destruct (node_status env (checks st)) as [[ready total]|] eqn:Hn; [|exact IH].
      destruct ((0 <? total)%nat && (ready =? total)%nat) eqn:Hr; [|exact IH].
      cbn [fst snd]. apply andb_true_iff in Hr. destruct Hr as [H0 Heq].
      apply Nat.ltb_lt in H0. apply Nat.eqb_eq in Heq. subst ready.
      exists total. split; [exact H0|].
      unfold last_check. cbn [run_check checks]. rewrite Nat.sub_1_r. cbn [pred]. exact Hn.
    + cbn [fst snd]. apply Z.ltb_ge in E. auto.
Qed.

(** X17. [waitForClusterReady] ends, and in one of two ways only: it
    returns, and then its last check reported at least one node and all of
    them ready; or it throws the timeout error, and then at least the
    timeout has elapsed.  Errors of [getNodeStatus] never leave the loop,
    and a cluster without nodes is never taken as ready. *)
Theorem node_wait_returns_only_when_all_nodes_are_ready env fuel timeoutMinutes st :
  timeoutMinutes * 6 <= Z.of_nat fuel ->
  (fst (waitForClusterReady env (S fuel) timeoutMinutes st) = Returned /\
   exists n, (0 < n)%nat /\
     node_status env
       (last_check (snd (waitForClusterReady env (S fuel) timeoutMinutes st))) =
       Some (n, n)) \/
  (fst (waitForClusterReady env (S fuel) timeoutMinutes st) =
     Timeout "cluster nodes to be ready" timeoutMinutes /\
   timeoutMinutes * 60 * 1000 <=
     now (snd (waitForClusterReady env (S fuel) timeoutMinutes st)) - now st).
Proof.
  intros Hfuel. unfold waitForClusterReady. cbv zeta.
  pose proof (node_loop_outcome env (S fuel) (now st) (timeoutMinutes * 60 * 1000)
                timeoutMinutes
                (mkPollState (now st + Z.of_N (startup env)) (checks st) (sleeps st))) as H.
  pose proof (waitForClusterReady_loop_ends env fuel (now st) (timeoutMinutes * 60 * 1000)
                timeoutMinutes
                (mkPollState (now st + Z.of_N (startup env)) (checks st) (sleeps st))) as He.
  assert (Hb : timeoutMinutes * 60 * 1000 -
               (now (mkPollState (now st + Z.of_N (startup env)) (checks st) (sleeps st))
                - now st) <= Z.of_nat fuel * 10000).
  { cbn [now]. pose proof (N2Z.is_nonneg (startup env)). lia. }
  specialize (He Hb).
  destruct (fst (waitForClusterReady_loop env (S fuel) (now st) (timeoutMinutes * 60 * 1000)
                   timeoutMinutes
                   (mkPollState (now st + Z.of_N (startup env)) (checks st) (sleeps st))))
    as [|what m'|s| |].
  - left. split; [reflexivity|exact H].
  - right. destruct H as [-> [-> H]]. split; [reflexivity|exact H].
  - destruct H.
  - destruct H.
  - contradiction He. reflexivity.
Qed.

Definition ready_at_third : PollEnv :=
  mkPollEnv (fun k => if (k <? 2)%nat then None else Some (3, 3)%nat)
            (fun _ => Some (Some "ACTIVE"))
            (fun _ => 200%N) (fun _ => 5%N) 1%N.

Lemma node_wait_returns_only_when_all_nodes_are_ready_witness :
  10 * 6 <= Z.of_nat 60 /\
  ((fst (waitForClusterReady ready_at_third 61 10 (mkPollState 0 0 0)) = Returned /\
    exists n, (0 < n)%nat /\
      node_status ready_at_third
        (last_check (snd (waitForClusterReady ready_at_third 61 10 (mkPollState 0 0 0)))) =
        Some (n, n)) \/
   (fst (waitForClusterReady ready_at_third 61 10 (mkPollState 0 0 0)) =
      Timeout "cluster nodes to be ready" 10 /\
    10 * 60 * 1000 <=
      now (snd (waitForClusterReady ready_at_third 61 10 (mkPollState 0 0 0)))
      - now (mkPollState 0 0 0))).
Proof.
  assert (H : 10 * 6 <= Z.of_nat 60) by (cbn; lia).
  split; [exact H|].
  exact (node_wait_returns_only_when_all_nodes_are_ready ready_at_third 60 10
           (mkPollState 0 0 0) H).
Defined.

Lemma eks_loop_outcome env fuel startTime timeoutMs m : forall st,
  match fst (waitForEksClusterActive_loop env fuel startTime timeoutMs m st) with
  | Returned =>
      eks_status env
        (last_check (snd (waitForEksClusterActive_loop env fuel startTime timeoutMs m st))) =
        Some (Some "ACTIVE")
  | Fatal s =>
      (s = "FAILED" \/ s = "DELETING") /\
      eks_status env
        (last_check (snd (waitForEksClusterActive_loop env fuel startTime timeoutMs m st))) =
        Some (Some s)
  | CliError =>
      eks_status env
        (last_check (snd (waitForEksClusterActive_loop env fuel startTime timeoutMs m st))) =
        None
  | Timeout what m' =>
      what = "EKS cluster to become ACTIVE" /\ m' = m /\
      timeoutMs <= now (snd (waitForEksClusterActive_loop env fuel startTime timeoutMs m st))
                   - startTime
  | OutOfFuel => True
  end.
Proof.
  induction fuel as [|fuel IH]; intros st; cbn [waitForEksClusterActive_loop].
  - exact I.
  - destruct (now st - startTime <? timeoutMs) eqn:E.
    + specialize (IH (sleep env 15000 (run_check env st))).
      assert (Hl : last_check (run_check env st) = checks st).
      { unfold last_check. cbn [run_check checks]. rewrite Nat.sub_1_r. reflexivity. }
      destruct (eks_status env (checks st)) as [[s|]|] eqn:Hn.
      * destruct (String.eqb_spec s "ACTIVE") as [->|Ha].
        { cbn [fst snd]. rewrite Hl. exact Hn. }
        destruct (String.eqb_spec s "FAILED") as [->|Hf].
        { cbn [orb fst snd]. rewrite Hl. split; [left; reflexivity|exact Hn]. }
        destruct (String.eqb_spec s "DELETING") as [->|Hd].
        { cbn [orb fst snd]. rewrite Hl. split; [right; reflexivity|exact Hn]. }
        cbn [orb]. exact IH.
      * exact IH.
      * cbn [fst snd]. rewrite Hl. exact Hn.
    + cbn [fst snd]. apply Z.ltb_ge in E. auto.
Qed.

(** X18. [waitForEksClusterActive] ends, and its outcome is read off the
    last status it got: it returns only on [ACTIVE]; it fails at once on
    [FAILED] or [DELETING], naming that status; an error of the AWS CLI
    leaves the loop as it is; otherwise (other statuses, or no cluster
    found yet) it goes on until the timeout has elapsed. *)
Theorem eks_wait_outcomes env fuel timeoutMinutes st :
  timeoutMinutes * 4 <= Z.of_nat fuel ->
  match fst (waitForEksClusterActive env (S fuel) timeoutMinutes st) with
  | Returned =>
      eks_status env
        (last_check (snd (waitForEksClusterActive env (S fuel) timeoutMinutes st))) =
        Some (Some "ACTIVE")
  | Fatal s =>
      (s = "FAILED" \/ s = "DELETING") /\
      eks_status env
        (last_check (snd (waitForEksClusterActive env (S fuel) timeoutMinutes st))) =
        Some (Some s)
  | CliError =>
      eks_status env
        (last_check (snd (waitForEksClusterActive env (S fuel) timeoutMinutes st))) = None
  | Timeout what m' =>
      what = "EKS cluster to become ACTIVE" /\ m' = timeoutMinutes /\
      timeoutMinutes * 60 * 1000 <=
        now (snd (waitForEksClusterActive env (S fuel) timeoutMinutes st)) - now st
  | OutOfFuel => False
  end.
Proof.
  intros Hfuel. unfold waitForEksClusterActive. cbv zeta.
  pose proof (eks_loop_outcome env (S fuel) (now st) (timeoutMinutes * 60 * 1000)
                timeoutMinutes
                (mkPollState (now st + Z.of_N (startup env)) (checks st) (sleeps st))) as H.
  pose proof (waitForEksClusterActive_loop_ends env fuel (now st)
                (timeoutMinutes * 60 * 1000) timeoutMinutes
                (mkPollState (now st + Z.of_N (startup env)) (checks st) (sleeps st))) as He.
  assert (Hb : timeoutMinutes * 60 * 1000 -
               (now (mkPollState (now st + Z.of_N (startup env)) (checks st) (sleeps st))
                - now st) <= Z.of_nat fuel * 15000).
  { cbn [now]. pose proof (N2Z.is_nonneg (startup env)). lia. }
  specialize (He Hb).
  destruct (fst (waitForEksClusterActive_loop env (S fuel) (now st)
                   (timeoutMinutes * 60 * 1000) timeoutMinutes
                   (mkPollState (now st + Z.of_N (startup env)) (checks st) (sleeps st))));
    try exact H.
  contradiction He. reflexivity.
Qed.

Definition fails_at_second : PollEnv :=
  mkPollEnv (fun _ => None)
            (fun k => if (k <? 1)%nat then Some None else Some (Some "FAILED"))
            (fun _ => 200%N) (fun _ => 5%N) 1%N.

Lemma eks_wait_outcomes_witness :
  10 * 4 <= Z.of_nat 40 /\
  fst (waitForEksClusterActive fails_at_second 41 10 (mkPollState 0 0 0)) = Fatal "FAILED" /\
  match fst (waitForEksClusterActive fails_at_second 41 10 (mkPollState 0 0 0)) with
  | Returned =>
      eks_status fails_at_second
        (last_check (snd (waitForEksClusterActive fails_at_second 41 10
                            (mkPollState 0 0 0)))) = Some (Some "ACTIVE")
  | Fatal s =>
      (s = "FAILED" \/ s = "DELETING") /\
      eks_status fails_at_second
        (last_check (snd (waitForEksClusterActive fails_at_second 41 10
                            (mkPollState 0 0 0)))) = Some (Some s)
  | CliError =>
      eks_status fails_at_second
        (last_check (snd (waitForEksClusterActive fails_at_second 41 10
                            (mkPollState 0 0 0)))) = None
  | Timeout what m' =>
      what = "EKS cluster to become ACTIVE" /\ m' = 10 /\
      10 * 60 * 1000 <=
        now (snd (waitForEksClusterActive fails_at_second 41 10 (mkPollState 0 0 0)))
        - now (mkPollState 0 0 0)
  | OutOfFuel => False
  end.
Proof.
  assert (H : 10 * 4 <= Z.of_nat 40) by (cbn; lia).
  split; [exact H|]. split; [reflexivity|].
  exact (eks_wait_outcomes fails_at_second 40 10 (mkPollState 0 0 0) H).
Defined.

End Waits.

(** * [config.ts]: the project root *)

Module ProjectRoot.

(** An absolute, normalised POSIX path, innermost segment first:
    ["/home/me/lab"] is [["lab"; "me"; "home"]] and ["/"] is [[]].  So
    [resolve(current, "..")] is the tail. *)
Definition Path := list string.

Section Search.

(** [existsSync(resolve(dir, "lab.yaml"))] *)
Variable has_lab_yaml : Path -> bool.

(** The [while] loop of [getProjectRoot]: [None] when it ends at ["/"]. *)
Fixpoint search (current : Path) : option Path :=
  match current with
  | [] => None
  | _ :: parent => if has_lab_yaml current then Some current else search parent
  end.

Definition getProjectRoot (cwd : Path) : Path :=
  match search cwd with
  | Some root => root
  | None => cwd
  end.

End Search.

Lemma search_some has_lab_yaml : forall cur root,
  search has_lab_yaml cur = Some root ->
  exists below,
    cur = (below ++ root)%list /\ root <> [] /\ has_lab_yaml root = true /\
    forall skipped rest,
      below = (skipped ++ rest)%list -> rest <> [] ->
      has_lab_yaml (rest ++ root)%list = false.
Proof.
  induction cur as [|seg parent IH]; intros root H; cbn in H; [discriminate H|].
  destruct (has_lab_yaml (seg :: parent)) eqn:E.
  - injection H as <-. exists []. split; [reflexivity|]. split; [discriminate|].
    split; [exact E|]. intros skipped rest H Hne.
    destruct skipped, rest; try discriminate H. exfalso; apply Hne; reflexivity.
  - destruct (IH root H) as [below [H1 [H2 [H3 H4]]]].
    exists (seg :: below). split; [cbn; rewrite <- H1; reflexivity|].
    split; [exact H2|]. split; [exact H3|].
    intros skipped rest Hb Hne. destruct skipped as [|x skipped].
    + cbn in Hb. subst rest. cbn. rewrite <- H1. exact E.
    + cbn in Hb. injection Hb as _ Hb. exact (H4 skipped rest Hb Hne).
Qed.

Lemma search_none has_lab_yaml : forall cur,
  search has_lab_yaml cur = None ->
  forall skipped dir, cur = (skipped ++ dir)%list -> dir <> [] ->
                      has_lab_yaml dir = false.
Proof.
  induction cur as [|seg parent IH]; intros H skipped dir Hc Hne.
  - destruct skipped, dir; try discriminate Hc. exfalso; apply Hne; reflexivity.
  - cbn in H. destruct (has_lab_yaml (seg :: parent)) eqn:E; [discriminate H|].
    destruct skipped as [|x skipped].
    + cbn in Hc. subst dir. exact E.
    + cbn in Hc. injection Hc as _ Hc. exact (IH H skipped dir Hc Hne).
Qed.

(** X19. [getProjectRoot] returns the nearest directory, from the working
    directory upwards, that holds [lab.yaml]; the root directory is never
    probed, and when no directory below the root holds the file the answer
    is the working directory itself. *)
Theorem getProjectRoot_nearest has_lab_yaml cwd :
  (exists below,
     cwd = (below ++ getProjectRoot has_lab_yaml cwd)%list /\
     getProjectRoot has_lab_yaml cwd <> [] /\
     has_lab_yaml (getProjectRoot has_lab_yaml cwd) = true /\
     forall skipped rest,
       below = (skipped ++ rest)%list -> rest <> [] ->
       has_lab_yaml (rest ++ getProjectRoot has_lab_yaml cwd)%list = false) \/
  (getProjectRoot has_lab_yaml cwd = cwd /\
   forall skipped dir, cwd = (skipped ++ dir)%list -> dir <> [] ->
                       has_lab_yaml dir = false).
Proof.
  unfold getProjectRoot. destruct (search has_lab_yaml cwd) as [root|] eqn:E.
  - left. exact (search_some has_lab_yaml cwd root E).
  - right. split; [reflexivity|]. exact (search_none has_lab_yaml cwd E).
Qed.

End ProjectRoot.

(** * [prompts.ts]: the info box *)

Module InfoBox.

#[local] Open Scope list_scope.

(** A JavaScript string as its UTF-16 code units, so that [length] is
    [String.prototype.length]. *)
Definition JsString := list N.

Definition space : N := 32.
Definition newline : N := 10.
Definition horizontal : N := 9552.    (* U+2550 *)
Definition vertical : N := 9474.      (* U+2502 *)
Definition top_left : N := 9581.      (* U+256D *)
Definition top_right : N := 9582.     (* U+256E *)
Definition tee_left : N := 9500.      (* U+251C *)
Definition tee_right : N := 9508.     (* U+2524 *)
Definition bottom_left : N := 9584.   (* U+2570 *)
Definition bottom_right : N := 9583.  (* U+256F *)

(** [s.padEnd(n)]: blanks are added, nothing is cut. *)
Definition padEnd (n : nat) (s : JsString) : JsString :=
  (s ++ repeat space (n - length s))%list.

(** [Math.max(x, ...l)] *)
Definition max_of (x : nat) (l : list nat) : nat := fold_left Nat.max l x.

Definition row (maxLength : nat) (s : JsString) : JsString :=
  ([vertical; space; space] ++ padEnd maxLength s ++ [space; space; vertical])%list.

(** The strings [infoBox] prints, in order, each as it is handed to
    [chalk.blue]. *)
Definition infoBox (title : JsString) (lines : list JsString) : list JsString :=
  let maxLength := max_of (length title) (map (@length N) lines) in
  let width := (maxLength + 4)%nat in
  let border := repeat horizontal width in
  ([ (newline :: top_left :: border ++ [top_right])%list;
     row maxLength title;
     (tee_left :: border ++ [tee_right])%list ] ++
   map (row maxLength) lines ++
   [ (bottom_left :: border ++ [bottom_right; newline])%list ])%list.

(** The text of a printed string without the line breaks around it. *)
Definition visible (s : JsString) : JsString :=
  filter (fun c => negb (N.eqb c newline)) s.

Lemma max_of_ge_init l : forall x, (x <= max_of x l)%nat.
Proof.
  unfold max_of. induction l as [|y l IH]; intros x; cbn; [lia|].
  specialize (IH (Nat.max x y)). lia.
Qed.

Lemma max_of_ge_elem l : forall x y, In y l -> (y <= max_of x l)%nat.
Proof.
  unfold max_of. induction l as [|z l IH]; intros x y H; cbn; [destruct H|].
  destruct H as [->|H].
  - pose proof (max_of_ge_init l (Nat.max x y)) as Hm. unfold max_of in Hm. lia.
  - apply IH. exact H.
Qed.

Lemma padEnd_length n s : (length s <= n)%nat -> length (padEnd n s) = n.
Proof. intros H. unfold padEnd. rewrite length_app, repeat_length. lia. Qed.

Lemma row_length n s : (length s <= n)%nat -> length (row n s) = (n + 6)%nat.
Proof.
  intros H. unfold row. rewrite !length_app, padEnd_length by exact H. cbn. lia.
Qed.

Lemma visible_app a b : visible (a ++ b) = (visible a ++ visible b)%list.
Proof. apply filter_app. Qed.

Lemma visible_repeat_horizontal n : visible (repeat horizontal n) = repeat horizontal n.
Proof. induction n as [|n IH]; cbn; [reflexivity|]. f_equal. exact IH. Qed.

(** X20. When the title and the lines hold no line break, the box is a
    rectangle: every printed string shows the same number of code units,
    six more than the longest of the title and the lines, and the number of
    strings is the number of lines plus four. *)
Theorem infoBox_is_a_rectangle title lines :
  Forall (fun s => visible s = s) (title :: lines) ->
  length (infoBox title lines) = (length lines + 4)%nat /\
  Forall (fun s => length (visible s) =
                   (max_of (length title) (map (@length N) lines) + 6)%nat)
         (infoBox title lines).
Proof.
  intros Hv. unfold infoBox. cbv zeta.
  set (n := max_of (length title) (map (@length N) lines)).
  split.
  { rewrite !length_app, length_map. cbn. lia. }
  assert (Hrow : forall s, visible s = s -> (length s <= n)%nat ->
                           length (visible (row n s)) = (n + 6)%nat).
  { intros s Hs Hl. unfold row, padEnd. rewrite !visible_app, Hs.
    assert (Hr : forall k, visible (repeat space k) = repeat space k).
    { induction k as [|k IH]; cbn; [reflexivity|]. f_equal. exact IH. }
    rewrite Hr. cbn. rewrite !length_app, repeat_length. cbn. lia. }
  inversion Hv as [|? ? Ht Hl]; subst.
  apply Forall_app. split.
  { repeat constructor.
    - cbn. rewrite visible_app, visible_repeat_horizontal. cbn.
      rewrite length_app, repeat_length. cbn. lia.
    - apply Hrow; [exact Ht|]. apply max_of_ge_init.
    - cbn. rewrite visible_app, visible_repeat_horizontal. cbn.
      rewrite length_app, repeat_length. cbn. lia. }
  apply Forall_app. split.
  { apply Forall_forall. intros r Hr. apply in_map_iff in Hr.
    destruct Hr as [s [<- Hs]]. apply Hrow.
    - rewrite Forall_forall in Hl. apply Hl. exact Hs.
    - apply max_of_ge_elem. apply in_map. exact Hs. }
  repeat constructor.
  cbn. rewrite visible_app, visible_repeat_horizontal. cbn.
  rewrite length_app, repeat_length. cbn. lia.
Qed.

Definition teardown_title : JsString := [84; 101; 97; 114]%N.
Definition teardown_lines : list JsString := [[67; 108; 117; 115; 116; 101; 114]%N; []].

Lemma infoBox_is_a_rectangle_witness :
  Forall (fun s => visible s = s) (teardown_title :: teardown_lines) /\
  length (infoBox teardown_title teardown_lines) = (length teardown_lines + 4)%nat /\
  Forall (fun s => length (visible s) =
                   (max_of (length teardown_title) (map (@length N) teardown_lines) + 6)%nat)
         (infoBox teardown_title teardown_lines).
Proof.
  assert (H : Forall (fun s => visible s = s) (teardown_title :: teardown_lines))
    by (repeat constructor).
  split; [exact H|]. exact (infoBox_is_a_rectangle teardown_title teardown_lines H).
Defined.

End InfoBox.

(** * [config.ts]: variables and interpolation *)

Module Interpolation.

Section Values.

(** JavaScript numbers and their [String(n)] are left abstract. *)
Variable num : Type.
Variable String_num : num -> string.

(** What [Object.prototype] answers for a key that is not an own property
    of the variable dictionary, as [String.prototype.replace] would insert
    it ([constructor], [toString], [__proto__], ...). *)
Variable inherited : string -> option string.

(** The data [parse] of [yaml] returns.  An object is the list of its own
    entries in the order of [Object.entries]. *)
#[local] Unset Elimination Schemes.

Inductive Data :=
  | DStr (s : string)
  | DNum (n : num)
  | DBool (b : bool)
  | DNull
  | DArr (items : list Data)
  | DObj (entries : list (string * Data)).

#[local] Set Elimination Schemes.

(** [String(value)]; an array is joined with [","], where [null] is the
    empty string. *)
Fixpoint String_of (v : Data) : string :=
  match v with
  | DStr s => s
  | DNum n => String_num n
  | DBool true => "true"
  | DBool false => "false"
  | DNull => "null"
  | DArr items =>
      String.concat ","
        (map (fun e => match e with DNull => "" | _ => String_of e end) items)
  | DObj _ => "[object Object]"
  end.

(** The variable dictionary, a [Record<string, string>], as the list of the
    assignments made to it, the latest first. *)
Definition Vars := list (string * string).

(** [result[key] = value]: assigning to [__proto__] a string creates no
    property. *)
Definition assign_key (key value : string) (result : Vars) : Vars :=
  if String.eqb key "__proto__" then result else (key, value) :: result.

(** [Object.assign(result, source)] *)
Definition Object_assign (result source : Vars) : Vars := (source ++ result)%list.

Fixpoint own (key : string) (vars : Vars) : option string :=
  match vars with
  | [] => None
  | (k, v) :: rest => if String.eqb k key then Some v else own key rest
  end.

(** [variables[key]]: [None] when it is [undefined]. *)
Definition lookup (vars : Vars) (key : string) : option string :=
  match own key vars with
  | Some v => Some v
  | None => inherited key
  end.

(** [prefix ? `${prefix}.${key}` : key] *)
Definition newKey (prefix key : string) : string :=
  if String.eqb prefix "" then key else prefix ++ "." ++ key.

(** The [for] loop of [extractVariables], [rec] being the function itself. *)
Definition extract_loop (rec : Data -> string -> Vars) (prefix : string) :=
  fix loop (entries : list (string * Data)) (result : Vars) : Vars :=
    match entries with
    | [] => result
    | (key, value) :: rest =>
        match value with
        | DObj _ => loop rest (Object_assign result (rec value (newKey prefix key)))
        | _ => loop rest (assign_key (newKey prefix key) (String_of value) result)
        end
    end.

Fixpoint extractVariables (obj : Data) (prefix : string) : Vars :=
  match obj with
  | DObj entries =>
      (fix loop (entries : list (string * Data)) (result : Vars) : Vars :=
         match entries with
         | [] => result
         | (key, value) :: rest =>
             match value with
             | DObj _ =>
                 loop rest (Object_assign result (extractVariables value (newKey prefix key)))
             | _ => loop rest (assign_key (newKey prefix key) (String_of value) result)
             end
         end) entries []
  | _ => []
  end.

Lemma extractVariables_obj entries prefix :
  extractVariables (DObj entries) prefix = extract_loop extractVariables prefix entries [].
Proof. reflexivity. Qed.

(** ** The regular expression [/\$\{([^}]+)\}/g] *)

Definition dollar : ascii := "$"%char.
Definition open_brace : ascii := "{"%char.
Definition close_brace : ascii := "}"%char.

(** [[^}]*] followed by [}]: the characters before the first closing brace and the
    rest after it. *)
Fixpoint until_brace (s : string) : option (string * string) :=
  match s with
  | EmptyString => None
  | String c s' =>
      if Ascii.eqb c close_brace then Some (EmptyString, s')
      else match until_brace s' with
           | Some (k, r) => Some (String c k, r)
           | None => None
           end
  end.

(** A match of the expression at the start of [s]: the key and what
    follows the match. *)
Definition match_ref (s : string) : option (string * string) :=
  match s with
  | String c1 (String c2 s') =>
      if Ascii.eqb c1 dollar && Ascii.eqb c2 open_brace then
        match until_brace s' with
        | Some (String c k, r) => Some (String c k, r)
        | _ => None
        end
      else None
  | _ => None
  end.

Section Replace.

Variable variables : Vars.

(** The replacement function: [variables[key] ?? `${${key}}`]. *)
Definition replacement (key : string) : string :=
  match lookup variables key with
  | Some v => v
  | None => String dollar (String open_brace (key ++ String close_brace EmptyString))
  end.

(** [String.prototype.replace] with the global expression: at each
    position, from the left, a match is replaced and the scan goes on after
    it; otherwise the character is copied. *)
Fixpoint replace_all (fuel : nat) (s : string) : string :=
  match fuel with
  | O => s
  | S fuel' =>
      match s with
      | EmptyString => EmptyString
      | String c s' =>
          match match_ref s with
          | Some (key, rest) => replacement key ++ replace_all fuel' rest
          | None => String c (replace_all fuel' s')
          end
      end
  end.

Definition interpolate_string (s : string) : string := replace_all (String.length s) s.

(** The keys the scan finds in [s]. *)
Fixpoint references_of (fuel : nat) (s : string) : list string :=
  match fuel with
  | O => []
  | S fuel' =>
      match s with
      | EmptyString => []
      | String c s' =>
          match match_ref s with
          | Some (key, rest) => key :: references_of fuel' rest
          | None => references_of fuel' s'
          end
      end
  end.

Definition references (s : string) : list string := references_of (String.length s) s.

Fixpoint interpolate (data : Data) : Data :=
  match data with
  | DStr s => DStr (interpolate_string s)
  | DArr items => DArr (map interpolate items)
  | DObj entries =>
      DObj ((fix loop (entries : list (string * Data)) : list (string * Data) :=
               match entries with
               | [] => []
               | (key, value) :: rest =>
                   if String.eqb key "__proto__" then loop rest
                   else (key, interpolate value) :: loop rest
               end) entries)
  | _ => data
  end.

End Replace.

(** ** Induction on data *)

Section DataInd.

Variable P : Data -> Prop.
Hypothesis HStr : forall s, P (DStr s).
Hypothesis HNum : forall n, P (DNum n).
Hypothesis HBool : forall b, P (DBool b).
Hypothesis HNull : P DNull.
Hypothesis HArr : forall items, Forall P items -> P (DArr items).
Hypothesis HObj : forall entries, Forall (fun kv => P (snd kv)) entries -> P (DObj entries).

Fixpoint Data_induction (d : Data) : P d :=
  match d with
  | DStr s => HStr s
  | DNum n => HNum n
  | DBool b => HBool b
  | DNull => HNull
  | DArr items =>
      HArr items
        ((fix all (l : list Data) : Forall P l :=
            match l with
            | [] => Forall_nil P
            | x :: l' => Forall_cons x (Data_induction x) (all l')
            end) items)
  | DObj entries =>
      HObj entries
        ((fix all (l : list (string * Data)) : Forall (fun kv => P (snd kv)) l :=
            match l with
            | [] => Forall_nil _
            | kv :: l' => Forall_cons kv (Data_induction (snd kv)) (all l')
            end) entries)
  end.

End DataInd.

(** ** References to undefined variables *)

Fixpoint has_char (c : ascii) (s : string) : bool :=
  match s with
  | EmptyString => false
  | String a s' => Ascii.eqb a c || has_char c s'
  end.

Lemma until_brace_spec : forall s k r,
  until_brace s = Some (k, r) ->
  s = k ++ String close_brace r /\ has_char close_brace k = false.
Proof.
  induction s as [|c s IH]; intros k r H; cbn in H; [discriminate H|].
  destruct (Ascii.eqb c close_brace) eqn:E.
  - injection H as <- <-. apply Ascii.eqb_eq in E. subst c. split; reflexivity.
  - destruct (until_brace s) as [[k' r']|]; [|discriminate H].
    injection H as <- <-. destruct (IH k' r' eq_refl) as [H1 H2].
    split; [cbn; rewrite <- H1; reflexivity|]. cbn. rewrite E, H2. reflexivity.
Qed.

Lemma until_brace_complete : forall k r,
  has_char close_brace k = false ->
  until_brace (k ++ String close_brace r) = Some (k, r).
Proof.
  induction k as [|c k IH]; intros r H; cbn.
  - reflexivity.
  - cbn in H. apply orb_false_iff in H. destruct H as [H1 H2].
    rewrite H1, (IH r H2). reflexivity.
Qed.

Lemma append_assoc a b c : (a ++ b) ++ c = a ++ (b ++ c).
Proof. induction a as [|x a IH]; cbn; [reflexivity|]. rewrite IH. reflexivity. Qed.

Lemma length_append a b : String.length (a ++ b) = (String.length a + String.length b)%nat.
Proof. induction a as [|c a IH]; cbn; [reflexivity|]. rewrite IH. reflexivity. Qed.

Lemma match_ref_spec s k r :
  match_ref s = Some (k, r) ->
  s = String dollar (String open_brace (k ++ String close_brace r)) /\
  k <> EmptyString /\ has_char close_brace k = false /\
  (String.length r < String.length s)%nat.
Proof.
  unfold match_ref. destruct s as [|c1 [|c2 s']]; try discriminate.
  destruct (Ascii.eqb c1 dollar) eqn:E1; [|discriminate].
  destruct (Ascii.eqb c2 open_brace) eqn:E2; [|discriminate]. cbn [andb].
  destruct (until_brace s') as [[[|c k'] r']|] eqn:E; try discriminate.
  intros H. injection H as <- <-.
  apply Ascii.eqb_eq in E1, E2. subst c1 c2.
  destruct (until_brace_spec s' _ _ E) as [H1 H2].
  split; [rewrite H1; reflexivity|]. split; [discriminate|]. split; [exact H2|].
  rewrite H1. cbn. rewrite length_append. cbn. lia.
Qed.

Lemma match_ref_complete k r :
  k <> EmptyString -> has_char close_brace k = false ->
  match_ref (String dollar (String open_brace (k ++ String close_brace r))) = Some (k, r).
Proof.
  intros Hk Hb. unfold match_ref. cbn [Ascii.eqb]. 
  change (Ascii.eqb dollar dollar && Ascii.eqb open_brace open_brace) with true. cbv iota.
  rewrite (until_brace_complete k r Hb). destruct k; [contradiction Hk; reflexivity|].
  reflexivity.
Qed.

Lemma match_ref_no_dollar c s :
  Ascii.eqb c dollar = false -> match_ref (String c s) = None.
Proof. intros H. unfold match_ref. destruct s; [reflexivity|]. rewrite H. reflexivity. Qed.

Section Verbatim.

Variable variables : Vars.

Lemma replace_all_step fuel c s :
  replace_all variables (S fuel) (String c s) =
    match match_ref (String c s) with
    | Some (key, rest) => replacement variables key ++ replace_all variables fuel rest
    | None => String c (replace_all variables fuel s)
    end.
Proof. reflexivity. Qed.

Lemma replace_all_verbatim : forall fuel s,
  (forall key, In key (references_of fuel s) -> lookup variables key = None) ->
  replace_all variables fuel s = s.
Proof.
  induction fuel as [|fuel IH]; intros s H; cbn [replace_all]; [reflexivity|].
  destruct s as [|c s']; [reflexivity|]. cbn [references_of] in H.
  destruct (match_ref (String c s')) as [[key rest]|] eqn:E.
  - destruct (match_ref_spec _ _ _ E) as [Hs _].
    unfold replacement. rewrite (H key (or_introl eq_refl)).
    rewrite (IH rest (fun k Hk => H k (or_intror Hk))).
    rewrite Hs. cbn. rewrite append_assoc. reflexivity.
  - rewrite (IH s' H). reflexivity.
Qed.

Lemma replace_all_fuel : forall f1 f2 s,
  (String.length s <= f1)%nat -> (String.length s <= f2)%nat ->
  replace_all variables f1 s = replace_all variables f2 s.
Proof.
  induction f1 as [|f1 IH]; intros f2 s H1 H2.
  - destruct s; [|cbn in H1; lia]. destruct f2; reflexivity.
  - destruct f2 as [|f2]; [destruct s; [reflexivity|cbn in H2; lia]|].
    cbn [replace_all]. destruct s as [|c s']; [reflexivity|]. cbn in H1, H2.
    destruct (match_ref (String c s')) as [[key rest]|] eqn:E.
    + destruct (match_ref_spec _ _ _ E) as [_ [_ [_ Hl]]]. cbn in Hl.
      rewrite (IH f2 rest) by lia. reflexivity.
    + rewrite (IH f2 s') by lia. reflexivity.
Qed.

Lemma interpolate_string_copies pre : forall t,
  has_char dollar pre = false ->
  interpolate_string variables (pre ++ t) = pre ++ interpolate_string variables t.
Proof.
  induction pre as [|c pre IH]; intros t H; [reflexivity|].
  cbn in H. apply orb_false_iff in H. destruct H as [H1 H2].
  unfold interpolate_string. cbn [append String.length].
  rewrite replace_all_step, (match_ref_no_dollar c _ H1). f_equal. apply (IH t H2).
Qed.

Lemma interpolate_string_at_reference key rest :
  key <> EmptyString -> has_char close_brace key = false ->
  interpolate_string variables
    (String dollar (String open_brace (key ++ String close_brace rest))) =
  replacement variables key ++ interpolate_string variables rest.
Proof.
  intros Hk Hb. unfold interpolate_string. cbn [String.length].
  rewrite replace_all_step, (match_ref_complete key rest Hk Hb). f_equal.
  apply replace_all_fuel; [|lia]. rewrite length_append. cbn. lia.
Qed.

(** The keys referred to in the strings of [d]. *)
Fixpoint data_references (d : Data) : list string :=
  match d with
  | DStr s => references s
  | DArr items => flat_map data_references items
  | DObj entries => flat_map (fun kv => data_references (snd kv)) entries
  | _ => []
  end.

(** No object of [d] has an entry under the key [__proto__]. *)
Fixpoint plain (d : Data) : bool :=
  match d with
  | DArr items => forallb plain items
  | DObj entries =>
      forallb (fun kv => negb (String.eqb (fst kv) "__proto__") && plain (snd kv)) entries
  | _ => true
  end.

(** X21. References to variables that are not defined are left as they are
    written: when no key referred to in [d] is defined (nor inherited from
    [Object.prototype]), [interpolate] returns [d] itself; this covers
    ["${}"], a ["${"] that is never closed and every text without
    references. *)
Theorem undefined_references_are_kept d :
  plain d = true ->
  (forall key, In key (data_references d) -> lookup variables key = None) ->
  interpolate variables d = d.
Proof.
  induction d as [s|n|b| |items IH|entries IH] using Data_induction;
    intros Hp Hk; cbn [interpolate]; try reflexivity.
  - f_equal. apply replace_all_verbatim. exact Hk.
  - f_equal. cbn [plain data_references] in Hp, Hk.
    induction IH as [|x l Hx Hl IHl]; [reflexivity|].
    cbn in Hp, Hk. apply andb_true_iff in Hp. destruct Hp as [Hp1 Hp2]. cbn. f_equal.
    + apply Hx; [exact Hp1|]. intros key H. apply Hk. apply in_or_app. left. exact H.
    + apply IHl; [exact Hp2|]. intros key H. apply Hk. apply in_or_app. right. exact H.
  - f_equal. cbn [plain data_references] in Hp, Hk.
    induction IH as [|[k v] l Hx Hl IHl]; [reflexivity|].
    cbn in Hp, Hk. apply andb_true_iff in Hp. destruct Hp as [Hp1 Hp2].
    apply andb_true_iff in Hp1. destruct Hp1 as [Hp0 Hp1].
    apply negb_true_iff in Hp0. rewrite Hp0. f_equal.
    + f_equal. apply Hx; [exact Hp1|].
      intros key H. apply Hk. apply in_or_app. left. exact H.
    + apply IHl; [exact Hp2|]. intros key H. apply Hk. apply in_or_app. right. exact H.
Qed.

(** X22. A reference to a defined variable is replaced by its value, and
    the value is not scanned again: after a text without ["$"], the
    reference ["${key}"] becomes the value as it is, and the scan goes on
    behind the closing brace. *)
Theorem reference_is_replaced_once pre key value post :
  has_char dollar pre = false ->
  key <> "" ->
  has_char close_brace key = false ->
  lookup variables key = Some value ->
  interpolate_string variables (pre ++ "${" ++ key ++ "}" ++ post) =
    pre ++ value ++ interpolate_string variables post.
Proof.
  intros Hpre Hk Hb Hv. rewrite (interpolate_string_copies pre _ Hpre). f_equal.
  change ("${" ++ key ++ "}" ++ post)
    with (String dollar (String open_brace (key ++ String close_brace post))).
  rewrite (interpolate_string_at_reference key post Hk Hb).
  unfold replacement. rewrite Hv. reflexivity.
Qed.

End Verbatim.

(** ** The variable of a path *)

Definition is_object (d : Data) : bool :=
  match d with DObj _ => true | _ => false end.

(** The name [extractVariables] gives to the value under the keys [path]. *)
Fixpoint variable_name (prefix : string) (path : list string) : string :=
  match path with
  | [] => prefix
  | key :: rest => variable_name (newKey prefix key) rest
  end.

(** [leaf_at obj path leaf]: following the keys [path] through objects from
    [obj] leads to [leaf], which is not an object. *)
Inductive leaf_at : Data -> list string -> Data -> Prop :=
  | leaf_here entries key value :
      In (key, value) entries -> is_object value = false ->
      leaf_at (DObj entries) [key] value
  | leaf_below entries key sub path leaf :
      In (key, DObj sub) entries -> leaf_at (DObj sub) path leaf ->
      leaf_at (DObj entries) (key :: path) leaf.

Lemma own_In key : forall vars v, own key vars = Some v -> In (key, v) vars.
Proof.
  induction vars as [|[k x] vars IH]; intros v H; cbn in H; [discriminate H|].
  destruct (String.eqb_spec k key) as [->|Hne].
  - injection H as ->. left. reflexivity.
  - right. apply IH. exact H.
Qed.

Lemma In_own key v : forall vars, In (key, v) vars -> exists v', own key vars = Some v'.
Proof.
  induction vars as [|[k x] vars IH]; intros H; [destruct H|]. cbn.
  destruct (String.eqb_spec k key) as [->|Hne]; [eexists; reflexivity|].
  destruct H as [H|H]; [injection H as -> _; contradiction Hne; reflexivity|].
  apply IH. exact H.
Qed.

Lemma assign_key_In key value result kv :
  In kv (assign_key key value result) ->
  kv = (key, value) \/ In kv result.
Proof.
  unfold assign_key. destruct (String.eqb key "__proto__"); [auto|].
  intros [H|H]; [left; symmetry; exact H|right; exact H].
Qed.

Lemma extract_loop_sound rec prefix : forall entries result kv,
  In kv (extract_loop rec prefix entries result) ->
  In kv result \/
  exists key value,
    In (key, value) entries /\
    ((is_object value = false /\ kv = (newKey prefix key, String_of value)) \/
     (is_object value = true /\ In kv (rec value (newKey prefix key)))).
Proof.
  induction entries as [|[key value] rest IH]; intros result kv H; cbn in H; [auto|].
  assert (Hrest : forall result',
            In kv (extract_loop rec prefix rest result') ->
            In kv result' \/
            exists key0 value0,
              In (key0, value0) ((key, value) :: rest) /\
              ((is_object value0 = false /\ kv = (newKey prefix key0, String_of value0)) \/
               (is_object value0 = true /\ In kv (rec value0 (newKey prefix key0))))).
  { intros result' H'. destruct (IH result' kv H') as [Hr|[k0 [v0 [Hin Hc]]]]; [auto|].
    right. exists k0, v0. split; [right; exact Hin|exact Hc]. }
  destruct value as [s|n|b| |items|sub].
  1-5: destruct (Hrest _ H) as [Hr|Hr]; [|right; exact Hr];
       apply assign_key_In in Hr; destruct Hr as [Hr|Hr]; [|left; exact Hr];
       right; eexists; eexists; (split; [left; reflexivity|]); left;
       split; [reflexivity|exact Hr].
  destruct (Hrest _ H) as [Hr|Hr]; [|right; exact Hr].
  unfold Object_assign in Hr. apply in_app_or in Hr. destruct Hr as [Hr|Hr]; [|left; exact Hr].
  right. exists key, (DObj sub). split; [left; reflexivity|]. right. split; [reflexivity|exact Hr].
Qed.

Lemma extractVariables_sound : forall obj prefix key v,
  In (key, v) (extractVariables obj prefix) ->
  exists path leaf,
    leaf_at obj path leaf /\ key = variable_name prefix path /\ v = String_of leaf.
Proof.
  induction obj as [s|n|b| |items IH|entries IH] using Data_induction;
    intros prefix key v H; try (destruct H).
  rewrite extractVariables_obj in H.
  destruct (extract_loop_sound _ _ _ _ _ H) as [[]|[k [value [Hin [[Hleaf Hkv]|[Hobj Hsub]]]]]].
  - injection Hkv as -> ->. exists [k], value. split; [|split; reflexivity].
    apply leaf_here; assumption.
  - rewrite Forall_forall in IH. specialize (IH (k, value) Hin). cbn in IH.
    destruct (IH _ _ _ Hsub) as [path [leaf [H1 [H2 H3]]]].
    destruct value as [| | | | |sub]; try discriminate Hobj.
    exists (k :: path), leaf. split; [|split; assumption].
    apply leaf_below with (sub := sub); assumption.
Qed.

Lemma extract_loop_grows rec prefix kv : forall entries result,
  In kv result -> In kv (extract_loop rec prefix entries result).
Proof.
  induction entries as [|[key value] rest IH]; intros result H; cbn; [exact H|].
  destruct value; apply IH;
    try (unfold assign_key; destruct (String.eqb _ "__proto__"); [exact H|right; exact H]).
  unfold Object_assign. apply in_or_app. right. exact H.
Qed.

Lemma extract_loop_leaf rec prefix key value : forall entries result,
  In (key, value) entries -> is_object value = false ->
  newKey prefix key <> "__proto__" ->
  In (newKey prefix key, String_of value) (extract_loop rec prefix entries result).
Proof.
  induction entries as [|[k x] rest IH]; intros result Hin Hleaf Hne; [destruct Hin|].
  destruct Hin as [Hin|Hin].
  - injection Hin as -> ->. cbn.
    destruct value; try discriminate Hleaf; apply extract_loop_grows;
      unfold assign_key; destruct (String.eqb_spec (newKey prefix key) "__proto__");
      try contradiction; left; reflexivity.
  - cbn. destruct x; apply IH; assumption.
Qed.

Lemma extract_loop_below rec prefix key sub kv : forall entries result,
  In (key, DObj sub) entries ->
  In kv (rec (DObj sub) (newKey prefix key)) ->
  In kv (extract_loop rec prefix entries result).
Proof.
  induction entries as [|[k x] rest IH]; intros result Hin Hsub; [destruct Hin|].
  destruct Hin as [Hin|Hin].
  - injection Hin as -> ->. cbn. apply extract_loop_grows.
    unfold Object_assign. apply in_or_app. left. exact Hsub.
  - cbn. destruct x; apply IH; assumption.
Qed.

Lemma extractVariables_complete obj path leaf :
  leaf_at obj path leaf ->
  forall prefix,
    variable_name prefix path <> "__proto__" ->
    In (variable_name prefix path, String_of leaf) (extractVariables obj prefix).
Proof.
  induction 1 as [entries key value Hin Hleaf|entries key sub path leaf Hin Hsub IH];
    intros prefix Hne; rewrite extractVariables_obj.
  - cbn in *. apply extract_loop_leaf; assumption.
  - cbn [variable_name] in *. apply extract_loop_below with (key := key) (sub := sub);
      [exact Hin|]. apply IH. exact Hne.
Qed.

(** X23. The variable named by the keys of a path, joined with dots, holds
    the string of the value at that path, provided the name is not
    [__proto__] and every value that goes by the same name has the same
    string. *)
Theorem variable_of_a_path obj path leaf :
  leaf_at obj path leaf ->
  variable_name "" path <> "__proto__" ->
  (forall path' leaf',
     leaf_at obj path' leaf' ->
     variable_name "" path' = variable_name "" path ->
     String_of leaf' = String_of leaf) ->
  lookup (extractVariables obj "") (variable_name "" path) = Some (String_of leaf).
Proof.
  intros Hleaf Hne Huniq.
  pose proof (extractVariables_complete obj path leaf Hleaf "" Hne) as Hin.
  destruct (In_own _ _ _ Hin) as [v' Hown].
  unfold lookup. rewrite Hown. f_equal.
  apply own_In in Hown.
  destruct (extractVariables_sound _ _ _ _ Hown) as [path' [leaf' [H1 [H2 H3]]]].
  rewrite H3. apply (Huniq path' leaf' H1). symmetry. exact H2.
Qed.

End Values.

Arguments DStr {num} s.
Arguments DNum {num} n.
Arguments DBool {num} b.
Arguments DNull {num}.
Arguments DArr {num} items.
Arguments DObj {num} entries.

(** What V8 answers for the properties of [Object.prototype]. *)
Definition object_prototype (key : string) : option string :=
  if String.eqb key "__proto__" then Some "[object Object]"
  else if String.eqb key "constructor" then Some "function Object() { [native code] }"
  else if String.eqb key "toString" then Some "function toString() { [native code] }"
  else if String.eqb key "valueOf" then Some "function valueOf() { [native code] }"
  else if String.eqb key "hasOwnProperty"
       then Some "function hasOwnProperty() { [native code] }"
  else if String.eqb key "isPrototypeOf"
       then Some "function isPrototypeOf() { [native code] }"
  else if String.eqb key "propertyIsEnumerable"
       then Some "function propertyIsEnumerable() { [native code] }"
  else if String.eqb key "toLocaleString"
       then Some "function toLocaleString() { [native code] }"
  else if String.eqb key "__defineGetter__"
       then Some "function __defineGetter__() { [native code] }"
  else if String.eqb key "__defineSetter__"
       then Some "function __defineSetter__() { [native code] }"
  else if String.eqb key "__lookupGetter__"
       then Some "function __lookupGetter__() { [native code] }"
  else if String.eqb key "__lookupSetter__"
       then Some "function __lookupSetter__() { [native code] }"
  else None.

Definition String_Z (z : Z) : string := NilZero.string_of_int (Z.to_int z).

Definition sample_yaml : Data Z :=
  DObj [("lab", DObj [("name", DStr "demo"); ("environment", DStr "dev")]);
        ("foundation",
         DObj [("s3", DObj [("data_bucket", DStr "${lab.name}-data-${lab.stage}")])])].

Lemma undefined_references_are_kept_witness :
  plain Z sample_yaml = true /\
  (forall key, In key (data_references Z sample_yaml) ->
               lookup object_prototype [] key = None) /\
  interpolate Z object_prototype [] sample_yaml = sample_yaml.
Proof.
  assert (H : forall key, In key (data_references Z sample_yaml) ->
                          lookup object_prototype [] key = None).
  { intros key [<-|[<-|[]]]; reflexivity. }
  split; [reflexivity|]. split; [exact H|].
  exact (undefined_references_are_kept Z object_prototype [] sample_yaml eq_refl H).
Defined.

Lemma reference_is_replaced_once_witness :
  has_char dollar "s3://" = false /\
  "lab.name" <> "" /\
  has_char close_brace "lab.name" = false /\
  lookup object_prototype [("lab.name", "${lab.stage}")] "lab.name" = Some "${lab.stage}" /\
  interpolate_string object_prototype [("lab.name", "${lab.stage}")]
    ("s3://" ++ "${" ++ "lab.name" ++ "}" ++ "-data") =
    "s3://" ++ "${lab.stage}" ++
    interpolate_string object_prototype [("lab.name", "${lab.stage}")] "-data".
Proof.
  assert (H : "lab.name" <> "") by discriminate.
  split; [reflexivity|]. split; [exact H|]. split; [reflexivity|]. split; [reflexivity|].
  exact (reference_is_replaced_once object_prototype [("lab.name", "${lab.stage}")]
           "s3://" "lab.name" "${lab.stage}" "-data" eq_refl H eq_refl eq_refl).
Defined.

Ltac leaf_cases H :=
  inversion H; subst; clear H;
  repeat match goal with
         | H' : In _ (_ :: _) |- _ => destruct H' as [H'|H']
         | H' : In _ [] |- _ => destruct H'
         | H' : (_, _) = (_, _) |- _ => injection H' as ? ?; subst
         | H' : is_object (DObj _) = false |- _ => discriminate H'
         end;
  try discriminate.

Lemma variable_of_a_path_witness :
  leaf_at Z sample_yaml ["lab"; "name"] (DStr "demo") /\
  variable_name "" ["lab"; "name"] <> "__proto__" /\
  lookup object_prototype (extractVariables Z String_Z sample_yaml "")
    (variable_name "" ["lab"; "name"]) = Some (String_of Z String_Z (DStr "demo")).
Proof.
  assert (H1 : leaf_at Z sample_yaml ["lab"; "name"] (DStr "demo")).
  { eapply leaf_below; [left; reflexivity|]. apply leaf_here; [left; reflexivity|reflexivity]. }
  assert (H2 : variable_name "" ["lab"; "name"] <> "__proto__") by discriminate.
  split; [exact H1|]. split; [exact H2|].
  apply (variable_of_a_path Z String_Z object_prototype sample_yaml ["lab"; "name"]
           (DStr "demo") H1 H2).
  intros path' leaf' H Hn.
  leaf_cases H;
    match goal with
    | H' : leaf_at _ _ _ _ |- _ => leaf_cases H'
    end;
    try (cbn in Hn; discriminate Hn); try reflexivity;
    match goal with
    | H' : leaf_at _ _ _ _ |- _ => leaf_cases H'
    end;
    try (cbn in Hn; discriminate Hn); try reflexivity.
Defined.

End Interpolation.

(** End of the development. *)
